(** * mystampa: receipt layout, ESC/POS encoding, printer transport and
    delivery queue.

    A shallow embedding of the TypeScript sources ([utils/printer.ts],
    [utils/image.ts], [utils/printQueue.ts], [routes/print.ts], [models.ts],
    [utils/axiosInstance.ts], [index.ts]) and the properties of the printing
    core established on it.

    Conventions of the embedding:
    - a JavaScript string is the list of its UTF-16 code units ([jstring]),
      so that [length] is the JavaScript [.length];
    - integers (widths, quantities, counters, bytes) are [Z]; a money
      amount is the value of a double, held as an exact rational ([Qc]).
      Sums and products of amounts are exact, as those of the doubles are
      on whole numbers up to 2^53; the rounding of other sums and products
      is not modelled, and the statements about amounts keep to whole
      numbers within 2^53, or to bounds that rounding preserves;
    - an integer read by [parseInt] is rounded to the nearest double
      ([numberOfZ]);
    - a [while] loop that need not terminate takes fuel and returns [None]
      when the fuel runs out;
    - the network is an oracle indexed by the number of connections opened
      so far, and every connection is recorded in a log;
    - an [async] function is run to its end without interleaving, except
      the sweep of the queue, which is also given with the calls of [add]
      that other tasks make while it is suspended ([processQueueDuring]);
    - [progressCounters] is an object literal: a finite map for its own
      properties, with the members inherited from [Object.prototype]. *)

From Stdlib Require Import ZArith NArith QArith Qabs Qround Qcanon Ascii String.
From Stdlib Require Import DecimalString DecimalFacts DecimalPos Lia.
From stdpp Require Import base option list gmap.

Local Open Scope Z_scope.

(* ===================================================================== *)
(** * JavaScript strings *)
(* ===================================================================== *)

Module JS.

(** A string is the list of its UTF-16 code units. *)
Abbreviation jstring := (list N).

(** A literal written in ASCII. *)
Definition js (s : string) : jstring :=
  List.map N_of_ascii (list_ascii_of_string s).

(** [s.length] *)
Definition len (s : jstring) : Z := Z.of_nat (length s).

Definition SP : N := 32%N.
Definition NL : N := 10%N.
Definition EURO : N := 8364%N.

(** ECMAScript WhiteSpace and LineTerminator code units, the ones removed by
    [trim], [trimStart] and [trimEnd]. *)
Definition is_ws (c : N) : bool :=
  (N.leb 9 c && N.leb c 13)
  || N.eqb c 32 || N.eqb c 160 || N.eqb c 5760
  || (N.leb 8192 c && N.leb c 8202)
  || N.eqb c 8232 || N.eqb c 8233 || N.eqb c 8239 || N.eqb c 8287
  || N.eqb c 12288 || N.eqb c 65279.

(** [s.trimEnd()] *)
Fixpoint trimEnd (s : jstring) : jstring :=
  match s with
  | [] => []
  | c :: s' =>
      match trimEnd s' with
      | [] => if is_ws c then [] else [c]
      | t => c :: t
      end
  end.

(** [s.trimStart()] *)
Fixpoint trimStart (s : jstring) : jstring :=
  match s with
  | [] => []
  | c :: s' => if is_ws c then trimStart s' else s
  end.

(** [s.trim()] *)
Definition trim (s : jstring) : jstring := trimStart (trimEnd s).

(** [s.split(sep)] for a one-unit separator: never empty, [""] gives [[""]]. *)
Fixpoint split (sep : N) (s : jstring) : list jstring :=
  match s with
  | [] => [[]]
  | c :: s' =>
      if N.eqb c sep then [] :: split sep s'
      else match split sep s' with
           | w :: ws => (c :: w) :: ws
           | [] => [[c]]
           end
  end.

(** [s.substring(a, b)]: arguments below 0 count as 0, and are swapped when
    [a > b]. *)
Definition substring (s : jstring) (a b : Z) : jstring :=
  let a' := Z.max 0 a in
  let b' := Z.max 0 b in
  let lo := Z.min a' b' in
  let hi := Z.max a' b' in
  take (Z.to_nat (hi - lo)) (drop (Z.to_nat lo) s).

(** [s.substring(a)] *)
Definition substringFrom (s : jstring) (a : Z) : jstring :=
  drop (Z.to_nat (Z.max 0 a)) s.

(** [s.slice(0, w)] for [w >= 0], the only way the sources call it. *)
Definition slice0 (s : jstring) (w : Z) : jstring := take (Z.to_nat w) s.

(** [ch.repeat(n)] *)
Definition repeat (ch : jstring) (n : Z) : jstring :=
  mjoin (replicate (Z.to_nat n) ch).

(** [parts.join(sep)] *)
Fixpoint join (sep : jstring) (parts : list jstring) : jstring :=
  match parts with
  | [] => []
  | [p] => p
  | p :: ps => p ++ sep ++ join sep ps
  end.

(** [String(n)] for an integer [n]: the digits of [n], which is what
    JavaScript prints up to 2^53 in absolute value. From there up to 10^21
    JavaScript prints as many digits (the shortest ones that read back as
    the double, then zeros), so that only the length is the same; from
    10^21 on it prints an exponent, which is not modelled. *)
Definition ofZ (n : Z) : jstring := js (NilZero.string_of_int (Z.to_int n)).

(** [s.padStart(w, "0")] *)
Definition padStart0 (s : jstring) (w : Z) : jstring :=
  repeat (js "0") (w - len s) ++ s.

(** [s.toUpperCase()] on the ASCII letters. *)
Definition toUpperCase (s : jstring) : jstring :=
  List.map (fun c => if (N.leb 97 c && N.leb c 122)%bool then (c - 32)%N else c) s.

End JS.
Export JS.

(* ===================================================================== *)
(** * Text layout: [wrapText] *)
(* ===================================================================== *)

Module Layout.

(** The hard-split loop of [wrapText]:
    [while ((currentLine + tempWord).length > maxWidth) { ... }].
    The result is the state on exit: [lines], [currentLine], [tempWord]. *)
Fixpoint hardSplit (fuel : nat) (maxWidth : Z) (indent : jstring)
    (lines : list jstring) (currentLine tempWord : jstring)
  : option (list jstring * jstring * jstring) :=
  if maxWidth <? len (currentLine ++ tempWord) then
    match fuel with
    | O => None
    | S fuel' =>
        let cutLen := Z.max 1 (maxWidth - len currentLine) in
        hardSplit fuel' maxWidth indent
          (lines ++ [currentLine ++ substring tempWord 0 cutLen])
          indent (substringFrom tempWord cutLen)
    end
  else Some (lines, currentLine, tempWord).

(** The body of [for (const word of words)]. *)
Definition wrapWord (fuel : nat) (maxWidth : Z) (indent : jstring)
    (st : list jstring * jstring) (word : jstring)
  : option (list jstring * jstring) :=
  let '(lines, currentLine) := st in
  if maxWidth <? len (currentLine ++ word) then
    let lines :=
      if 0 <? len currentLine then lines ++ [trimEnd currentLine] else lines in
    let prefix := if 0 <? Z.of_nat (length lines) then indent else [] in
    let currentLine := prefix in
    if maxWidth <? len (currentLine ++ word) then
      '(lines, currentLine, tempWord) ←
         hardSplit fuel maxWidth indent lines currentLine word;
      Some (lines, currentLine ++ tempWord ++ [SP])
    else Some (lines, currentLine ++ word ++ [SP])
  else Some (lines, currentLine ++ word ++ [SP]).

Fixpoint wrapWords (fuel : nat) (maxWidth : Z) (indent : jstring)
    (words : list jstring) (st : list jstring * jstring)
  : option (list jstring * jstring) :=
  match words with
  | [] => Some st
  | word :: words' =>
      st' ← wrapWord fuel maxWidth indent st word;
      wrapWords fuel maxWidth indent words' st'
  end.

(** [wrapText(text, maxWidth, indent)]; every run of the hard-split loop
    gets [fuel] iterations. *)
Definition wrapText (fuel : nat) (text : jstring) (maxWidth : Z)
    (indent : jstring) : option (list jstring) :=
  '(lines, currentLine) ←
     wrapWords fuel maxWidth indent (split SP text) ([], []);
  Some (if 0 <? len (trim currentLine)
        then lines ++ [trimEnd currentLine] else lines).

End Layout.
Export Layout.

(* ===================================================================== *)
(** * JavaScript values and the runtime *)
(* ===================================================================== *)

Module Values.

(** A value of type [string | number | null | undefined]; numbers are the
    finite ones. *)
Inductive JsVal : Type :=
  | VNull
  | VNum (q : Qc)
  | VStr (s : jstring).

(** A JavaScript [number] where being finite and being an integer matter
    (the printer port). *)
Inductive JsNum : Type :=
  | NFinite (q : Qc)
  | NNaN
  | NPosInf
  | NNegInf.

(** Local calendar fields of a valid [Date]. *)
Record DateFields : Type := {
  getDate : Z;
  getMonth : Z;
  getFullYear : Z;
  getHours : Z;
  getMinutes : Z
}.

(** What the sources take from the platform and from [iconv-lite]. *)
Class Runtime : Type := {
  (** [Number(s)] when the result is finite, [None] when it is [NaN] or
      infinite. *)
  Number_of_string : jstring -> option Qc;
  (** [new Date(s)], [None] when [isNaN(d.getTime())]. *)
  Date_of_string : jstring -> option DateFields;
  (** [iconv.encode(s, "cp858")] *)
  iconv_encode_cp858 : jstring -> list Z;
  (** [Math.random().toString(36)] at the n-th draw. *)
  Math_random_36 : nat -> jstring;
  (** [Date.now()] at the n-th draw. *)
  Date_now : nat -> Z
}.

Definition Qc_ltb (x y : Qc) : bool :=
  match (x ?= y)%Qc with Lt => true | _ => false end.

Definition Qc_leb (x y : Qc) : bool :=
  match (x ?= y)%Qc with Gt => false | _ => true end.

(** [Math.max(a, b)] *)
Definition Math_max (a b : Qc) : Qc := if Qc_ltb a b then b else a.

(** [Number.isFinite(n)] *)
Definition Number_isFinite (n : JsNum) : bool :=
  match n with NFinite _ => true | _ => false end.

(** [n <= 0] *)
Definition JsNum_le0 (n : JsNum) : bool :=
  match n with
  | NFinite q => Qc_leb q 0
  | NNegInf => true
  | NNaN | NPosInf => false
  end.

(** [trimStr(v)] on an optional string. *)
Definition trimStr (v : option jstring) : jstring :=
  match v with
  | None => []
  | Some s => trim s
  end.

(** [a || b] on strings. *)
Definition orElse (a b : jstring) : jstring :=
  match a with [] => b | _ => a end.

(** [s.replace(a, b)] for one-unit [a] and [b]: the first occurrence only. *)
Fixpoint replaceFirst (a b : N) (s : jstring) : jstring :=
  match s with
  | [] => []
  | c :: s' => if N.eqb c a then b :: s' else c :: replaceFirst a b s'
  end.

(** [toNumber(v)] *)
Definition toNumber `{Runtime} (v : JsVal) : Qc :=
  match v with
  | VNull => 0%Qc
  | VNum q => q
  | VStr s =>
      match Number_of_string (replaceFirst 44 46 (trim s)) with
      | Some n => n
      | None => 0%Qc
      end
  end.

(** [x.toFixed(2)] for the value [x] of a double with [|x| < 10^21]: the
    sign, then the integer [n] nearest to [|x| * 100] (the larger one on a
    tie) printed with two decimals. From 10^21 on JavaScript prints an
    exponent, which is not modelled. *)
Definition toFixed2 (x : Qc) : jstring :=
  let n := Qfloor (Qabs x * inject_Z 100 + (1 # 2))%Q in
  (if Qc_ltb x 0 then js "-" else [])
    ++ ofZ (n / 100) ++ js "." ++ padStart0 (ofZ (n mod 100)) 2.

End Values.
Export Values.

(* ===================================================================== *)
(** * Receipts *)
(* ===================================================================== *)

Module Receipt.

Record KitchenReceiptLine : Type := {
  foodName : jstring;
  quantity : Z;
  notes : option jstring
}.

Record CashReceiptLine : Type := {
  kitchenLine :> KitchenReceiptLine;
  unitPrice : Qc;
  surcharge : option Qc
}.

(** An entry of [orderItems], with the fields the route handler reads:
    [it.food?.name], [it.food?.printerId], [it.unitPrice],
    [it.unitSurcharge]. *)
Record OrderItemIn : Type := {
  item_id : jstring;
  item_quantity : Z;
  item_notes : option jstring;
  item_food_name : option jstring;
  item_food_printerId : option jstring;
  item_unitPrice : JsVal;
  item_unitSurcharge : JsVal
}.

(** The order; its [id] is [order_id] here, [id] being the identity
    function. *)
Record IncomingOrder : Type := {
  order_id : jstring;
  displayCode : option jstring;
  table : option jstring;
  customer : option jstring;
  confirmedAt : option jstring;
  ticketNumber : option Z;
  paymentMethod : option jstring;
  discount : JsVal;
  orderItems : list OrderItemIn
}.

Definition RECEIPT_W : Z := 48.

(** [const repeat = (ch, n) => ch.repeat(Math.max(0, n))] *)
Definition repeat (ch : jstring) (n : Z) : jstring := JS.repeat ch (Z.max 0 n).

(** [const line = (ch = "-") => repeat(ch, RECEIPT_W)] *)
Definition line (ch : jstring) : jstring := repeat ch RECEIPT_W.

(** [const cut = (s, w) => (s.length <= w ? s : s.slice(0, w))] *)
Definition cut (s : jstring) (w : Z) : jstring :=
  if len s <=? w then s else slice0 s w.

Definition padRight (s : jstring) (w : Z) : jstring :=
  if w <=? len s then s else s ++ repeat [SP] (w - len s).

(** [lr(left, right)]: text on the left, price on the right. *)
Definition lr (left right : jstring) : jstring :=
  let left := trimEnd left in
  let right := trim right in
  let space := 1 in
  let leftW := RECEIPT_W - len right - space in
  let leftCut := cut left (Z.max 0 leftW) in
  padRight leftCut (Z.max 0 leftW) ++ repeat [SP] space ++ right.

(** [eurCol(n)]: [12,34€], for a finite [n] (a product of doubles that
    overflows is not modelled). *)
Definition eurCol (n : Qc) : jstring :=
  replaceFirst 46 44 (toFixed2 n) ++ [EURO].

Definition GS : jstring := [29%N].
Definition ESC : jstring := [27%N].
Definition TXT_NORMAL : jstring := GS ++ js "!" ++ [0%N].
Definition TXT_BIG : jstring := GS ++ js "!" ++ [17%N].
Definition BOLD_ON : jstring := ESC ++ js "E" ++ [1%N].
Definition BOLD_OFF : jstring := ESC ++ js "E" ++ [0%N].

(** The [ORA:] line shared by both receipts. *)
Definition oraLines `{Runtime} (order : IncomingOrder) : list jstring :=
  match trimStr (confirmedAt order) with
  | [] => []
  | t =>
      match Date_of_string (default [] (confirmedAt order)) with
      | Some d =>
          let day := padStart0 (ofZ (getDate d)) 2 in
          let month := padStart0 (ofZ (getMonth d + 1)) 2 in
          let year := ofZ (getFullYear d) in
          let hrs := padStart0 (ofZ (getHours d)) 2 in
          let mins := padStart0 (ofZ (getMinutes d)) 2 in
          [cut (js "ORA: " ++ day ++ js "/" ++ month ++ js "/" ++ year
                  ++ js " " ++ hrs ++ js ":" ++ mins) RECEIPT_W]
      | None => [cut (js "ORA: " ++ t) RECEIPT_W]
      end
  end.

(** The [NOTE:] lines of an item, shared by both receipts. *)
Definition noteLines (fuel : nat) (indent : jstring) (l : KitchenReceiptLine)
  : option (list jstring) :=
  match trimStr (notes l) with
  | [] => Some []
  | t =>
      let noteIndent := indent ++ js "      " in
      wrapText fuel (indent ++ js "NOTE: " ++ t) RECEIPT_W noteIndent
  end.

(** ** Kitchen receipt *)

(** The header of [buildKitchenReceipt], up to the second dashed line.
    [progress] is what the template prints for the argument
    ([${progress}]). *)
Definition kitchenHeaderOf `{Runtime} (order : IncomingOrder)
    (progress : jstring) : list jstring :=
  let topInfo := js "PROGR: " ++ progress in
  let topInfo :=
    match trimStr (displayCode order) with
    | [] => topInfo
    | c => js "COD: " ++ c ++ js " - " ++ topInfo
    end in
  let table := orElse (trimStr (table order)) (js "-") in
  let customer := orElse (trimStr (customer order)) (js "-") in
  [cut topInfo RECEIPT_W;
   cut (js "===== ORDINE CUCINA =====") RECEIPT_W;
   line (js "=");
   TXT_BIG ++ cut (js "TAVOLO: " ++ table) RECEIPT_W ++ TXT_NORMAL;
   TXT_BIG ++ cut (js "CLIENTE: " ++ customer) RECEIPT_W ++ TXT_NORMAL;
   TXT_BIG ++ cut (js "PROGR: " ++ progress) RECEIPT_W ++ TXT_NORMAL;
   line (js "-")]
  ++ match trimStr (displayCode order) with
     | [] => []
     | c => [cut (js "CODICE: " ++ c) RECEIPT_W]
     end
  ++ oraLines order
  ++ [line (js "-")].

(** The header when [progress] is a number, as its type says: an integer
    below 2^53 in absolute value prints as its digits. *)
Definition kitchenHeader `{Runtime} (order : IncomingOrder) (progress : Z)
  : list jstring :=
  kitchenHeaderOf order (ofZ progress).

(** One iteration of [for (const l of lines)] of the kitchen receipt. *)
Definition kitchenItem (fuel : nat) (out : list jstring)
    (l : KitchenReceiptLine) : option (list jstring) :=
  let qty := quantity l in
  let name := orElse (trim (foodName l)) (js "FOOD") in
  let namePrefix := ofZ qty ++ js "x " in
  let indent := JS.repeat [SP] (len namePrefix) in
  wrappedName ← wrapText fuel (namePrefix ++ name) RECEIPT_W indent;
  wrappedNotes ← noteLines fuel indent l;
  Some (out ++ wrappedName ++ wrappedNotes ++ [[]]).

Fixpoint kitchenItems (fuel : nat) (out : list jstring)
    (lines : list KitchenReceiptLine) : option (list jstring) :=
  match lines with
  | [] => Some out
  | l :: lines' => out' ← kitchenItem fuel out l; kitchenItems fuel out' lines'
  end.

(** [buildKitchenReceipt(order, lines, progress)] for a [progress] that
    prints as the given text; [out] is the array of lines before the final
    [join]. *)
Definition buildKitchenReceiptOf_out `{Runtime} (fuel : nat)
    (order : IncomingOrder) (lines : list KitchenReceiptLine)
    (progress : jstring) : option (list jstring) :=
  out ← kitchenItems fuel (kitchenHeaderOf order progress) lines;
  Some (out ++ [line (js "-")]).

Definition buildKitchenReceiptOf `{Runtime} (fuel : nat)
    (order : IncomingOrder) (lines : list KitchenReceiptLine)
    (progress : jstring) : option jstring :=
  join [NL] <$> buildKitchenReceiptOf_out fuel order lines progress.

(** [buildKitchenReceipt(order, lines, progress)] for a number. *)
Definition buildKitchenReceipt_out `{Runtime} (fuel : nat)
    (order : IncomingOrder) (lines : list KitchenReceiptLine) (progress : Z)
  : option (list jstring) :=
  out ← kitchenItems fuel (kitchenHeader order progress) lines;
  Some (out ++ [line (js "-")]).

Definition buildKitchenReceipt `{Runtime} (fuel : nat)
    (order : IncomingOrder) (lines : list KitchenReceiptLine) (progress : Z)
  : option jstring :=
  join [NL] <$> buildKitchenReceipt_out fuel order lines progress.

(** ** Cash receipt *)

(** The header of [buildCashReceipt], up to the first dashed line. *)
Definition cashHeader `{Runtime} (order : IncomingOrder) : list jstring :=
  let orderNum :=
    match ticketNumber order with Some t => ofZ t | None => order_id order end in
  [TXT_BIG ++ BOLD_ON ++ js "Numero Ordine: " ++ orderNum
     ++ BOLD_OFF ++ TXT_NORMAL]
  ++ match trimStr (displayCode order) with
     | [] => []
     | c => [cut (js "CODICE: " ++ c) RECEIPT_W]
     end
  ++ [cut (js "TAVOLO: " ++ orElse (trimStr (table order)) (js "-")) RECEIPT_W;
      cut (js "CLIENTE: " ++ orElse (trimStr (customer order)) (js "-"))
        RECEIPT_W]
  ++ match trimStr (paymentMethod order) with
     | [] => []
     | pm =>
         let pmStr := toUpperCase pm in
         let pmStr :=
           if decide (pmStr = js "CASH") then js "CONTANTI"
           else if decide (pmStr = js "CARD") then js "PAGAMENTO ELETTRONICO"
           else pmStr in
         [cut (js "PAGAMENTO: " ++ pmStr) RECEIPT_W]
     end
  ++ oraLines order
  ++ [line (js "-")].

(** The state of the body loop: [out], [subtotalCalc], [surchargeSum]. *)
Definition CashAcc : Type := (list jstring * Qc * Qc)%type.

(** One iteration of [for (const l of lines)] of the cash receipt. *)
Definition cashItem (fuel : nat) (acc : CashAcc) (l : CashReceiptLine)
  : option CashAcc :=
  let '(out, subtotalCalc, surchargeSum) := acc in
  let qty := quantity l in
  let name := orElse (trim (foodName l)) (js "FOOD NAME NOT FOUND") in
  let unitBase := unitPrice l in
  let unitExtra := default 0%Qc (surcharge l) in
  let rowBase := (unitBase * Qc_of_Z qty)%Qc in
  let rowExtra := (unitExtra * Qc_of_Z qty)%Qc in
  let rowTotal := (rowBase + rowExtra)%Qc in
  let subtotalCalc := (subtotalCalc + rowBase)%Qc in
  let surchargeSum := (surchargeSum + rowExtra)%Qc in
  let priceStr := eurCol rowTotal in
  let availableWidthForName := RECEIPT_W - len priceStr - 1 in
  let namePrefix := ofZ qty ++ js "x " in
  let indent := JS.repeat [SP] (len namePrefix) in
  wrappedNameLines ←
    wrapText fuel (namePrefix ++ name) availableWidthForName indent;
  let out := out ++ [lr (default [] (head wrappedNameLines)) priceStr] in
  let out := out ++ List.map (fun w => cut w RECEIPT_W) (tail wrappedNameLines) in
  wrappedNotes ← noteLines fuel indent l;
  let out := out ++ wrappedNotes in
  let out :=
    if Qc_ltb 0 rowExtra
    then out ++ [lr (indent ++ js "EXTRA") (eurCol rowExtra)] else out in
  Some (out ++ [[]], subtotalCalc, surchargeSum).

Fixpoint cashItems (fuel : nat) (acc : CashAcc) (lines : list CashReceiptLine)
  : option CashAcc :=
  match lines with
  | [] => Some acc
  | l :: lines' => acc' ← cashItem fuel acc l; cashItems fuel acc' lines'
  end.

(** The totals section, from the dashed line after the items on. *)
Definition cashTotals `{Runtime} (order : IncomingOrder)
    (subtotalCalc surchargeSum : Qc) : list jstring :=
  let discount := toNumber (discount order) in
  let totalBase := (subtotalCalc + surchargeSum)%Qc in
  let totalAfterDiscount := Math_max 0 (totalBase - discount) in
  [line (js "-");
   lr (js "SUBTOTALE") (eurCol subtotalCalc)]
  ++ (if Qc_ltb 0 surchargeSum
      then [lr (js "EXTRA TOTALI") (eurCol surchargeSum)] else [])
  ++ (if Qc_ltb 0 discount
      then [lr (js "SCONTO") (js "-" ++ eurCol discount)] else [])
  ++ [line (js "=");
      lr (js "TOTALE") (eurCol totalAfterDiscount);
      line (js "=")].

(** The array [out] of [buildCashReceipt] when the totals have been
    pushed. *)
Definition buildCashReceipt_out `{Runtime} (fuel : nat)
    (order : IncomingOrder) (lines : list CashReceiptLine)
  : option (list jstring) :=
  '(out, subtotalCalc, surchargeSum) ←
     cashItems fuel (cashHeader order, 0%Qc, 0%Qc) lines;
  Some (out ++ cashTotals order subtotalCalc surchargeSum).

End Receipt.
Export Receipt.

(* ===================================================================== *)
(** * Printer transport *)
(* ===================================================================== *)

Module Transport.

(** [string | Buffer] *)
Inductive Segment : Type :=
  | Text (s : jstring)
  | Raw (bytes : list Z).

(** [(string | Buffer)[] | string | Buffer] *)
Inductive PrintData : Type :=
  | Segments (items : list Segment)
  | Single (item : Segment).

Inductive PrinterStatus : Type := OK | CARTA_QUASI_FINITA | CARTA_FINITA.

Inductive Error : Type := InvalidAddress | Timeout | TransportError.

Inductive Result (A : Type) : Type :=
  | Resolved (a : A)
  | Rejected (e : Error).
Arguments Resolved {A} a.
Arguments Rejected {A} e.

(** What a printer does with a status query. *)
Inductive StatusOutcome : Type :=
  | Data (chunk : list Z)
  | NoReply
  | SocketError.

(** The network: the outcome of the n-th connection opened. *)
Class Network : Type := {
  statusOutcome : nat -> StatusOutcome;
  sendOutcome : nat -> bool
}.

Inductive Event : Type :=
  | Query (ip : jstring) (port : JsNum) (bytes : list Z)
  | Write (ip : jstring) (port : JsNum) (payload : list Z).

(** Connections opened so far, identifiers drawn so far, and what went on
    the wire. *)
Record World : Type := {
  conns : nat;
  draws : nat;
  log : list Event
}.

Definition connect (e : Event) (w : World) : World :=
  {| conns := S (conns w); draws := draws w; log := log w ++ [e] |}.

(** The classification in the [data] handler of [getPrinterStatus]. *)
Definition statusOfByte (statusByte : Z) : PrinterStatus :=
  let paperEnded := Z.land statusByte 0x60 =? 0x60 in
  let paperLow := Z.land statusByte 0x0C =? 0x0C in
  if paperEnded then CARTA_FINITA
  else if paperLow then CARTA_QUASI_FINITA
  else OK.

(** [getPrinterStatus(ip, port)]. [data[0]] of an empty chunk is
    [undefined], which the bit operations read as 0. *)
Definition getPrinterStatus `{Network} (ip : jstring) (port : JsNum)
    (w : World) : Result PrinterStatus * World :=
  let queryStatus := [0x10; 0x04; 0x04] in
  let w' := connect (Query ip port queryStatus) w in
  match statusOutcome (conns w) with
  | Data data => (Resolved (statusOfByte (default 0 (head data))), w')
  | NoReply => (Rejected Timeout, w')
  | SocketError => (Rejected TransportError, w')
  end.

Definition SELECT_CP858 : list Z := [0x1B; 0x74; 0x13].
Definition FEED_AND_CUT : list Z := [0x1B; 0x64; 0x06; 0x1B; 0x69].

(** The payload assembled by [sendToPrinter]: the array [buffers], then
    [Buffer.concat(buffers)]. *)
Definition encodePayload `{Runtime} (data : PrintData) : list Z :=
  let normalized :=
    match data with Segments items => items | Single item => [item] end in
  let buffers :=
    foldl (fun buffers item =>
             match item with
             | Raw bytes => buffers ++ [bytes]
             | Text s => buffers ++ [iconv_encode_cp858 s]
             end)
          [SELECT_CP858] normalized in
  let buffers := buffers ++ [FEED_AND_CUT] in
  mjoin buffers.

(** The guard of [sendToPrinter]. *)
Definition invalidAddress (ip : jstring) (port : JsNum) : bool :=
  let ipClean := trim ip in
  let portClean := port in
  bool_decide (ipClean = [])
  || negb (Number_isFinite portClean) || JsNum_le0 portClean.

(** [sendToPrinter(ip, port, data)] *)
Definition sendToPrinter `{Runtime} `{Network} (ip : jstring) (port : JsNum)
    (data : PrintData) (w : World) : Result unit * World :=
  if invalidAddress ip port then (Rejected InvalidAddress, w)
  else
    let payload := encodePayload data in
    let w' := connect (Write (trim ip) port payload) w in
    if sendOutcome (conns w) then (Resolved tt, w')
    else (Rejected TransportError, w').

End Transport.
Export Transport.

(* ===================================================================== *)
(** * Delivery queue *)
(* ===================================================================== *)

Module Queue.

Record PrintJob : Type := {
  job_id : jstring;
  printerId : jstring;
  ip : jstring;
  port : JsNum;
  data : PrintData;
  timestamp : Z;
  attempts : Z
}.

Record PrintQueueManager : Type := {
  queue : list PrintJob;
  isProcessing : bool
}.

(** [printQueue.add(printerId, ip, port, data)] *)
Definition add `{Runtime} (printerId ip : jstring) (port : JsNum)
    (data : PrintData) (st : PrintQueueManager * World)
  : PrintQueueManager * World :=
  let '(m, w) := st in
  let job := {|
    job_id := substringFrom (Math_random_36 (draws w)) 7;
    printerId := printerId;
    ip := ip;
    port := port;
    data := data;
    timestamp := Date_now (draws w);
    attempts := 0
  |} in
  ({| queue := queue m ++ [job]; isProcessing := isProcessing m |},
   {| conns := conns w; draws := S (draws w); log := log w |}).

(** The size written by the log line of [add]:
    [Queue size: ${this.queue.length}]. *)
Definition loggedQueueSize (st : PrintQueueManager * World) : Z :=
  Z.of_nat (length (queue st.1)).

(** [existing = m.get(k) || []; existing.push(v); m.set(k, existing)] on a
    [Map], which keeps its keys in insertion order. *)
Fixpoint mapPush {V : Type} (k : jstring) (v : V)
    (m : list (jstring * list V)) : list (jstring * list V) :=
  match m with
  | [] => [(k, [v])]
  | (k', vs) :: m' =>
      if decide (k' = k) then (k', vs ++ [v]) :: m'
      else (k', vs) :: mapPush k v m'
  end.

(** [jobsByPrinter] *)
Definition groupJobs (q : list PrintJob) : list (jstring * list PrintJob) :=
  foldl (fun m job => mapPush (printerId job) job m) [] q.

(** [for (const job of jobs) { try { await sendToPrinter(...) } catch ... }] *)
Definition sendJobs `{Runtime} `{Network} (jobs : list PrintJob)
    (st : list PrintJob * World) : list PrintJob * World :=
  foldl (fun '(remainingJobs, w) job =>
           match sendToPrinter (ip job) (port job) (data job) w with
           | (Resolved _, w') => (remainingJobs, w')
           | (Rejected _, w') => (remainingJobs ++ [job], w')
           end)
        st jobs.

(** The body of [for (const [printerId, jobs] of jobsByPrinter)]. A group
    has at least one job. *)
Definition processGroup `{Runtime} `{Network} (st : list PrintJob * World)
    (group : jstring * list PrintJob) : list PrintJob * World :=
  let '(remainingJobs, w) := st in
  let jobs := group.2 in
  match jobs with
  | [] => st
  | job0 :: _ =>
      match getPrinterStatus (ip job0) (port job0) w with
      | (Resolved status, w') =>
          match status with
          | OK | CARTA_QUASI_FINITA => sendJobs jobs (remainingJobs, w')
          | CARTA_FINITA => (remainingJobs ++ jobs, w')
          end
      | (Rejected _, w') => (remainingJobs ++ jobs, w')
      end
  end.

(** [processQueue()], one sweep during which no other task calls [add];
    [processQueueDuring] is the sweep with such calls. *)
Definition processQueue `{Runtime} `{Network}
    (st : PrintQueueManager * World) : PrintQueueManager * World :=
  let '(m, w) := st in
  if isProcessing m then st
  else if bool_decide (length (queue m) = 0%nat) then st
  else
    let '(remainingJobs, w') :=
      foldl processGroup ([], w) (groupJobs (queue m)) in
    ({| queue := remainingJobs; isProcessing := false |}, w').

(** [safePrint(printerId, ip, port, data)] of the route handler. *)
Definition safePrint `{Runtime} `{Network} (printerId ip : jstring)
    (port : JsNum) (data : PrintData) (st : PrintQueueManager * World)
  : PrintQueueManager * World :=
  let '(m, w) := st in
  match getPrinterStatus ip port w with
  | (Resolved status, w1) =>
      match status with
      | OK | CARTA_QUASI_FINITA =>
          match sendToPrinter ip port data w1 with
          | (Resolved _, w2) => (m, w2)
          | (Rejected _, w2) => add printerId ip port data (m, w2)
          end
      | CARTA_FINITA => add printerId ip port data (m, w1)
      end
  | (Rejected _, w1) => add printerId ip port data (m, w1)
  end.

End Queue.
Export Queue.

(* ===================================================================== *)
(** * The [/print] route: kitchen receipts and progress counters *)
(* ===================================================================== *)

Module Route.

(** The result of [resolvePrinter]. *)
Record PrinterTarget : Type := {
  target_ip : jstring;
  target_port : JsNum
}.

(** A value read from [progressCounters]: a number, or a value that is not
    a number, of which the handler uses only the text ([String(v)]). *)
Inductive Counter : Type :=
  | Count (n : Z)
  | Other (text : jstring).

(** The members that an object literal inherits from [Object.prototype],
    by name, each with the text [String] gives for it (as Node prints a
    native function); [None] for every other name. *)
Definition objectPrototype (k : jstring) : option jstring :=
  if bool_decide (k = js "__proto__") then Some (js "[object Object]")
  else if bool_decide (k = js "constructor")
  then Some (js "function Object() { [native code] }")
  else if bool_decide
            (k ∈ [js "__defineGetter__"; js "__defineSetter__";
                  js "hasOwnProperty"; js "__lookupGetter__";
                  js "__lookupSetter__"; js "isPrototypeOf";
                  js "propertyIsEnumerable"; js "toString"; js "valueOf";
                  js "toLocaleString"])
  then Some (js "function " ++ k ++ js "() { [native code] }")
  else None.

(** [progressCounters[k]] on the object literal: an own property, else the
    member inherited under that name, else [undefined] ([None]). *)
Definition readProperty (counters : gmap jstring Counter) (k : jstring)
  : option Counter :=
  match counters !! k with
  | Some v => Some v
  | None => Other <$> objectPrototype k
  end.

(** [progressCounters[k] = v] for a number or a string [v]: the setter of
    [__proto__] ignores such a value, every other name gets an own
    property. *)
Definition writeProperty (k : jstring) (v : Counter)
    (counters : gmap jstring Counter) : gmap jstring Counter :=
  if bool_decide (k = js "__proto__") then counters else <[k := v]> counters.

(** [${prog}] *)
Definition counterText (prog : Counter) : jstring :=
  match prog with
  | Count n => ofZ n
  | Other text => text
  end.

(** [prog + 1]: a sum for a number, the text followed by [1] for anything
    else. Numbers are exact integers (a counter stays far below 2^53). *)
Definition plusOne (prog : Counter) : Counter :=
  match prog with
  | Count n => Count (n + 1)
  | Other text => Other (text ++ js "1")
  end.

(** The module-level state of the server process. *)
Record Server : Type := {
  progressCounters : gmap jstring Counter;
  printQueue : PrintQueueManager;
  world : World;
  console : list jstring
}.

(** The state when the process starts: [const progressCounters = {}], an
    empty queue. *)
Definition boot : Server := {|
  progressCounters := ∅;
  printQueue := {| queue := []; isProcessing := false |};
  world := {| conns := 0; draws := 0; log := [] |};
  console := []
|}.

(** A kitchen receipt that was generated: for which printer, with which
    progress value, and its text. This history is not kept by the source;
    it is returned by the model so that properties of the sequence of
    receipts can be stated. *)
Record KitchenPrint : Type := {
  kp_printerId : jstring;
  kp_progress : Counter;
  kp_receipt : jstring
}.

(** [kitchenByPrinterId], filled by the loop over [order.orderItems]. *)
Definition kitchenByPrinterId (order : IncomingOrder)
  : list (jstring * list KitchenReceiptLine) :=
  foldl (fun m it =>
           let foodName :=
             match item_food_name it with
             | Some n => n
             | None => js "FOOD(" ++ item_id it ++ js ")"
             end in
           let qty := item_quantity it in
           let notes := item_notes it in
           let printerId := trimStr (item_food_printerId it) in
           match printerId with
           | [] => m
           | _ =>
               mapPush printerId
                 {| foodName := foodName; quantity := qty; notes := notes |} m
           end)
        [] (orderItems order).

(** The body of [for (const [printerId, lines] of kitchenByPrinterId.entries())]. *)
Definition kitchenPrint `{Runtime} `{Network} (fuel : nat)
    (resolvePrinter : jstring -> option PrinterTarget)
    (order : IncomingOrder) (st : Server * list KitchenPrint)
    (entry : jstring * list KitchenReceiptLine)
  : option (Server * list KitchenPrint) :=
  let '(srv, history) := st in
  let '(printerId, lines) := entry in
  let pr := resolvePrinter printerId in
  let prog := default (Count 1) (readProperty (progressCounters srv) printerId) in
  receipt ← buildKitchenReceiptOf fuel order lines (counterText prog);
  let counters := writeProperty printerId (plusOne prog) (progressCounters srv) in
  let history :=
    history ++ [{| kp_printerId := printerId; kp_progress := prog;
                   kp_receipt := receipt |}] in
  match pr with
  | Some pr =>
      let '(q, w) :=
        safePrint printerId (target_ip pr) (target_port pr)
          (Single (Text receipt)) (printQueue srv, world srv) in
      Some ({| progressCounters := counters; printQueue := q; world := w;
               console := console srv |}, history)
  | None =>
      Some ({| progressCounters := counters; printQueue := printQueue srv;
               world := world srv;
               console := console srv
                 ++ [js "NO PRINTER for kitchen printerId= " ++ printerId;
                     receipt] |}, history)
  end.

(** The kitchen part of the [POST /print] handler for one order that has
    passed the checks of the payload and of the token. The cash part of the
    handler follows it; it does not read or write the counters and is left
    out. *)
Definition printKitchen `{Runtime} `{Network} (fuel : nat)
    (resolvePrinter : IncomingOrder -> jstring -> option PrinterTarget)
    (st : Server * list KitchenPrint) (order : IncomingOrder)
  : option (Server * list KitchenPrint) :=
  foldl (fun st entry =>
           st ≫= fun st => kitchenPrint fuel (resolvePrinter order) order st entry)
        (Some st) (kitchenByPrinterId order).

(** The orders served one after the other since the process started. *)
Definition serve `{Runtime} `{Network} (fuel : nat)
    (resolvePrinter : IncomingOrder -> jstring -> option PrinterTarget)
    (orders : list IncomingOrder) : option (Server * list KitchenPrint) :=
  foldl (fun st order => st ≫= fun st => printKitchen fuel resolvePrinter st order)
        (Some (boot, [])) orders.

End Route.
Export Route.

(* ===================================================================== *)
(** * Image rasterizer: packing the canvas *)
(* ===================================================================== *)

Module Image.

(** [Jimp.intToRGBA(color).r] and [.a] of a 32-bit [0xRRGGBBAA] colour. *)
Definition rgba_r (color : Z) : Z := Z.land (Z.shiftr color 24) 0xFF.
Definition rgba_a (color : Z) : Z := Z.land color 0xFF.

(** [alpha > 128 && r < 128] *)
Definition isBlack (color : Z) : bool :=
  (128 <? rgba_a color) && (rgba_r color <? 128).

(** [data[byteIndex] |= (1 << bitIndex)] on a byte buffer. *)
Definition orByte (byteIndex bitIndex : Z) (data : list Z) : list Z :=
  alter (fun b => Z.lor b (Z.shiftl 1 bitIndex) mod 256)
        (Z.to_nat byteIndex) data.

(** The body of the inner loop, at pixel [(x, y)]. *)
Definition packPixel (getPixelColor : Z -> Z -> Z) (widthBytes y : Z)
    (data : list Z) (x : Z) : list Z :=
  let color := getPixelColor x y in
  if isBlack color then
    let byteIndex := y * widthBytes + x / 8 in
    let bitIndex := 7 - x mod 8 in
    orByte byteIndex bitIndex data
  else data.

(** [for (let x = 0; x < paddedWidth; x++)] *)
Definition packRow (getPixelColor : Z -> Z -> Z) (widthBytes paddedWidth : Z)
    (data : list Z) (y : Z) : list Z :=
  foldl (packPixel getPixelColor widthBytes y) data (seqZ 0 paddedWidth).

(** [options.paperWidth || 384] *)
Definition paperWidthOf (paperWidth : option Z) : Z :=
  match paperWidth with
  | None => 384
  | Some p => if p =? 0 then 384 else p
  end.

(** [Math.ceil(paperWidth / 8)] for an integer [paperWidth]. *)
Definition widthBytesOf (paperWidth : Z) : Z := (paperWidth + 7) / 8.

(** The packed bitmap [data] of [loadImageAsEscPos], for the composited
    canvas of height [itemHeight] read through [getPixelColor]. *)
Definition packBitmap (getPixelColor : Z -> Z -> Z) (paperWidth : option Z)
    (itemHeight : Z) : list Z :=
  let paperWidth := paperWidthOf paperWidth in
  let widthBytes := widthBytesOf paperWidth in
  let paddedWidth := widthBytes * 8 in
  let data := replicate (Z.to_nat (widthBytes * itemHeight)) 0 in
  foldl (packRow getPixelColor widthBytes paddedWidth) data (seqZ 0 itemHeight).

(** The raster header [1D 76 30 00 xL xH yL yH]; a [Buffer] keeps each
    entry modulo 256. *)
Definition rasterHeader (paperWidth : option Z) (itemHeight : Z) : list Z :=
  let widthBytes := widthBytesOf (paperWidthOf paperWidth) in
  let xL := widthBytes mod 256 in
  let xH := widthBytes / 256 in
  let yL := itemHeight mod 256 in
  let yH := itemHeight / 256 in
  List.map (fun b => b mod 256) [0x1d; 0x76; 0x30; 0x00; xL; xH; yL; yH].

(** What [loadImageAsEscPos] returns once the canvas is composited:
    [Buffer.concat([header, data])]. *)
Definition rasterBlock (getPixelColor : Z -> Z -> Z) (paperWidth : option Z)
    (itemHeight : Z) : list Z :=
  rasterHeader paperWidth itemHeight
    ++ packBitmap getPixelColor paperWidth itemHeight.

End Image.
Export Image.

(* ===================================================================== *)
(** * Printer records: [Printer.fromJson], [parsePort], [resolvePrinter] *)
(* ===================================================================== *)

Module Printers.

(** One of the code units [0] .. [9]. *)
Definition is_digit (c : N) : bool := N.leb 48 c && N.leb c 57.

(** The longest prefix of a string made of decimal digits. *)
Fixpoint digitsPrefix (s : jstring) : jstring :=
  match s with
  | [] => []
  | c :: s' => if is_digit c then c :: digitsPrefix s' else []
  end.

(** The integer written by a string of decimal digits. *)
Definition digitsValue (ds : jstring) : Z :=
  foldl (fun acc c => acc * 10 + (Z.of_N c - 48)) 0 ds.

(** The integer that [parseInt(s, 10)] reads: leading white space is
    skipped, then an optional sign, then the longest run of digits is read;
    [None] when there is no digit. *)
Definition mathInt10 (s : jstring) : option Z :=
  let inputString := trimStart s in
  let '(sign, rest) :=
    match inputString with
    | c :: rest =>
        if N.eqb c 45 then (-1, rest)
        else if N.eqb c 43 then (1, rest)
        else (1, inputString)
    | [] => (1, inputString)
    end in
  match digitsPrefix rest with
  | [] => None
  | ds => Some (sign * digitsValue ds)
  end.

(** [s.replace(/\./g, "")] *)
Definition removeDots (s : jstring) : jstring :=
  List.filter (fun c => negb (N.eqb c 46)) s.

(** A port as the API gives it: [number | string | null | undefined]. *)
Inductive PortVal : Type :=
  | PNull
  | PNumber (n : JsNum)
  | PString (s : jstring).

(** The Number value of an integer: the integer itself up to 2^53 in
    absolute value, beyond that the nearest double (53 bits are kept, a tie
    goes to the even mantissa), and an infinity from 2^1024 - 2^970 on.
    ([parseInt] may also round from the first 20 significant digits alone;
    this changes nothing up to 2^53 nor from 2^1024 on, and the statements
    below keep to these two ranges.) *)
Definition numberOfZ (n : Z) : JsNum :=
  let a := Z.abs n in
  if a <? 2 ^ 53 then NFinite (Qc_of_Z n)
  else
    let e := Z.log2 a - 52 in
    let q := a / 2 ^ e in
    let r := a mod 2 ^ e in
    let half := 2 ^ (e - 1) in
    let q' := if r <? half then q
              else if half <? r then q + 1
              else if Z.even q then q else q + 1 in
    let x := q' * 2 ^ e in
    if 2 ^ 1024 <=? x then (if n <? 0 then NNegInf else NPosInf)
    else NFinite (Qc_of_Z (Z.sgn n * x)).

(** [parseInt(s, 10)]: [NaN] when there is no digit. *)
Definition parseInt10 (s : jstring) : JsNum :=
  match mathInt10 s with
  | Some n => numberOfZ n
  | None => NNaN
  end.

(** [parsePort(v)] of the route handler. *)
Definition parsePort (v : PortVal) : JsNum :=
  match v with
  | PNull => NFinite 0%Qc
  | PNumber n => n
  | PString s =>
      let s := removeDots (trim s) in
      let n := parseInt10 s in
      if Number_isFinite n then n else NFinite 0%Qc
  end.

(** [n > 0] *)
Definition JsNum_gt0 (n : JsNum) : bool :=
  match n with
  | NFinite q => Qc_ltb 0 q
  | NPosInf => true
  | NNaN | NNegInf => false
  end.

(** A printer object of the API response, with the fields read by
    [Printer.fromJson]. *)
Record PrinterJson : Type := {
  json_id : option jstring;
  json_name : option jstring;
  json_ip : option jstring;
  json_port : PortVal;
  json_description : option jstring;
  json_status : option jstring
}.

(** An instance of the class [Printer]. *)
Record Printer : Type := {
  printer_id : option jstring;
  printer_name : jstring;
  printer_ip : jstring;
  printer_port : PortVal;
  printer_description : option jstring;
  printer_status : jstring
}.

(** [Printer.fromJson(data)] *)
Definition fromJson (data : PrinterJson) : Printer :=
  let name := match json_name data with
              | Some ((_ :: _) as n) => trim n
              | _ => []
              end in
  let ip := match json_ip data with
            | Some ((_ :: _) as i) => trim i
            | _ => []
            end in
  let portValue :=
    match json_port data with
    | PString p =>
        let cleaned := removeDots (trim p) in
        PNumber (parseInt10 cleaned)
    | p => p
    end in
  {| printer_id := json_id data;
     printer_name := name;
     printer_ip := ip;
     printer_port := portValue;
     printer_description := json_description data;
     printer_status := default (js "UNKNOWN") (json_status data) |}.

(** [defaultPrinter] of a cash register as the API embeds it. *)
Record EmbeddedPrinter : Type := {
  embedded_id : jstring;
  embedded_ip : option jstring;
  embedded_port : PortVal
}.

(** [resolvePrinter(printerId)] of the route handler, for the embedded
    printer of the cash register and the cached list of printers of the
    request. The [id] field of its result is not read by the handler and
    is left out of [PrinterTarget]. *)
Definition resolvePrinter (cashRegisterPrinterEmbedded : option EmbeddedPrinter)
    (printers : list Printer) (printerId : jstring) : option PrinterTarget :=
  let pid := trim printerId in
  match pid with
  | [] => None
  | _ =>
      let cached :=
        match List.find (fun x => bool_decide (trimStr (printer_id x) = pid))
                        printers with
        | None => None
        | Some p =>
            Some {| target_ip := trim (printer_ip p);
                    target_port := parsePort (printer_port p) |}
        end in
      match cashRegisterPrinterEmbedded with
      | Some e =>
          if bool_decide (trim (embedded_id e) = pid) then
            let ip := trimStr (embedded_ip e) in
            let port := parsePort (embedded_port e) in
            if negb (bool_decide (ip = [])) && JsNum_gt0 port
            then Some {| target_ip := ip; target_port := port |}
            else cached
          else cached
      | None => cached
      end
  end.

End Printers.
Export Printers.

(* ===================================================================== *)
(** * The cash receipt as sent: logo, text, footer and single tickets *)
(* ===================================================================== *)

Module CashParts.

(** The two directories under [process.cwd()] where images are looked up. *)
Inductive AssetDir : Type := AssetsDir | DefaultAssetsDir.

(** [ImageOptions] of [loadImageAsEscPos]. *)
Record ImageOptions : Type := {
  paperWidth : option Z;
  exactWidth : option Z;
  exactHeight : option Z;
  inlineText : option jstring
}.

(** The files of the installation. The file system does not change while a
    receipt is built. *)
Class Assets : Type := {
  (** [fs.existsSync(path.join(process.cwd(), dir, name))] *)
  existsSync : AssetDir -> jstring -> bool;
  (** [await loadImageAsEscPos(path.join(process.cwd(), dir, name), options)],
      the empty buffer when the image cannot be processed. *)
  loadImageAsEscPos : AssetDir -> jstring -> ImageOptions -> list Z
}.

(** [let p = path.join(cwd, 'assets', name);
     if (!fs.existsSync(p)) p = path.join(cwd, 'default-assets', name)] *)
Definition assetDir `{Assets} (name : jstring) : AssetDir :=
  if existsSync AssetsDir name then AssetsDir else DefaultAssetsDir.

Definition possibleLogos : list jstring :=
  [js "logo.png"; js "logo.jpg"; js "logo.jpeg"].

(** [for (const lo of possibleLogos) { ... break; }]: the loop stops at the
    first name for which a file exists. *)
Fixpoint logoParts `{Assets} (names : list jstring) (parts : list Segment)
  : list Segment :=
  match names with
  | [] => parts
  | lo :: names' =>
      let logoPath := assetDir lo in
      if existsSync logoPath lo then
        let logoBuf :=
          loadImageAsEscPos logoPath lo
            {| paperWidth := Some 576; exactWidth := Some 210;
               exactHeight := None; inlineText := None |} in
        if 0 <? Z.of_nat (length logoBuf) then parts ++ [Raw logoBuf] else parts
      else logoParts names' parts
  end.

(** [mysagraFooterBuf], [None] when no footer image exists. *)
Definition mysagraFooterBuf `{Assets} : option (list Z) :=
  let name := js "mysagralogo.png" in
  let mysagraPath := assetDir name in
  if existsSync mysagraPath name then
    Some (loadImageAsEscPos mysagraPath name
            {| paperWidth := Some 576; exactWidth := None;
               exactHeight := Some 24; inlineText := Some (js "mysagra.com") |})
  else None.

(** [if (buf && buf.length > 0) parts.push(buf)] *)
Definition pushFooter (buf : option (list Z)) (parts : list Segment)
  : list Segment :=
  match buf with
  | Some b => if 0 <? Z.of_nat (length b) then parts ++ [Raw b] else parts
  | None => parts
  end.

(** The text of a single ticket. *)
Definition ticketStr (order : IncomingOrder) (ticket : KitchenReceiptLine)
  : jstring :=
  let qty := quantity ticket in
  let name := toUpperCase (trim (foodName ticket)) in
  let ticketStr :=
    [NL; NL] ++ TXT_BIG ++ ofZ qty ++ js "x " ++ name ++ TXT_NORMAL ++ [NL] in
  let subTitle := [] in
  let subTitle :=
    match trimStr (displayCode order) with
    | [] => subTitle
    | c => subTitle ++ js "CODICE: " ++ c
    end in
  let subTitle :=
    match trimStr (customer order) with
    | [] => subTitle
    | c =>
        (match subTitle with [] => subTitle | _ => subTitle ++ js " - " end)
          ++ js "CLIENTE: " ++ c
    end in
  let ticketStr :=
    match subTitle with
    | [] => ticketStr
    | _ => ticketStr ++ cut subTitle RECEIPT_W ++ [NL]
    end in
  ticketStr ++ [NL].

(** One iteration of [for (const ticket of singleTickets)]. *)
Definition pushTicket (order : IncomingOrder) (footer : option (list Z))
    (parts : list Segment) (ticket : KitchenReceiptLine) : list Segment :=
  let parts := parts ++ [Raw FEED_AND_CUT] in
  let parts := parts ++ [Text (ticketStr order ticket)] in
  pushFooter footer parts.

(** [buildCashReceipt(order, lines, singleTickets)]: the array [parts]. *)
Definition buildCashReceipt `{Runtime} `{Assets} (fuel : nat)
    (order : IncomingOrder) (lines : list CashReceiptLine)
    (singleTickets : option (list KitchenReceiptLine))
  : option (list Segment) :=
  out ← buildCashReceipt_out fuel order lines;
  let parts := logoParts possibleLogos [] in
  let parts :=
    parts ++ [Text ([NL; NL; NL] ++ join [NL] out ++ [NL; NL])] in
  let parts := pushFooter mysagraFooterBuf parts in
  let parts := parts ++ [Text (trimEnd (Receipt.repeat [NL] 12))] in
  let parts :=
    match singleTickets with
    | Some ((_ :: _) as tickets) =>
        foldl (pushTicket order mysagraFooterBuf) parts tickets
    | _ => parts
    end in
  Some parts.

End CashParts.
Export CashParts.

(* ===================================================================== *)
(** * The [POST /print] handler *)
(* ===================================================================== *)

Module Handler.

(** The body of [GET /v1/cash-registers/{id}?include=printer]. *)
Record CashRegisterFromApi : Type := {
  defaultPrinterId : option jstring;
  defaultPrinter : option EmbeddedPrinter
}.

(** [req.body]: nothing, an object without an [orderItems] array, or an
    order; [cashRegisterId] is the field of the order that [IncomingOrder]
    above leaves out (an identifier, already a string). *)
Inductive Body : Type :=
  | NoBody
  | NoOrderItems
  | Order (order : IncomingOrder) (cashRegisterId : option jstring).

Record PrintRequest : Type := {
  body : Body;
  (** [req.printers], attached by the middleware of [index.ts]. *)
  printers : option (list Printer)
}.

(** What the handler answers. *)
Inductive Response : Type :=
  | Status400 (error : jstring)
  | Status500 (error : jstring)
  | Json (kitchenPrinters : list jstring) (cashPrinterId : jstring).

(** [cashLines], filled by the loop over [order.orderItems]. *)
Definition cashLines `{Runtime} (order : IncomingOrder) : list CashReceiptLine :=
  foldl (fun cashLines it =>
           let foodName :=
             match item_food_name it with
             | Some n => n
             | None => js "FOOD(" ++ item_id it ++ js ")"
             end in
           let qty := item_quantity it in
           let notes := item_notes it in
           let unitPrice :=
             match item_unitPrice it with
             | VNull => 0%Qc
             | v => toNumber v
             end in
           let surcharge :=
             match item_unitSurcharge it with
             | VNull => 0%Qc
             | v => toNumber v
             end in
           cashLines
             ++ [{| kitchenLine := {| foodName := foodName; quantity := qty;
                                      notes := notes |};
                    unitPrice := unitPrice; surcharge := Some surcharge |}])
        [] (orderItems order).

(** The cash register printer: [cashRegisterPrinterId] and
    [cashRegisterPrinterEmbedded]. [fetch crId] is the answer of the API,
    [None] when the request fails. *)
Definition cashRegisterPrinter
    (fetch : jstring -> option CashRegisterFromApi)
    (cashRegisterId : option jstring) : jstring * option EmbeddedPrinter :=
  match cashRegisterId with
  | Some id =>
      let crId := trim id in
      match fetch crId with
      | Some data =>
          (orElse (trimStr (defaultPrinterId data))
                  (trimStr (embedded_id <$> defaultPrinter data)),
           defaultPrinter data)
      | None => ([], None)
      end
  | None => ([], None)
  end.

(** The cash part of the handler, once the receipt is built. *)
Definition cashPrint `{Runtime} `{Network}
    (inspect : list Segment -> jstring)
    (resolvePrinter : jstring -> option PrinterTarget)
    (cashRegisterPrinterId : jstring) (receipt : list Segment)
    (srv : Server) : Server :=
  match cashRegisterPrinterId with
  | [] =>
      {| progressCounters := progressCounters srv;
         printQueue := printQueue srv; world := world srv;
         console := console srv
           ++ [js "NO cashRegister printerId found"; inspect receipt] |}
  | _ =>
      match resolvePrinter cashRegisterPrinterId with
      | Some pr =>
          let '(q, w) :=
            safePrint cashRegisterPrinterId (target_ip pr) (target_port pr)
              (Segments receipt) (printQueue srv, world srv) in
          {| progressCounters := progressCounters srv; printQueue := q;
             world := w; console := console srv |}
      | None =>
          {| progressCounters := progressCounters srv;
             printQueue := printQueue srv; world := world srv;
             console := console srv
               ++ [js "NO PRINTER for cash printerId= " ++ cashRegisterPrinterId;
                   inspect receipt] |}
      end
  end.

(** [router.post("/", ...)]. [token] is [global.__AUTH_TOKEN]; [inspect] is
    what [console.log] prints for an array of strings and buffers. The
    lines written by [console.log] in the handler itself are kept in
    [console]. *)
Definition postPrint `{Runtime} `{Network} `{Assets} (fuel : nat)
    (token : option jstring)
    (fetch : jstring -> option CashRegisterFromApi)
    (inspect : list Segment -> jstring)
    (req : PrintRequest) (st : Server * list KitchenPrint)
  : option (Response * (Server * list KitchenPrint)) :=
  match body req with
  | NoBody | NoOrderItems =>
      Some (Status400 (js "Invalid payload: missing orderItems[]"), st)
  | Order order cashRegisterId =>
      match token with
      | None | Some [] =>
          Some (Status500 (js "Missing auth token (login not completed)"), st)
      | Some _ =>
          let kitchen := kitchenByPrinterId order in
          let cashLines := cashLines order in
          let '(cashRegisterPrinterId, cashRegisterPrinterEmbedded) :=
            cashRegisterPrinter fetch cashRegisterId in
          let printers := default [] (printers req) in
          let resolve := resolvePrinter cashRegisterPrinterEmbedded printers in
          '(srv, history) ← printKitchen fuel (fun _ => resolve) st order;
          receipt ← buildCashReceipt fuel order cashLines None;
          let srv := cashPrint inspect resolve cashRegisterPrinterId receipt srv in
          Some (Json (kitchen.*1) cashRegisterPrinterId, (srv, history))
      end
  end.

End Handler.
Export Handler.

(* ===================================================================== *)
(** * The HTTP client with retries *)
(* ===================================================================== *)

Module Retry.

(** The answer of the server to the n-th request sent: a body, or an error
    with the status of the response when there was one; [hasConfig] is
    [error.config], missing when the request could not be set up. *)
Inductive Reply (A : Type) : Type :=
  | Replied (data : A)
  | Refused (hasConfig : bool) (status : option Z).
Arguments Replied {A} data.
Arguments Refused {A} hasConfig status.

(** Requests sent and time spent waiting, in milliseconds. *)
Record Line : Type := {
  sent : nat;
  waited : Z
}.

Definition MAX_RETRIES : Z := 6.

(** [axiosInstance(config)] of [utils/axiosInstance.ts], with the response
    interceptor that retries: [retryCount] is [config._retryCount], [None]
    when it is not set; the request that is sent again carries the
    counter. *)
Fixpoint request {A : Type} (server : nat -> Reply A) (fuel : nat)
    (retryCount : option Z) (l : Line) : option (Reply A * Line) :=
  let l' := {| sent := S (sent l); waited := waited l |} in
  match server (sent l) with
  | Replied data => Some (Replied data, l')
  | Refused hasConfig status =>
      let truthy := match retryCount with
                    | Some c => negb (c =? 0)
                    | None => false
                    end in
      if negb hasConfig
         || (truthy && (MAX_RETRIES <=? default 0 retryCount))
      then Some (Refused hasConfig status, l')
      else
        let retryCount := (if truthy then default 0 retryCount else 0) + 1 in
        if bool_decide (status = Some 401)
        then Some (Refused hasConfig status, l')
        else
          match fuel with
          | O => None
          | S fuel' =>
              request server fuel' (Some retryCount)
                {| sent := S (sent l); waited := waited l + 30000 |}
          end
  end.

End Retry.
Export Retry.

(* ===================================================================== *)
(** * The start of the service *)
(* ===================================================================== *)

Module Startup.

(** The body of a response, as far as the service reads it: an object with
    or without an [accessToken], a list of printers, nothing ([null] or the
    empty string), or something else. *)
Inductive ResponseData : Type :=
  | LoginData (accessToken : option jstring)
  | PrinterList (items : list PrinterJson)
  | NoData
  | OtherData.

(** The API of the back end: its answers to the attempts of a call. *)
Class Backend : Type := {
  (** [POST /auth/login] *)
  postLogin : nat -> Reply ResponseData;
  (** [GET /v1/printers] with a token *)
  getPrinters : jstring -> nat -> Reply ResponseData
}.

(** The module [axiosInstance] as the service imports it: a call with a
    URL, on a server that gives the answers [server], resolves with a body
    or is rejected. [None] is a model that has run out of fuel. *)
Definition Client : Type :=
  jstring -> (nat -> Reply ResponseData) -> option (Reply ResponseData).

(** The client of [utils/axiosInstance.ts], which retries. *)
Definition retrying (fuel : nat) : Client :=
  fun url server => fst <$> request server fuel None {| sent := 0; waited := 0 |}.

(** [t.startsWith(p)] *)
Fixpoint startsWith (t p : jstring) : bool :=
  match p, t with
  | [], _ => true
  | _ :: _, [] => false
  | c :: p', d :: t' => N.eqb c d && startsWith t' p'
  end.

(** [t.includes(p)] *)
Fixpoint includes (t p : jstring) : bool :=
  startsWith t p
  || match t with
     | [] => false
     | _ :: t' => includes t' p
     end.

Definition fallbackToken : jstring := js "token_di_fallback_temporaneo".

(** The response interceptor of the other version of
    [utils/axiosInstance.ts]: a 401 on a URL that contains [/auth/login] is
    turned into a successful login with a made-up token; every other error
    is passed on. Without [error.config] the message that is logged for a
    response throws, which rejects the call as well. *)
Definition intercept (url : jstring) (r : Reply ResponseData)
  : Reply ResponseData :=
  match r with
  | Replied data => Replied data
  | Refused hasConfig status =>
      match status with
      | Some code =>
          if hasConfig then
            if (code =? 401) && includes url (js "/auth/login")
            then Replied (LoginData (Some fallbackToken))
            else Refused hasConfig status
          else Refused hasConfig status
      | None => Refused hasConfig status
      end
  end.

(** The client with the fallback, which sends a request once. *)
Definition withFallback : Client :=
  fun url server => Some (intercept url (server 0%nat)).

(** [login()]: the body of the answer, [None] when the call is rejected. *)
Definition login `{Backend} (axiosInstance : Client)
    (EXTERNAL_BASE_URL : jstring) : option (option ResponseData) :=
  r ← axiosInstance (EXTERNAL_BASE_URL ++ js "/auth/login") postLogin;
  Some match r with
       | Replied data => Some data
       | Refused _ _ => None
       end.

(** [fetchPrinters(token)]: a body that is not a list makes [map] throw,
    which the function catches. *)
Definition fetchPrinters `{Backend} (axiosInstance : Client)
    (EXTERNAL_BASE_URL token : jstring) : option (list Printer) :=
  r ← axiosInstance (EXTERNAL_BASE_URL ++ js "/v1/printers") (getPrinters token);
  Some match r with
       | Replied (PrinterList items) => fromJson <$> items
       | _ => []
       end.

(** The module-level state of [index.ts] that the route reads:
    [global.__AUTH_TOKEN] and the cached [printers]. *)
Record App : Type := {
  AUTH_TOKEN : option jstring;
  cachedPrinters : list Printer
}.

(** [initialize()], run to its end. An answer to the login without
    [accessToken] leaves the token undefined, and [fetchPrinters] is then
    called with ["undefined"] in the header. The categories, which the
    route does not read, are left out. *)
Definition initialize `{Backend} (axiosInstance : Client)
    (EXTERNAL_BASE_URL : jstring) : option App :=
  authInfo ← login axiosInstance EXTERNAL_BASE_URL;
  match authInfo with
  | None | Some NoData => Some {| AUTH_TOKEN := None; cachedPrinters := [] |}
  | Some authInfo =>
      let token :=
        match authInfo with
        | LoginData accessToken => accessToken
        | _ => None
        end in
      printers ← fetchPrinters axiosInstance EXTERNAL_BASE_URL
                   (default (js "undefined") token);
      Some {| AUTH_TOKEN := token; cachedPrinters := printers |}
  end.

(** The middleware of [index.ts] and the route: a request served by the
    application. *)
Definition serveRequest `{Runtime} `{Network} `{Assets} (fuel : nat) (app : App)
    (fetch : jstring -> option CashRegisterFromApi)
    (inspect : list Segment -> jstring) (body : Body)
    (st : Server * list KitchenPrint)
  : option (Response * (Server * list KitchenPrint)) :=
  postPrint fuel (AUTH_TOKEN app) fetch inspect
    {| Handler.body := body; printers := Some (cachedPrinters app) |} st.

End Startup.
Export Startup.

(* ===================================================================== *)
(** * The timer of the delivery queue *)
(* ===================================================================== *)

Module Timer.

(** The timers of the process: the ones that are running, and the next
    identifier [setInterval] gives out. *)
Record Timers : Type := {
  running : list nat;
  next : nat
}.

(** [checkInterval] of [PrintQueueManager]. *)
Definition CheckInterval : Type := option nat.

(** [start()] *)
Definition start (st : CheckInterval * Timers) : CheckInterval * Timers :=
  let '(checkInterval, timers) := st in
  match checkInterval with
  | Some _ => st
  | None =>
      (Some (next timers),
       {| running := running timers ++ [next timers];
          next := S (next timers) |})
  end.

(** [stop()] *)
Definition stop (st : CheckInterval * Timers) : CheckInterval * Timers :=
  let '(checkInterval, timers) := st in
  match checkInterval with
  | Some t =>
      (None,
       {| running := filter (fun t' => t' <> t) (running timers);
          next := next timers |})
  | None => st
  end.

(** A call made on the manager. *)
Inductive Call : Type := CallStart | CallStop.

Definition call (st : CheckInterval * Timers) (c : Call)
  : CheckInterval * Timers :=
  match c with
  | CallStart => start st
  | CallStop => stop st
  end.

(** The manager once constructed ([constructor() { this.start() }]) in a
    process with the timers [timers], and the calls made on it
    afterwards. *)
Definition manager (timers : Timers) (calls : list Call)
  : CheckInterval * Timers :=
  foldl call (start (None, timers)) calls.

End Timer.
Export Timer.


(* ===================================================================== *)
(** * Vocabulary of the properties *)
(* ===================================================================== *)

(** ** Vocabulary for [wrapText] *)

(** The characters of a string that are not white space, in order. *)
Definition ink (s : jstring) : jstring :=
  List.filter (fun c => negb (is_ws c)) s.

(** The lines of a wrapped text without the indent that [wrapText] puts in
    front of every line but the first. *)
Definition bodies (indent : jstring) (lines : list jstring) : list jstring :=
  match lines with
  | [] => []
  | l0 :: rest => l0 :: List.map (drop (length indent)) rest
  end.

(** The lines pushed by a hard split that cuts a word into [chunks]: the
    first chunk goes after [cur], the next ones after [indent]. *)
Definition prefixed (cur indent : jstring) (chunks : list jstring)
  : list jstring :=
  match chunks with
  | [] => []
  | c :: cs => (cur ++ c) :: List.map (app indent) cs
  end.

(** What [wrapText] puts in front of a line that follows [lines]. *)
Definition prefixFor (indent : jstring) (lines : list jstring) : jstring :=
  match lines with [] => [] | _ => indent end.

(** Invariants of the word loop of [wrapText]. [Held st d]: the ink found
    so far in the lines and in the current line is [d], and the current line
    starts with the prefix of its position. [Fits st]: the lines are within
    [maxWidth], and so is the current line but for its final space. *)
Definition Held (indent : jstring) (st : list jstring * jstring)
    (d : jstring) : Prop :=
  exists b, st.2 = prefixFor indent st.1 ++ b
            /\ ink (mjoin (bodies indent st.1)) ++ ink b = d.

Definition Fits (maxWidth : Z) (st : list jstring * jstring) : Prop :=
  Forall (fun l => len l <= maxWidth) st.1
  /\ (st.2 = [] \/ exists y, st.2 = y ++ [SP] /\ len y <= maxWidth).


(** A network whose printers answer every status query with the byte [b]
    and accept every payload. *)
Definition steadyNetwork (b : Z) : Network := {|
  statusOutcome := fun _ => Data [b];
  sendOutcome := fun _ => true
|}.

(** ** Vocabulary for the transport and the queue *)

(** The bytes a segment contributes to the wire: a text segment is
    transcoded, a binary segment goes as it is. *)
Definition segmentBytes `{Runtime} (item : Segment) : list Z :=
  match item with
  | Text s => iconv_encode_cp858 s
  | Raw bytes => bytes
  end.

(** The segments of a job in their order. *)
Definition segmentsOf (data : PrintData) : list Segment :=
  match data with
  | Segments items => items
  | Single item => [item]
  end.

(** A finite number greater than 0. *)
Definition FinitePositive (n : JsNum) : Prop :=
  exists q, n = NFinite q /\ (0 < q)%Qc.

(** The order of JavaScript's [<] on strings: code unit by code unit. *)
Fixpoint jstring_ltb (a b : jstring) : bool :=
  match a, b with
  | _, [] => false
  | [], _ :: _ => true
  | x :: a', y :: b' => N.ltb x y || (N.eqb x y && jstring_ltb a' b')
  end.

(** A request to [add]: printer id, ip, port, payload. *)
Definition Enqueue : Type := (jstring * jstring * JsNum * PrintData)%type.

Definition addRequest `{Runtime} (r : Enqueue)
    (st : PrintQueueManager * World) : PrintQueueManager * World :=
  let '(printerId, ip, port, data) := r in add printerId ip port data st.

(** The state after a sequence of calls of [add]. *)
Definition addAll `{Runtime} (reqs : list Enqueue)
    (st : PrintQueueManager * World) : PrintQueueManager * World :=
  foldl (fun st r => addRequest r st) st reqs.

(** A call made on the queue manager: [add] with its arguments, or a sweep
    started by the timer. *)
Inductive QueueCall : Type :=
  | Enq (r : Enqueue)
  | Sweep.

(** The id that [add] gives a job at the n-th draw:
    [Math.random().toString(36).substring(7)]. *)
Definition tokenOf `{Runtime} (n : nat) : jstring :=
  substringFrom (Math_random_36 n) 7.

(** The number of calls of [add] in a sequence of calls. *)
Fixpoint enqueues (calls : list QueueCall) : nat :=
  match calls with
  | [] => 0
  | Enq _ :: calls' => S (enqueues calls')
  | Sweep :: calls' => enqueues calls'
  end.

(** The ids of the jobs added by a sequence of calls, in the order of the
    calls of [add]: each is read off the job that the call has put at the
    end of the queue. *)
Fixpoint idsAssigned `{Runtime} `{Network} (calls : list QueueCall)
    (st : PrintQueueManager * World) : list jstring :=
  match calls with
  | [] => []
  | Enq r :: calls' =>
      let st' := addRequest r st in
      default [] (job_id <$> last (queue st'.1)) :: idsAssigned calls' st'
  | Sweep :: calls' => idsAssigned calls' (processQueue st)
  end.

(** ** A sweep while other tasks call [add] *)

(** [processQueue] is suspended at every [await]; the handler of a request
    that runs meanwhile may call [add], which pushes onto the array that
    [this.queue] holds at that moment. *)

(** The state of a sweep under way: the manager as other tasks see it,
    the local [remainingJobs], the number of [await]s passed, and the
    world. *)
Record Sweeping : Type := {
  sw_manager : PrintQueueManager;
  sw_remaining : list PrintJob;
  sw_awaits : nat;
  sw_world : World
}.

(** The sweep is suspended at an [await] whose operation leaves the world
    [w]: the calls of [add] made meanwhile are [arrivals n] at the n-th
    [await]. *)
Definition suspended `{Runtime} (arrivals : nat -> list Enqueue) (w : World)
    (s : Sweeping) : Sweeping :=
  let '(m, w') := addAll (arrivals (sw_awaits s)) (sw_manager s, w) in
  {| sw_manager := m; sw_remaining := sw_remaining s;
     sw_awaits := S (sw_awaits s); sw_world := w' |}.

(** [remainingJobs.push(...jobs)] *)
Definition keep (jobs : list PrintJob) (s : Sweeping) : Sweeping :=
  {| sw_manager := sw_manager s; sw_remaining := sw_remaining s ++ jobs;
     sw_awaits := sw_awaits s; sw_world := sw_world s |}.

(** [for (const job of jobs) { try { await sendToPrinter(...) } catch ... }] *)
Definition sendJobsDuring `{Runtime} `{Network}
    (arrivals : nat -> list Enqueue) (jobs : list PrintJob) (s : Sweeping)
  : Sweeping :=
  foldl (fun s job =>
           match sendToPrinter (ip job) (port job) (data job) (sw_world s) with
           | (Resolved _, w') => suspended arrivals w' s
           | (Rejected _, w') => keep [job] (suspended arrivals w' s)
           end)
        s jobs.

(** The body of [for (const [printerId, jobs] of jobsByPrinter)]. *)
Definition processGroupDuring `{Runtime} `{Network}
    (arrivals : nat -> list Enqueue) (s : Sweeping)
    (group : jstring * list PrintJob) : Sweeping :=
  let jobs := group.2 in
  match jobs with
  | [] => s
  | job0 :: _ =>
      match getPrinterStatus (ip job0) (port job0) (sw_world s) with
      | (Resolved status, w') =>
          match status with
          | OK | CARTA_QUASI_FINITA =>
              sendJobsDuring arrivals jobs (suspended arrivals w' s)
          | CARTA_FINITA => keep jobs (suspended arrivals w' s)
          end
      | (Rejected _, w') => keep jobs (suspended arrivals w' s)
      end
  end.

(** [processQueue()], one sweep, with the calls of [add] made while it is
    suspended. The groups are built from [this.queue] before the first
    [await]; the sweep ends with [this.queue = remainingJobs]. *)
Definition processQueueDuring `{Runtime} `{Network}
    (arrivals : nat -> list Enqueue) (st : PrintQueueManager * World)
  : PrintQueueManager * World :=
  let '(m, w) := st in
  if isProcessing m then st
  else if bool_decide (length (queue m) = 0%nat) then st
  else
    let s :=
      foldl (processGroupDuring arrivals)
            {| sw_manager := {| queue := queue m; isProcessing := true |};
               sw_remaining := []; sw_awaits := 0; sw_world := w |}
            (groupJobs (queue m)) in
    ({| queue := sw_remaining s; isProcessing := false |}, sw_world s).

(** The same world with another number of identifiers drawn. *)
Definition withDraws (d : nat) (w : World) : World :=
  {| conns := conns w; draws := d; log := log w |}.

(** A sweep under way follows the sweep in which nothing is added: the
    same [remainingJobs], and the same world but for the identifiers
    drawn by [add]. *)
Definition Follows (s : Sweeping) (st : list PrintJob * World) : Prop :=
  sw_remaining s = st.1 /\ exists d, sw_world s = withDraws d st.2.

(** One call of [add], for a second printer, during the first [await] of a
    sweep. *)
Definition lateArrival : nat -> list Enqueue :=
  fun n =>
    match n with
    | O => [(js "P2", js "10.0.0.8", NFinite (Qc_of_Z 9100),
             Single (Text (js "late")))]
    | _ => []
    end.

(** A platform for examples: numbers are not parsed, ASCII is encoded as
    it is, the euro sign as [0xD5] and anything else as [?], and
    [Math.random] draws [0.zzzzzzzzzz] first and [0.aaaaaaaaaa] from then
    on. *)
Definition sampleRuntime : Runtime := {|
  Number_of_string := fun _ => None;
  Date_of_string := fun _ => None;
  iconv_encode_cp858 := fun s =>
    List.map (fun c => if N.ltb c 128 then Z.of_N c
                       else if N.eqb c EURO then 0xD5 else 0x3F) s;
  Math_random_36 := fun n =>
    match n with O => js "0.zzzzzzzzzz" | _ => js "0.aaaaaaaaaa" end;
  Date_now := fun n => Z.of_nat n
|}.

Definition emptyQueue : PrintQueueManager :=
  {| queue := []; isProcessing := false |}.

Definition freshWorld : World := {| conns := 0; draws := 0; log := [] |}.

(** ** Vocabulary for the sweep *)

(** The printer ids of a queue, each once, in the order in which they first
    appear. *)
Fixpoint firstOccurrences (l : list jstring) : list jstring :=
  match l with
  | [] => []
  | x :: l' => x :: filter (fun y => y <> x) (firstOccurrences l')
  end.

(** The jobs of a queue for one printer, in queue order. *)
Definition jobsOf (pid : jstring) (q : list PrintJob) : list PrintJob :=
  filter (fun job => printerId job = pid) q.

(** The groups of a sweep: one per printer id. *)
Definition groupsOf (q : list PrintJob) : list (list PrintJob) :=
  (fun pid => jobsOf pid q) <$> firstOccurrences (printerId <$> q).

Definition isQuery (e : Event) : bool :=
  match e with Query _ _ _ => true | Write _ _ _ => false end.

(** The number of status queries in a stretch of the log. *)
Definition queries (events : list Event) : nat :=
  length (List.filter isQuery events).

Section SweepSpec.

Context `{Runtime} `{Network}.

(** [Attempted w jobs kept w']: starting in world [w], every job of [jobs]
    is attempted via [sendToPrinter], in order; [kept] are the jobs whose
    send failed, as they were; [w'] is the world afterwards. *)
Inductive Attempted : World -> list PrintJob -> list PrintJob -> World -> Prop :=
  | attempted_nil w : Attempted w [] [] w
  | attempted_sent w w1 w2 job jobs kept :
      sendToPrinter (ip job) (port job) (data job) w = (Resolved (), w1) ->
      Attempted w1 jobs kept w2 ->
      Attempted w (job :: jobs) kept w2
  | attempted_failed w w1 w2 e job jobs kept :
      sendToPrinter (ip job) (port job) (data job) w = (Rejected e, w1) ->
      Attempted w1 jobs kept w2 ->
      Attempted w (job :: jobs) (job :: kept) w2.

(** [GroupSwept w jobs kept w']: the status of the printer of the group is
    queried once, at the address of its first job; on [OK] or
    [CARTA_QUASI_FINITA] every job is attempted; on [CARTA_FINITA] or when
    the query fails every job is kept. *)
Inductive GroupSwept : World -> list PrintJob -> list PrintJob -> World -> Prop :=
  | group_ready w w1 w2 status job0 jobs kept :
      getPrinterStatus (ip job0) (port job0) w = (Resolved status, w1) ->
      status = OK \/ status = CARTA_QUASI_FINITA ->
      Attempted w1 (job0 :: jobs) kept w2 ->
      GroupSwept w (job0 :: jobs) kept w2
  | group_paper_out w w1 job0 jobs :
      getPrinterStatus (ip job0) (port job0) w = (Resolved CARTA_FINITA, w1) ->
      GroupSwept w (job0 :: jobs) (job0 :: jobs) w1
  | group_check_failed w w1 e job0 jobs :
      getPrinterStatus (ip job0) (port job0) w = (Rejected e, w1) ->
      GroupSwept w (job0 :: jobs) (job0 :: jobs) w1.

(** [Swept w groups kept w']: the groups are swept one after the other. *)
Inductive Swept : World -> list (list PrintJob) -> list PrintJob -> World -> Prop :=
  | swept_nil w : Swept w [] [] w
  | swept_cons w w1 w2 jobs groups kept kept' :
      GroupSwept w jobs kept w1 ->
      Swept w1 groups kept' w2 ->
      Swept w (jobs :: groups) (kept ++ kept') w2.

End SweepSpec.

(** A network for the paper-out scenario: the first status query is
    answered [0x60] (paper out), the later ones [0x00]; every payload is
    accepted. *)
Definition paperRefilled : Network := {|
  statusOutcome := fun n => match n with O => Data [0x60] | _ => Data [0x00] end;
  sendOutcome := fun _ => true
|}.

Definition sampleJob : PrintJob := {|
  job_id := js "k3x9a";
  printerId := js "P1";
  ip := js "10.0.0.7";
  port := NFinite (Qc_of_Z 9100);
  data := Single (Text (js "receipt"));
  timestamp := 0;
  attempts := 0
|}.

(** ** Vocabulary for the progress counters *)

(** The kitchen receipts of a history that went to one printer. *)
Definition printsFor (pid : jstring) (history : list KitchenPrint)
  : list KitchenPrint :=
  filter (fun p => kp_printerId p = pid) history.

(** The counter of a printer as the handler reads it:
    [progressCounters[printerId] ?? 1]. *)
Definition counterOf (srv : Server) (pid : jstring) : Counter :=
  default (Count 1) (readProperty (progressCounters srv) pid).

(** A printer id under which an object literal inherits nothing. *)
Definition ordinaryId (pid : jstring) : Prop := objectPrototype pid = None.

(** The [PROGR:] line of a kitchen receipt, the sixth of its lines. *)
Definition progrLineOf (progress : jstring) : jstring :=
  TXT_BIG ++ cut (js "PROGR: " ++ progress) RECEIPT_W ++ TXT_NORMAL.

Definition progrLine (progress : Z) : jstring := progrLineOf (ofZ progress).

(** The orders served, the state started from being given. *)
Definition serveFrom `{Runtime} `{Network} (fuel : nat)
    (resolvePrinter : IncomingOrder -> jstring -> option PrinterTarget)
    (st : option (Server * list KitchenPrint)) (orders : list IncomingOrder)
  : option (Server * list KitchenPrint) :=
  foldl (fun st order => st ≫= fun st => printKitchen fuel resolvePrinter st order)
        st orders.

(** The counters and the history agree: the receipts of a printer with an
    ordinary id carry 1, 2, ..., n and its counter stands at n + 1. *)
Definition Counted (st : Server * list KitchenPrint) : Prop :=
  forall pid,
    ordinaryId pid ->
    kp_progress <$> printsFor pid st.2
    = Count <$> seqZ 1 (Z.of_nat (length (printsFor pid st.2)))
    /\ counterOf st.1 pid = Count (Z.of_nat (length (printsFor pid st.2)) + 1).

(** Every receipt of the history shows its progress value. *)
Definition Rendered `{Runtime} (fuel : nat) (history : list KitchenPrint)
  : Prop :=
  Forall (fun p =>
            exists order lines out,
              buildKitchenReceiptOf_out fuel order lines
                (counterText (kp_progress p)) = Some out
              /\ kp_receipt p = join [NL] out
              /\ out !! 5%nat
                 = Some (progrLineOf (counterText (kp_progress p))))
         history.

(** The invariants carried through the loops of the handler. *)
Definition Sound `{Runtime} (fuel : nat) (st : Server * list KitchenPrint)
  : Prop :=
  Counted st /\ Rendered fuel st.2.

(** An order of one pizza for the kitchen printer [pid]. *)
Definition orderFor (pid : jstring) : IncomingOrder := {|
  order_id := js "o-19";
  displayCode := None;
  table := Some (js "7");
  customer := None;
  confirmedAt := None;
  ticketNumber := None;
  paymentMethod := None;
  discount := VNull;
  orderItems :=
    [{| item_id := js "i1"; item_quantity := 1; item_notes := None;
        item_food_name := Some (js "Pizza");
        item_food_printerId := Some pid;
        item_unitPrice := VNum (Qc_of_Z 8); item_unitSurcharge := VNull |}]
|}.

(** ** Vocabulary for the cash receipt *)

(** The base amount and the surcharge of a row. *)
Definition rowBaseOf (l : CashReceiptLine) : Qc :=
  (unitPrice l * Qc_of_Z (quantity l))%Qc.

Definition rowExtraOf (l : CashReceiptLine) : Qc :=
  (default 0%Qc (surcharge l) * Qc_of_Z (quantity l))%Qc.

(** The sum over the lines of [unitPrice * quantity]. *)
Definition sumBase (lines : list CashReceiptLine) : Qc :=
  foldr (fun l acc => (rowBaseOf l + acc)%Qc) 0%Qc lines.

(** The sum over the lines of [surcharge * quantity]. *)
Definition sumExtra (lines : list CashReceiptLine) : Qc :=
  foldr (fun l acc => (rowExtraOf l + acc)%Qc) 0%Qc lines.

(** The quantity prefix of a row, [2x ]. *)
Definition namePrefixOf (l : KitchenReceiptLine) : jstring :=
  ofZ (quantity l) ++ js "x ".

(** A row has room when its quantity prefix fits beside its price column,
    and leaves room for [NOTE: ] on a line of the receipt. *)
Definition hasRoom (l : CashReceiptLine) : Prop :=
  len (namePrefixOf l)
  <= RECEIPT_W - len (eurCol (rowBaseOf l + rowExtraOf l)%Qc) - 1
  /\ len (namePrefixOf l) + 6 <= RECEIPT_W.

(** A whole number of euros, not negative. *)
Definition whole (x : Qc) : Prop := x = Qc_of_Z (Qfloor x) /\ 0 <= Qfloor x.

(** A row in whole euros: the unit price and the surcharge are whole
    numbers of euros, and the quantity is not negative and below 10^9. *)
Definition wholeRow (l : CashReceiptLine) : Prop :=
  whole (unitPrice l) /\ whole (default 0%Qc (surcharge l))
  /\ 0 <= quantity l < 10 ^ 9.

(** The euros of a row and of a list of rows. *)
Definition rowEuros (l : CashReceiptLine) : Z :=
  (Qfloor (unitPrice l) + Qfloor (default 0%Qc (surcharge l))) * quantity l.

Definition sumEuros (lines : list CashReceiptLine) : Z :=
  foldr (fun l acc => rowEuros l + acc) 0 lines.

(** Fuel that is enough to wrap the name and the note of a row. *)
Definition itemFuel (l : CashReceiptLine) : nat :=
  length (namePrefixOf l ++ orElse (trim (foodName l)) (js "FOOD NAME NOT FOUND"))
  `max` length (JS.repeat [SP] (len (namePrefixOf l)) ++ js "NOTE: "
                  ++ trimStr (notes l)).

Definition sampleOrder : IncomingOrder := {|
  order_id := js "o-17";
  displayCode := Some (js "A12");
  table := Some (js "7");
  customer := Some (js "Anna");
  confirmedAt := None;
  ticketNumber := Some 17;
  paymentMethod := Some (js "cash");
  discount := VNum (Qc_of_Z 30);
  orderItems :=
    [{| item_id := js "i1"; item_quantity := 2; item_notes := None;
        item_food_name := Some (js "Pizza Margherita");
        item_food_printerId := Some (js "P1");
        item_unitPrice := VNum (Qc_of_Z 12); item_unitSurcharge := VNull |};
     {| item_id := js "i2"; item_quantity := 1;
        item_notes := Some (js "senza ghiaccio");
        item_food_name := Some (js "Acqua");
        item_food_printerId := Some (js " P1 ");
        item_unitPrice := VNum (Qc_of_Z 2); item_unitSurcharge := VNull |}]
|}.

Definition sampleLines : list CashReceiptLine :=
  [{| kitchenLine := {| foodName := js "Pizza Margherita"; quantity := 2;
                        notes := None |};
      unitPrice := Qc_of_Z 12; surcharge := Some (Q2Qc (1 # 2)) |};
   {| kitchenLine := {| foodName := js "Acqua"; quantity := 1;
                        notes := Some (js "senza ghiaccio") |};
      unitPrice := Qc_of_Z 2; surcharge := None |}].

(** A row of 10^20 items at 1 euro: its price column, [100000000000000000000,00€],
    leaves 22 columns to the name, and its quantity prefix has 23. *)
Definition wholeLines : list CashReceiptLine :=
  [{| kitchenLine := {| foodName := js "Pizza Margherita"; quantity := 3;
                        notes := None |};
      unitPrice := Qc_of_Z 12; surcharge := Some (Qc_of_Z 1) |};
   {| kitchenLine := {| foodName := js "Acqua"; quantity := 1;
                        notes := Some (js "senza ghiaccio") |};
      unitPrice := Qc_of_Z 2; surcharge := None |}].

Definition hugeQuantityLine : CashReceiptLine :=
  {| kitchenLine := {| foodName := js "PIZZA"; quantity := 10 ^ 20;
                       notes := None |};
     unitPrice := Qc_of_Z 1; surcharge := None |}.

Definition queueOfOne : PrintQueueManager :=
  {| queue := [sampleJob]; isProcessing := false |}.

(** ** Vocabulary for the raster *)

Section PackSpec.

Variable getPixelColor : Z -> Z -> Z.
Variables widthBytes itemHeight : Z.

(** Pixel [(x, y)] is on the canvas. *)
Definition onCanvas (x y : Z) : Prop :=
  0 <= x < widthBytes * 8 /\ 0 <= y < itemHeight.

(** The index of the byte of pixel [(x, y)]: row-major, 8 pixels a byte. *)
Definition byteOf (x y : Z) : nat := Z.to_nat (y * widthBytes + x / 8).

(** The invariant of the two loops. [seen x y] says that the loops have
    been through pixel [(x, y)]. A bit is set only for a black pixel, and
    it is set for every black pixel seen. *)
Definition Packed (seen : Z -> Z -> Prop) (data : list Z) : Prop :=
  length data = Z.to_nat (widthBytes * itemHeight)
  /\ forall x y, onCanvas x y ->
       exists b, data !! byteOf x y = Some b
                 /\ 0 <= b < 256
                 /\ (Z.testbit b (7 - x mod 8) = true ->
                     isBlack (getPixelColor x y) = true)
                 /\ (seen x y -> isBlack (getPixelColor x y) = true ->
                     Z.testbit b (7 - x mod 8) = true).

End PackSpec.

(** A canvas whose first column is black and opaque, the rest white. *)
Definition firstColumnBlack (x y : Z) : Z :=
  if x =? 0 then 0x000000FF else 0xFFFFFFFF.

(* ===================================================================== *)
(** * Vocabulary of the further properties *)
(* ===================================================================== *)

(** ** Lines made of whole words *)

(** The line that holds the words [g] after the prefix [p]: the words with
    one space between them, the white space at the end removed. *)
Definition lineOf (p : jstring) (g : list jstring) : jstring :=
  trimEnd (p ++ join [SP] g).

(** The lines that hold the groups of words [groups]: the first line
    without indent, the next ones after [indent]. *)
Definition linesOf (indent : jstring) (groups : list (list jstring))
  : list jstring :=
  match groups with
  | [] => []
  | g :: gs => lineOf [] g :: List.map (lineOf indent) gs
  end.

(** The prefix of the line that follows the groups [groups]. *)
Definition prefixAfter (indent : jstring) (groups : list (list jstring))
  : jstring :=
  match groups with [] => [] | _ => indent end.

(** The last line, which [wrapText] leaves out when it is blank. *)
Definition lastLineOf (p : jstring) (g : list jstring) : list jstring :=
  if 0 <? len (trim (p ++ join [SP] g)) then [lineOf p g] else [].

(** The current line while the words [g] are being put on it: a space after
    each word. *)
Definition pending (g : list jstring) : jstring :=
  mjoin ((fun w => w ++ [SP]) <$> g).

(** The invariant of the word loop when no word has to be split: the lines
    hold the groups [gs], the current line holds the words [g]. *)
Definition Grouped (indent : jstring) (st : list jstring * jstring)
    (gs : list (list jstring)) (g : list jstring) : Prop :=
  st.1 = linesOf indent gs
  /\ st.2 = prefixAfter indent gs ++ pending g
  /\ Forall (fun g => g <> []) gs
  /\ (g = [] -> gs = []).

(** The code units of the digits of a decimal number. *)
Abbreviation digitsOf u := (js (NilEmpty.string_of_uint u)).

(** ** Widths of the receipts *)

(** A line is within [w] columns; the size commands around a big line are
    not counted. *)
Definition Within (w : Z) (l : jstring) : Prop :=
  len l <= w \/ exists x, l = TXT_BIG ++ x ++ TXT_NORMAL /\ len x <= w.

(** Fuel that is enough to wrap the name and the note of a kitchen row. *)
Definition kitchenFuel (l : KitchenReceiptLine) : nat :=
  length (namePrefixOf l ++ orElse (trim (foodName l)) (js "FOOD"))
  `max` length (JS.repeat [SP] (len (namePrefixOf l)) ++ js "NOTE: "
                  ++ trimStr (notes l)).

(** ** Items and kitchen printers *)

(** The line of a kitchen receipt made from an order item. *)
Definition kitchenLineOf (it : OrderItemIn) : KitchenReceiptLine :=
  {| foodName := match item_food_name it with
                 | Some n => n
                 | None => js "FOOD(" ++ item_id it ++ js ")"
                 end;
     quantity := item_quantity it;
     notes := item_notes it |}.

(** The kitchen printer of an order item, [trimStr(it.food?.printerId)]:
    empty when the item has none. *)
Definition kitchenPrinterOf (it : OrderItemIn) : jstring :=
  trimStr (item_food_printerId it).

(** The kitchen printers of the items, each once, in the order of their
    first item. *)
Definition kitchenPrintersOf (items : list OrderItemIn) : list jstring :=
  firstOccurrences (filter (fun k => k <> []) (kitchenPrinterOf <$> items)).

(** The items of one kitchen printer, in their order. *)
Definition itemsFor (k : jstring) (items : list OrderItemIn)
  : list OrderItemIn :=
  filter (fun it => kitchenPrinterOf it = k) items.

(** ** Deliveries *)

(** What a delivered job puts on the wire. *)
Definition writeOf `{Runtime} (job : PrintJob) : Event :=
  Write (trim (ip job)) (port job) (encodePayload (data job)).

(** The payloads in a stretch of the log, status queries left out. *)
Definition writes (events : list Event) : list Event :=
  List.filter (fun e => negb (isQuery e)) events.

(** A status that lets the jobs through. *)
Definition ready (status : PrinterStatus) : bool :=
  match status with
  | OK | CARTA_QUASI_FINITA => true
  | CARTA_FINITA => false
  end.

(** The answer to a status query lets the jobs through. *)
Definition readyOutcome (o : StatusOutcome) : bool :=
  match o with
  | Data chunk => ready (statusOfByte (default 0 (head chunk)))
  | NoReply | SocketError => false
  end.

(** The status query sent to a printer. *)
Definition queryOf (ip : jstring) (port : JsNum) : Event :=
  Query ip port [0x10; 0x04; 0x04].

(** ** The pieces of a cash receipt *)

(** What a single ticket adds after its feed-and-cut: its text, and the
    footer image when there is one. *)
Definition ticketPiece `{Assets} (order : IncomingOrder)
    (ticket : KitchenReceiptLine) : list Segment :=
  pushFooter mysagraFooterBuf [Text (ticketStr order ticket)].

(** The bytes of a list of segments. *)
Definition bytesOf `{Runtime} (parts : list Segment) : list Z :=
  mjoin (List.map segmentBytes parts).

(** An installation without images. *)
Definition noAssets : Assets := {|
  existsSync := fun _ _ => false;
  loadImageAsEscPos := fun _ _ _ => []
|}.

Definition sampleTicket : KitchenReceiptLine :=
  {| foodName := js "Pizza Margherita"; quantity := 2; notes := None |}.

(** ** Orders *)

(** The line of the cash receipt made from an order item. *)
Definition cashLineOf `{Runtime} (it : OrderItemIn) : CashReceiptLine :=
  {| kitchenLine := kitchenLineOf it;
     unitPrice := match item_unitPrice it with
                  | VNull => 0%Qc
                  | v => toNumber v
                  end;
     surcharge := Some (match item_unitSurcharge it with
                        | VNull => 0%Qc
                        | v => toNumber v
                        end) |}.


(** An amount of at most [B] in absolute value. *)
Definition within (B : Z) (x : Qc) : Prop :=
  (- Qc_of_Z B <= x <= Qc_of_Z B)%Qc.

(** A row of moderate size: fewer than 10^9 items, and a base amount and a
    surcharge of at most 10^15 each in absolute value. The doubles of the
    source keep within these bounds when the exact amounts do, since 10^15
    is a double and rounding is monotone. *)
Definition moderate (l : CashReceiptLine) : Prop :=
  Z.abs (quantity l) < 10 ^ 9
  /\ within (10 ^ 15) (rowBaseOf l)
  /\ within (10 ^ 15) (rowExtraOf l).


(** Fuel that is enough for the receipts of an order. *)
Definition orderFuel `{Runtime} (order : IncomingOrder) : nat :=
  foldr Nat.max 0%nat
    ((fun it => Nat.max (kitchenFuel (kitchenLineOf it))
                        (itemFuel (cashLineOf it)))
       <$> orderItems order).


(** A request that carries an order, with no cached printers. *)
Definition requestOf (order : IncomingOrder) : PrintRequest :=
  {| body := Order order None; printers := None |}.

(** ** The start of the service *)

(** [config._retryCount] after [c] retries: not set before the first. *)
Definition retryCountAfter (c : Z) : option Z :=
  if c =? 0 then None else Some c.

(** The application in which [initialize] has set nothing. *)
Definition notStarted : App := {| AUTH_TOKEN := None; cachedPrinters := [] |}.

(** A back end that refuses the credentials. *)
Definition refusingBackend : Backend := {|
  postLogin := fun _ => Refused true (Some 401);
  getPrinters := fun _ _ => Refused true (Some 401)
|}.

(** A back end that comes up while the service starts: the third attempt
    of the login is answered, and the list of printers is empty. *)
Definition slowBackend : Backend := {|
  postLogin := fun n => match n with
                        | 2%nat => Replied (LoginData (Some (js "jwt")))
                        | _ => Refused true (Some 503)
                        end;
  getPrinters := fun _ _ => Replied (PrinterList [])
|}.

(** A process with two timers of its own. *)
Definition busyProcess : Timers := {| running := [0; 1]%nat; next := 2 |}.

(* ===================================================================== *)
(** * Properties of the string primitives *)
(* ===================================================================== *)

Section StringFacts.

Implicit Types (s t : jstring) (c : N).

Lemma len_app s t : len (s ++ t) = len s + len t.
Proof. unfold len. rewrite length_app. lia. Qed.

Lemma len_nonneg s : 0 <= len s.
Proof. unfold len. lia. Qed.

Lemma len_nil : len [] = 0.
Proof. reflexivity. Qed.

Lemma len_cons c s : len (c :: s) = 1 + len s.
Proof. unfold len. simpl length. lia. Qed.

(** [trimEnd] cuts a suffix made of white space. *)
Lemma trimEnd_suffix s :
  exists t, s = trimEnd s ++ t /\ Forall (fun c => is_ws c = true) t.
Proof.
  induction s as [|c s [t [Hs Ht]]]; simpl.
  - exists []. split; [reflexivity | constructor].
  - destruct (trimEnd s) as [|d u] eqn:E.
    + destruct (is_ws c) eqn:Hc.
      * exists (c :: t). simpl in *. split; [congruence | by constructor].
      * exists t. simpl in *. split; [congruence | done].
    + exists t. simpl in *. split; [congruence | done].
Qed.

Lemma trimEnd_length s : (length (trimEnd s) <= length s)%nat.
Proof.
  destruct (trimEnd_suffix s) as [t [Hs _]].
  rewrite Hs at 2. rewrite length_app. lia.
Qed.

Lemma trimEnd_all_ws t : Forall (fun c => is_ws c = true) t -> trimEnd t = [].
Proof.
  induction 1 as [|c t Hc _ IH]; simpl; [done|]. by rewrite IH, Hc.
Qed.

Lemma trimEnd_app_ws s t :
  Forall (fun c => is_ws c = true) t -> trimEnd (s ++ t) = trimEnd s.
Proof.
  intros Ht. induction s as [|c s IH]; simpl.
  - by apply trimEnd_all_ws.
  - by rewrite IH.
Qed.

Lemma trimEnd_snoc_SP s : trimEnd (s ++ [SP]) = trimEnd s.
Proof. apply trimEnd_app_ws. by repeat constructor. Qed.

Lemma ink_app s t : ink (s ++ t) = ink s ++ ink t.
Proof. apply List.filter_app. Qed.

Lemma ink_all_ws t : Forall (fun c => is_ws c = true) t -> ink t = [].
Proof.
  induction 1 as [|c t Hc _ IH]; simpl; [done|]. by rewrite Hc.
Qed.

Lemma ink_drop_all_ws n t :
  Forall (fun c => is_ws c = true) t -> ink (drop n t) = [].
Proof.
  intros Ht. apply ink_all_ws. revert n.
  induction Ht as [|c t Hc Ht IH]; intros [|n]; simpl; auto.
Qed.

(** Dropping a prefix before or after [trimEnd] leaves the same ink. *)
Lemma ink_drop_trimEnd n s : ink (drop n (trimEnd s)) = ink (drop n s).
Proof.
  destruct (trimEnd_suffix s) as [t [Hs Ht]].
  rewrite Hs at 2. rewrite drop_app, ink_app.
  by rewrite (ink_drop_all_ws _ t Ht), app_nil_r.
Qed.

Lemma ink_trimEnd s : ink (trimEnd s) = ink s.
Proof. apply (ink_drop_trimEnd 0). Qed.

Lemma ink_SP : ink [SP] = [].
Proof. reflexivity. Qed.

(** Splitting at spaces loses no ink. *)
Lemma ink_split s : ink (mjoin (split SP s)) = ink s.
Proof.
  induction s as [|c s IH]; [done|]. simpl split.
  destruct (N.eqb c SP) eqn:E.
  - apply N.eqb_eq in E. subst c. simpl. exact IH.
  - destruct (split SP s) as [|w ws] eqn:Hw.
    + simpl in *. by rewrite <- IH.
    + simpl in *. destruct (is_ws c); simpl; by rewrite IH.
Qed.

Lemma split_length_le s :
  Forall (fun w => (length w <= length s)%nat) (split SP s).
Proof.
  induction s as [|c s IH]; simpl.
  - by repeat constructor.
  - destruct (N.eqb c SP).
    + constructor; [simpl; lia|].
      eapply Forall_impl; [exact IH|]. simpl. intros; lia.
    + destruct (split SP s) as [|w ws].
      * constructor; [simpl; lia | constructor].
      * inversion IH; subst. constructor; [simpl; lia|].
        eapply Forall_impl; [eassumption|]. simpl. intros; lia.
Qed.

Lemma substring_0 s n : 0 <= n -> substring s 0 n = take (Z.to_nat n) s.
Proof.
  intros Hn. unfold substring.
  rewrite (Z.max_l 0 0), (Z.max_r 0 n), (Z.min_l 0 n), (Z.max_r 0 n) by lia.
  by rewrite Z.sub_0_r.
Qed.

Lemma substringFrom_drop s n : 0 <= n -> substringFrom s n = drop (Z.to_nat n) s.
Proof. intros Hn. unfold substringFrom. by rewrite Z.max_r. Qed.

End StringFacts.

(* ===================================================================== *)
(** * Properties of [wrapText] *)
(* ===================================================================== *)

Example wrapText_pizza :
  wrapText 5 (js "2x Pizza Margherita grande") 10 (js "   ")
  = Some [js "2x Pizza"; js "   Margher"; js "   ita"; js "   grande"].
Proof. vm_compute. reflexivity. Qed.

Section WrapFacts.

Variables (maxWidth : Z) (indent : jstring).

Implicit Types (lines chunks : list jstring) (cur temp word : jstring).

Lemma hardSplit_eq fuel lines cur temp :
  hardSplit fuel maxWidth indent lines cur temp =
  if maxWidth <? len (cur ++ temp) then
    match fuel with
    | O => None
    | S fuel' =>
        let cutLen := Z.max 1 (maxWidth - len cur) in
        hardSplit fuel' maxWidth indent
          (lines ++ [cur ++ substring temp 0 cutLen])
          indent (substringFrom temp cutLen)
    end
  else Some (lines, cur, temp).
Proof. by destruct fuel. Qed.

Lemma hardSplit_exit fuel lines cur temp :
  len (cur ++ temp) <= maxWidth ->
  hardSplit fuel maxWidth indent lines cur temp = Some (lines, cur, temp).
Proof.
  intros H. rewrite hardSplit_eq.
  by destruct (Z.ltb_spec maxWidth (len (cur ++ temp))); [lia|].
Qed.

Lemma hardSplit_step fuel lines cur temp :
  len cur < maxWidth -> maxWidth < len (cur ++ temp) ->
  hardSplit (S fuel) maxWidth indent lines cur temp =
  hardSplit fuel maxWidth indent
    (lines ++ [cur ++ take (Z.to_nat (maxWidth - len cur)) temp])
    indent (drop (Z.to_nat (maxWidth - len cur)) temp).
Proof.
  intros Hc Hg. rewrite hardSplit_eq.
  destruct (Z.ltb_spec maxWidth (len (cur ++ temp))); [|lia].
  cbv zeta. rewrite Z.max_r by lia.
  by rewrite substring_0, substringFrom_drop by lia.
Qed.

Lemma prefixed_indent chunks :
  prefixed indent indent chunks = List.map (app indent) chunks.
Proof. by destruct chunks. Qed.

Lemma map_drop_indent chunks :
  List.map (drop (length indent)) (List.map (app indent) chunks) = chunks.
Proof.
  induction chunks as [|c cs IH]; simpl; [done|].
  by rewrite drop_app_length, IH.
Qed.

Lemma bodies_app lines more :
  lines <> [] ->
  bodies indent (lines ++ more)
  = bodies indent lines ++ List.map (drop (length indent)) more.
Proof.
  destruct lines as [|l0 rest]; [done|]. intros _. simpl.
  by rewrite List.map_app.
Qed.

Lemma bodies_app_prefixed lines chunks :
  bodies indent (lines ++ prefixed (prefixFor indent lines) indent chunks)
  = bodies indent lines ++ chunks.
Proof.
  destruct chunks as [|c cs]; [by rewrite !app_nil_r|].
  destruct lines as [|l0 rest].
  - simpl. by rewrite map_drop_indent.
  - rewrite bodies_app by done. f_equal. simpl.
    by rewrite drop_app_length, map_drop_indent.
Qed.

(** The hard split, whenever its loop exits: the word is cut into chunks,
    each pushed as a line of its own, and what is left fits. *)
Lemma hardSplit_spec fuel : forall lines cur temp lines' cur' temp',
  hardSplit fuel maxWidth indent lines cur temp = Some (lines', cur', temp') ->
  exists chunks,
    lines' = lines ++ prefixed cur indent chunks
    /\ mjoin chunks ++ temp' = temp
    /\ cur' = match chunks with [] => cur | _ => indent end
    /\ len (cur' ++ temp') <= maxWidth
    /\ (len cur < maxWidth -> len indent < maxWidth ->
        Forall (fun l => len l = maxWidth) (prefixed cur indent chunks)).
Proof.
  induction fuel as [|fuel IH]; intros lines cur temp lines' cur' temp';
    rewrite hardSplit_eq;
    destruct (Z.ltb_spec maxWidth (len (cur ++ temp))) as [Hg|Hg];
    try discriminate.
  - intros [= <- <- <-]. exists []. simpl. rewrite app_nil_r.
    split_and!; auto; lia.
  - cbv zeta. intros H. apply IH in H as (chunks & -> & Hj & -> & Hfit & Hw).
    set (cutLen := Z.max 1 (maxWidth - len cur)) in *.
    assert (0 <= cutLen) by lia.
    exists (substring temp 0 cutLen :: chunks). simpl.
    rewrite substring_0, substringFrom_drop in * by done.
    split_and!.
    + by rewrite <- app_assoc, prefixed_indent.
    + rewrite <- app_assoc, Hj. apply take_drop.
    + by destruct chunks.
    + done.
    + intros Hc Hi. constructor.
      * rewrite len_app in *. unfold len in *.
        rewrite length_take. lia.
      * specialize (Hw Hi Hi). by rewrite prefixed_indent in Hw.
  - intros [= <- <- <-]. exists []. simpl. rewrite app_nil_r.
    split_and!; auto; lia.
Qed.

(** The hard split ends when the indent leaves room or just fills the line. *)
Lemma hardSplit_total fuel : forall lines cur temp,
  len indent <= maxWidth -> len cur <= maxWidth ->
  (length temp <= fuel)%nat ->
  is_Some (hardSplit fuel maxWidth indent lines cur temp).
Proof.
  induction fuel as [|fuel IH]; intros lines cur temp Hi Hc Hf;
    rewrite hardSplit_eq;
    destruct (Z.ltb_spec maxWidth (len (cur ++ temp))) as [Hg|Hg]; eauto.
  - rewrite len_app in Hg. unfold len in *. lia.
  - cbv zeta. apply IH; [done|done|].
    rewrite substringFrom_drop by lia. rewrite length_drop.
    rewrite len_app in Hg. unfold len in *. lia.
Qed.

(** With an indent longer than the line, the loop never exits once it is
    entered. *)
Lemma hardSplit_diverges fuel : forall lines cur temp,
  maxWidth < len indent -> maxWidth < len (cur ++ temp) ->
  hardSplit fuel maxWidth indent lines cur temp = None.
Proof.
  induction fuel as [|fuel IH]; intros lines cur temp Hi Hg;
    rewrite hardSplit_eq;
    destruct (Z.ltb_spec maxWidth (len (cur ++ temp))); try lia; [done|].
  cbv zeta. apply IH; [done|]. rewrite len_app.
  pose proof (len_nonneg (substringFrom temp (Z.max 1 (maxWidth - len cur)))).
  lia.
Qed.

End WrapFacts.

Section WrapLoopFacts.

Variables (maxWidth : Z) (indent : jstring).

Implicit Types (lines : list jstring) (cur word d : jstring).
Implicit Types (st : list jstring * jstring).

Lemma prefix_prefixFor lines :
  (if 0 <? Z.of_nat (length lines) then indent else []) = prefixFor indent lines.
Proof. by destruct lines. Qed.

Lemma len_0_nil cur : (0 <? len cur) = false -> cur = [].
Proof.
  destruct cur; [done|]. rewrite len_cons. intros H%Z.ltb_ge.
  pose proof (len_nonneg cur). lia.
Qed.

Lemma ink_mjoin_app (l1 l2 : list jstring) :
  ink (mjoin (l1 ++ l2)) = ink (mjoin l1) ++ ink (mjoin l2).
Proof. by rewrite join_app, ink_app. Qed.

(** Pushing the trimmed current line keeps the ink. *)
Lemma push_ink lines b :
  ink (mjoin (bodies indent (lines ++ [trimEnd (prefixFor indent lines ++ b)])))
  = ink (mjoin (bodies indent lines)) ++ ink b.
Proof.
  destruct lines as [|l0 rest].
  - simpl. by rewrite app_nil_r, ink_trimEnd.
  - rewrite bodies_app by done. rewrite ink_mjoin_app. f_equal.
    simpl. rewrite app_nil_r, ink_drop_trimEnd. by rewrite drop_app_length.
Qed.

Lemma wrapWord_held fuel st st' word d :
  Held indent st d ->
  wrapWord fuel maxWidth indent st word = Some st' ->
  Held indent st' (d ++ ink word).
Proof.
  destruct st as [lines cur]. intros (b & Hcur & Hd). simpl in Hcur, Hd.
  unfold wrapWord. destruct (maxWidth <? len (cur ++ word)).
  - set (lines1 := if 0 <? len cur then lines ++ [trimEnd cur] else lines).
    assert (H1 : ink (mjoin (bodies indent lines1)) = d).
    { subst lines1. destruct (0 <? len cur) eqn:E.
      - subst cur. by rewrite push_ink.
      - apply len_0_nil in E. subst cur.
        destruct b; [|by destruct (prefixFor indent lines)].
        by rewrite <- Hd, app_nil_r. }
    clearbody lines1. rewrite prefix_prefixFor.
    destruct (maxWidth <? len (prefixFor indent lines1 ++ word)).
    + destruct (hardSplit _ _ _ _ _ _) as [[[lines' cur'] temp']|] eqn:Hs;
        [|discriminate].
      simpl. intros [= <-].
      apply hardSplit_spec in Hs as (chunks & -> & Hj & -> & _ & _).
      exists (temp' ++ [SP]). simpl. split.
      * f_equal. destruct chunks; [by rewrite app_nil_r|].
        by destruct lines1.
      * rewrite bodies_app_prefixed, ink_mjoin_app, H1, ink_app, ink_SP.
        rewrite app_nil_r, <- app_assoc, <- ink_app. by rewrite Hj.
    + intros [= <-]. exists (word ++ [SP]). simpl. split; [done|].
      by rewrite H1, ink_app, ink_SP, app_nil_r.
  - intros [= <-]. exists (b ++ word ++ [SP]). simpl. split.
    + subst cur. by rewrite <- app_assoc.
    + rewrite !ink_app, ink_SP, app_nil_r, app_assoc. by rewrite Hd.
Qed.

Lemma trimEnd_len_snoc y : len (trimEnd (y ++ [SP])) <= len y.
Proof.
  rewrite trimEnd_snoc_SP. unfold len. pose proof (trimEnd_length y). lia.
Qed.

Lemma wrapWord_fits fuel st st' word :
  len indent < maxWidth ->
  Fits maxWidth st ->
  wrapWord fuel maxWidth indent st word = Some st' ->
  Fits maxWidth st'.
Proof.
  destruct st as [lines cur]. intros Hi [Hl Hc]. simpl in Hl, Hc.
  pose proof (len_nonneg indent) as Hi0.
  unfold wrapWord.
  destruct (Z.ltb_spec maxWidth (len (cur ++ word))) as [Hg|Hg].
  - set (lines1 := if 0 <? len cur then lines ++ [trimEnd cur] else lines).
    assert (H1 : Forall (fun l => len l <= maxWidth) lines1).
    { subst lines1. destruct (0 <? len cur) eqn:E; [|done].
      apply Forall_app. split; [done|]. constructor; [|constructor].
      destruct Hc as [->|(y & -> & Hy)]; [done|].
      pose proof (trimEnd_len_snoc y). lia. }
    clearbody lines1. rewrite prefix_prefixFor.
    assert (Hp : len (prefixFor indent lines1) < maxWidth).
    { destruct lines1; simpl; [rewrite len_nil|]; lia. }
    destruct (Z.ltb_spec maxWidth (len (prefixFor indent lines1 ++ word)))
      as [Hg'|Hg'].
    + destruct (hardSplit _ _ _ _ _ _) as [[[lines' cur'] temp']|] eqn:Hs;
        [|discriminate].
      simpl. intros [= <-].
      apply hardSplit_spec in Hs as (chunks & -> & _ & _ & Hfit & Hw).
      split; simpl.
      * apply Forall_app. split; [done|].
        eapply Forall_impl; [exact (Hw Hp Hi)|]. simpl. intros; lia.
      * right. exists (cur' ++ temp'). by rewrite <- app_assoc.
    + intros [= <-]. split; simpl; [done|].
      right. exists (prefixFor indent lines1 ++ word). by rewrite <- app_assoc.
  - intros [= <-]. split; simpl; [done|].
    right. exists (cur ++ word). by rewrite <- app_assoc.
Qed.

Lemma wrapWord_total fuel st word :
  len indent <= maxWidth ->
  (length word <= fuel)%nat ->
  is_Some (wrapWord fuel maxWidth indent st word).
Proof.
  destruct st as [lines cur]. intros Hi Hf.
  pose proof (len_nonneg indent) as Hi0.
  unfold wrapWord. destruct (maxWidth <? len (cur ++ word)); [|eauto].
  set (lines1 := if 0 <? len cur then lines ++ [trimEnd cur] else lines).
  clearbody lines1. rewrite prefix_prefixFor.
  destruct (maxWidth <? len (prefixFor indent lines1 ++ word)); [|eauto].
  destruct (hardSplit_total maxWidth indent fuel lines1
              (prefixFor indent lines1) word) as [[[l c] t] ->];
    [done| |done|simpl; eauto].
  destruct lines1; simpl; [rewrite len_nil|]; lia.
Qed.

Lemma wrapWords_held fuel words : forall st st' d,
  Held indent st d ->
  wrapWords fuel maxWidth indent words st = Some st' ->
  Held indent st' (d ++ ink (mjoin words)).
Proof.
  induction words as [|word words IH]; intros st st' d Hd; simpl.
  - intros [= <-]. by rewrite app_nil_r.
  - destruct (wrapWord _ _ _ _ _) as [st1|] eqn:E; [|discriminate].
    simpl. intros H. eapply IH in H; [|by eapply wrapWord_held].
    by rewrite ink_app, app_assoc.
Qed.

Lemma wrapWords_fits fuel words : forall st st',
  len indent < maxWidth ->
  Fits maxWidth st ->
  wrapWords fuel maxWidth indent words st = Some st' ->
  Fits maxWidth st'.
Proof.
  induction words as [|word words IH]; intros st st' Hi Hf; simpl.
  - by intros [= <-].
  - destruct (wrapWord _ _ _ _ _) as [st1|] eqn:E; [|discriminate].
    simpl. apply IH; [done|]. by eapply wrapWord_fits.
Qed.

Lemma wrapWords_total fuel words : forall st,
  len indent <= maxWidth ->
  Forall (fun w => (length w <= fuel)%nat) words ->
  is_Some (wrapWords fuel maxWidth indent words st).
Proof.
  induction words as [|word words IH]; intros st Hi Hw; simpl; [eauto|].
  inversion Hw; subst.
  destruct (wrapWord_total fuel st word) as [st1 ->]; [done|done|].
  simpl. by apply IH.
Qed.

Lemma trimStart_nil s : trimStart s = [] -> Forall (fun c => is_ws c = true) s.
Proof.
  induction s as [|c s IH]; simpl; [constructor|].
  destruct (is_ws c) eqn:E; [|discriminate]. intros H. constructor; auto.
Qed.

Lemma trim_nil s : trim s = [] -> Forall (fun c => is_ws c = true) s.
Proof.
  unfold trim. intros H%trimStart_nil.
  destruct (trimEnd_suffix s) as [t [Hs Ht]].
  rewrite Hs. by apply Forall_app.
Qed.

(** ** [wrapText] *)

Lemma wrapText_ink fuel text lines :
  wrapText fuel text maxWidth indent = Some lines ->
  ink (mjoin (bodies indent lines)) = ink text.
Proof.
  unfold wrapText.
  destruct (wrapWords _ _ _ _ _) as [[ls cur]|] eqn:E; [|discriminate].
  simpl. intros [= <-].
  apply (wrapWords_held _ _ _ _ []) in E; [|by exists []].
  destruct E as (b & Hcur & Hd). simpl in Hcur, Hd.
  rewrite ink_split in Hd. rewrite <- Hd.
  destruct (0 <? len (trim cur)) eqn:Ht.
  - subst cur. apply push_ink.
  - apply len_0_nil, trim_nil in Ht. subst cur.
    apply Forall_app in Ht as [_ Hb]. by rewrite (ink_all_ws b Hb), app_nil_r.
Qed.

Lemma wrapText_fits fuel text lines :
  len indent < maxWidth ->
  wrapText fuel text maxWidth indent = Some lines ->
  Forall (fun l => len l <= maxWidth) lines.
Proof.
  intros Hi. unfold wrapText.
  destruct (wrapWords _ _ _ _ _) as [[ls cur]|] eqn:E; [|discriminate].
  simpl. intros [= <-].
  apply wrapWords_fits in E as [Hl Hc]; [|done|by split; [constructor|left]].
  simpl in *. destruct (0 <? len (trim cur)) eqn:Ht; [|done].
  apply Forall_app. split; [done|]. constructor; [|constructor].
  destruct Hc as [->|(y & -> & Hy)]; [done|].
  pose proof (trimEnd_len_snoc y). lia.
Qed.

Lemma wrapText_total fuel text :
  len indent <= maxWidth ->
  (length text <= fuel)%nat ->
  is_Some (wrapText fuel text maxWidth indent).
Proof.
  intros Hi Hf. unfold wrapText.
  destruct (wrapWords_total fuel (split SP text) ([], [])) as [[ls cur] ->];
    [done| |simpl; eauto].
  eapply Forall_impl; [apply split_length_le|]. simpl. intros; lia.
Qed.

End WrapLoopFacts.

Section WrapFuel.

Variables (maxWidth : Z) (indent : jstring).

(** More fuel does not change a result. *)
Lemma hardSplit_mono fuel : forall fuel' lines cur temp r,
  (fuel <= fuel')%nat ->
  hardSplit fuel maxWidth indent lines cur temp = Some r ->
  hardSplit fuel' maxWidth indent lines cur temp = Some r.
Proof.
  induction fuel as [|fuel IH]; intros fuel' lines cur temp r Hle;
    rewrite !(hardSplit_eq _ _ _ lines cur temp);
    destruct (maxWidth <? len (cur ++ temp)); try done.
  destruct fuel' as [|fuel']; [lia|]. cbv zeta. apply IH. lia.
Qed.

Lemma wrapWord_mono fuel fuel' st word r :
  (fuel <= fuel')%nat ->
  wrapWord fuel maxWidth indent st word = Some r ->
  wrapWord fuel' maxWidth indent st word = Some r.
Proof.
  intros Hle. destruct st as [lines cur]. unfold wrapWord.
  destruct (maxWidth <? len (cur ++ word)); [|done].
  match goal with |- context [if ?c then _ else Some _] => destruct c end;
    [|done].
  match goal with |- context [hardSplit fuel ?a ?b ?c ?d ?e] =>
    destruct (hardSplit fuel a b c d e) as [s|] eqn:E; [|done] end.
  by rewrite (hardSplit_mono _ _ _ _ _ _ Hle E).
Qed.

Lemma wrapWords_mono fuel fuel' words : forall st r,
  (fuel <= fuel')%nat ->
  wrapWords fuel maxWidth indent words st = Some r ->
  wrapWords fuel' maxWidth indent words st = Some r.
Proof.
  induction words as [|word words IH]; intros st r Hle; simpl; [done|].
  destruct (wrapWord fuel _ _ _ _) as [st1|] eqn:E; [|done].
  rewrite (wrapWord_mono _ _ _ _ _ Hle E). simpl. by apply IH.
Qed.

Lemma wrapText_mono fuel fuel' text lines :
  (fuel <= fuel')%nat ->
  wrapText fuel text maxWidth indent = Some lines ->
  wrapText fuel' text maxWidth indent = Some lines.
Proof.
  intros Hle. unfold wrapText.
  destruct (wrapWords fuel _ _ _ _) as [st|] eqn:E; [|done].
  by rewrite (wrapWords_mono _ _ _ _ _ Hle E).
Qed.

End WrapFuel.

(** X29. With an indent shorter than the line, [wrapText] keeps within the
    line. For every text, and every [maxWidth] and [indent] with [indent]
    shorter than [maxWidth]: [wrapText] returns, with any fuel from the
    length of the text on; every line it returns has length at most
    [maxWidth]; and the lines, without the indent in front of every line
    but the first, hold the characters of the text that are not white
    space, in their order. *)
Theorem wrapText_within_width (text indent : jstring) (maxWidth : Z) :
  len indent < maxWidth ->
  exists lines,
    (forall fuel, (length text <= fuel)%nat ->
                  wrapText fuel text maxWidth indent = Some lines)
    /\ Forall (fun l => len l <= maxWidth) lines
    /\ ink (mjoin (bodies indent lines)) = ink text.
Proof.
  intros Hi.
  destruct (wrapText_total maxWidth indent (length text) text)
    as [lines Hl]; [lia|done|].
  exists lines. split_and!.
  - intros fuel Hf. by apply (wrapText_mono _ _ (length text)).
  - by eapply wrapText_fits.
  - by eapply wrapText_ink.
Qed.

(** An item name wrapped to 10 columns with an indent of 3. *)
Lemma wrapText_within_width_witness :
  exists lines,
    wrapText 26 (js "2x Pizza Margherita grande") 10 (js "   ") = Some lines
    /\ Forall (fun l => len l <= 10) lines
    /\ ink (mjoin (bodies (js "   ") lines)) = ink (js "2x Pizza Margherita grande").
Proof.
  destruct (wrapText_within_width (js "2x Pizza Margherita grande") (js "   ") 10
              eq_refl) as [lines (Hf & Hw & Hk)].
  exists lines. split; [|by split].
  apply Hf. vm_compute. lia.
Defined.

(** C2. [wrapText("abc", 2, "  ")], with an indent as wide as the line,
    returns [["ab", "  c"]]: with a fuel of 2 it is the result, no fuel
    gives another, and the second line has three characters, one more than
    [maxWidth]. The hard split cuts at least one character
    ([Math.max(1, spaceLeft)]) after an indent that has filled the line. *)
Theorem wrapText_indent_as_wide_as_line :
  wrapText 2 (js "abc") 2 (js "  ") = Some [js "ab"; js "  c"]
  /\ (forall fuel lines,
        wrapText fuel (js "abc") 2 (js "  ") = Some lines ->
        lines = [js "ab"; js "  c"])
  /\ len (js "  c") = 3
  /\ ~ Forall (fun l => len l <= 2) [js "ab"; js "  c"].
Proof.
  assert (E : wrapText 2 (js "abc") 2 (js "  ") = Some [js "ab"; js "  c"])
    by (vm_compute; reflexivity).
  split_and!; [done| |done|].
  - intros fuel lines Hl. destruct (le_lt_dec 2 fuel) as [Hle|Hlt].
    + rewrite (wrapText_mono _ _ _ _ _ _ Hle E) in Hl. by injection Hl as <-.
    + destruct fuel as [|[|fuel]]; [vm_compute in Hl; discriminate ..|lia].
  - intros HF. inversion HF as [|? ? _ HF']. inversion HF' as [|? ? Hc _].
    vm_compute in Hc. by apply Hc.
Qed.

(** C10: [wrapText("abc", 2, "   ")] never returns. After ["ab"] and
    ["   c"] the word is used up, the current line is the indent, longer
    than [maxWidth] by itself, and every further iteration pushes the indent
    and leaves the loop condition true: no amount of fuel is enough. *)
Theorem wrapText_long_indent_never_returns :
  forall fuel, wrapText fuel (js "abc") 2 (js "   ") = None.
Proof.
  intros fuel. unfold wrapText.
  change (split SP (js "abc")) with [js "abc"].
  cbn [wrapWords mbind option_bind]. unfold wrapWord.
  change (2 <? len ([] ++ js "abc")) with true. cbv iota.
  change (0 <? len []) with false. cbv iota.
  change (0 <? Z.of_nat (length (@nil (list N)))) with false. cbv iota zeta.
  change (2 <? len ([] ++ js "abc")) with true. cbv iota.
  by rewrite hardSplit_diverges.
Qed.

Section WrapDivergence.

Variables (maxWidth : Z) (indent : jstring).

Lemma wrapWord_same_line fuel lines cur word :
  len (cur ++ word) <= maxWidth ->
  wrapWord fuel maxWidth indent (lines, cur) word
  = Some (lines, cur ++ word ++ [SP]).
Proof.
  intros Hg. unfold wrapWord.
  by destruct (Z.ltb_spec maxWidth (len (cur ++ word))); [lia|].
Qed.

(** With an indent longer than the line, the first word that does not fit
    on the current line sends [wrapText] into its endless loop. *)
Lemma wrapWord_diverges fuel lines cur word :
  maxWidth < len indent -> maxWidth < len (cur ++ word) ->
  wrapWord fuel maxWidth indent (lines, cur) word = None.
Proof.
  intros Hi Hg. unfold wrapWord.
  destruct (Z.ltb_spec maxWidth (len (cur ++ word))); [|lia].
  set (lines1 := if 0 <? len cur then lines ++ [trimEnd cur] else lines).
  rewrite prefix_prefixFor.
  assert (Hg' : maxWidth < len (prefixFor indent lines1 ++ word)).
  { subst lines1. destruct (0 <? len cur) eqn:E.
    - destruct lines; simpl; rewrite len_app;
        pose proof (len_nonneg word); lia.
    - apply len_0_nil in E. subst cur.
      destruct lines; simpl; [done|]. rewrite len_app.
      pose proof (len_nonneg word). lia. }
  destruct (Z.ltb_spec maxWidth (len (prefixFor indent lines1 ++ word)));
    [|lia].
  by rewrite hardSplit_diverges.
Qed.

End WrapDivergence.

(** C1. [buildCashReceipt] prints no [TOTALE] for a row of 10^20 pizzas at
    1 euro, whatever the order: the price column of the row,
    [100000000000000000000,00€], leaves 22 columns to the name, the indent
    of the quantity prefix [100000000000000000000x ] has 23, and [wrapText]
    never returns, so that no fuel is enough to reach the totals. The
    amounts of this row are whole numbers that the doubles of the source
    hold without rounding. *)
Theorem buildCashReceipt_never_returns `{Runtime} (order : IncomingOrder) :
  forall fuel, buildCashReceipt_out fuel order [hugeQuantityLine] = None.
Proof.
  intros fuel. unfold buildCashReceipt_out. cbn [cashItems].
  assert (E : forall acc, cashItem fuel acc hugeQuantityLine = None);
    [|by rewrite E].
  intros [[out s] e]. unfold cashItem.
  set (priceStr := eurCol _).
  assert (Hp : priceStr = js "100000000000000000000,00" ++ [EURO])
    by (by vm_compute).
  rewrite Hp. clear Hp priceStr.
  set (namePrefix := ofZ (quantity hugeQuantityLine) ++ js "x ").
  assert (Hn : namePrefix = js "100000000000000000000x ") by (by vm_compute).
  rewrite Hn. clear Hn namePrefix.
  set (text := _ ++ orElse _ _).
  assert (Ht : text = js "100000000000000000000x PIZZA") by (by vm_compute).
  rewrite Ht. clear Ht text.
  set (mw := RECEIPT_W - _ - 1).
  assert (Hm : mw = 22) by (by vm_compute). rewrite Hm. clear Hm mw.
  set (indent := JS.repeat _ _).
  assert (Hi : indent = js "                       ") by (by vm_compute).
  rewrite Hi. clear Hi indent.
  assert (W : wrapText fuel (js "100000000000000000000x PIZZA") 22
                (js "                       ") = None); [|by rewrite W].
  unfold wrapText.
  change (split SP (js "100000000000000000000x PIZZA"))
    with [js "100000000000000000000x"; js "PIZZA"].
  cbn [wrapWords].
  rewrite wrapWord_same_line by (vm_compute; discriminate).
  cbn [mbind option_bind].
  by rewrite wrapWord_diverges by (by vm_compute).
Qed.

(* ===================================================================== *)
(** * When [wrapText] returns *)
(* ===================================================================== *)

Section WrapReturns.

Variables (maxWidth : Z) (indent : jstring).

Lemma split_nonempty (s : jstring) : split SP s <> [].
Proof.
  destruct s as [|c s]; [done|]. cbn [split].
  by destruct (N.eqb c SP), (split SP s).
Qed.

Lemma join_split (s : jstring) : join [SP] (split SP s) = s.
Proof.
  induction s as [|c s IH]; [done|]. cbn [split].
  destruct (split SP s) as [|w ws] eqn:E; [by apply split_nonempty in E|].
  destruct (N.eqb_spec c SP) as [->|Hne].
  - change (join [SP] ([] :: w :: ws))
      with ([] ++ [SP] ++ join [SP] (w :: ws)). by rewrite IH.
  - rewrite <- IH. by destruct ws.
Qed.

(** A text that fits on one line stays on one line. *)
Lemma wrapWords_one_line fuel (words : list jstring) : forall cur,
  len (cur ++ join [SP] words) <= maxWidth ->
  exists cur', wrapWords fuel maxWidth indent words ([], cur) = Some ([], cur').
Proof.
  induction words as [|w words IH]; intros cur Hfit; [by eexists|].
  cbn [wrapWords]. destruct words as [|w' words].
  - cbn [join] in Hfit. rewrite wrapWord_same_line by done.
    cbn. by eexists.
  - change (join [SP] (w :: w' :: words))
      with (w ++ [SP] ++ join [SP] (w' :: words)) in Hfit.
    rewrite wrapWord_same_line.
    + cbn [mbind option_bind]. apply IH.
      by rewrite <- !app_assoc.
    + rewrite !len_app in *.
      pose proof (len_nonneg (join [SP] (w' :: words))).
      pose proof (len_nonneg [SP]). lia.
Qed.

(** With an indent longer than the line, a text that does not fit on one
    line is never wrapped. *)
Lemma wrapWords_diverges fuel (words : list jstring) : forall lines cur,
  words <> [] ->
  maxWidth < len indent ->
  maxWidth < len (cur ++ join [SP] words) ->
  wrapWords fuel maxWidth indent words (lines, cur) = None.
Proof.
  induction words as [|w words IH]; intros lines cur Hne Hi Hg; [done|].
  cbn [wrapWords]. destruct words as [|w' words].
  - cbn [join] in Hg. by rewrite wrapWord_diverges.
  - change (join [SP] (w :: w' :: words))
      with (w ++ [SP] ++ join [SP] (w' :: words)) in Hg.
    destruct (Z_le_gt_dec (len (cur ++ w)) maxWidth) as [Hfit|Hover].
    + rewrite wrapWord_same_line by done. cbn [mbind option_bind].
      apply IH; [done|done|]. by rewrite <- !app_assoc.
    + rewrite wrapWord_diverges by (done || lia). done.
Qed.

End WrapReturns.

(** X1. [wrapText] returns exactly when the indent is not longer than
    [maxWidth] or the whole text is not longer than [maxWidth]; in the
    other case no fuel is enough. When it returns, it does so with any fuel
    from the length of the text on. *)
Theorem wrapText_returns_iff (text indent : jstring) (maxWidth : Z) :
  ((exists fuel lines, wrapText fuel text maxWidth indent = Some lines)
   <-> len indent <= maxWidth \/ len text <= maxWidth)
  /\ (len indent <= maxWidth \/ len text <= maxWidth ->
      forall fuel, (length text <= fuel)%nat ->
                   exists lines, wrapText fuel text maxWidth indent = Some lines).
Proof.
  assert (Hret : len indent <= maxWidth \/ len text <= maxWidth ->
                 forall fuel, (length text <= fuel)%nat ->
                 exists lines, wrapText fuel text maxWidth indent = Some lines).
  { intros [Hi|Ht] fuel Hf.
    - by apply wrapText_total.
    - unfold wrapText.
      destruct (wrapWords_one_line maxWidth indent fuel (split SP text) [])
        as [cur' ->]; [by rewrite join_split|].
      cbn. by eexists. }
  split; [|done]. split.
  - intros (fuel & lines & Hw).
    destruct (Z_le_gt_dec (len indent) maxWidth) as [?|Hi]; [by left|].
    destruct (Z_le_gt_dec (len text) maxWidth) as [?|Ht]; [by right|].
    exfalso. unfold wrapText in Hw.
    rewrite wrapWords_diverges in Hw; [done|apply split_nonempty|lia|].
    rewrite join_split. simpl. lia.
  - intros H. exists (length text). by apply Hret.
Qed.

(* ===================================================================== *)
(** * The total of the cash receipt *)
(* ===================================================================== *)

Section CashFacts.

Context `{Runtime}.

Local Open Scope Qc_scope.

Lemma Qc_ltb_lt (x y : Qc) : Qc_ltb x y = true <-> x < y.
Proof.
  unfold Qc_ltb. rewrite Qclt_alt. by destruct (x ?= y).
Qed.

Lemma Math_max_0_nonneg (x : Qc) : 0 <= Math_max 0 x.
Proof.
  unfold Math_max. destruct (Qc_ltb 0 x) eqn:E.
  - apply Qclt_le_weak. by apply Qc_ltb_lt.
  - apply Qcle_refl.
Qed.

Lemma Math_max_0_neg (x : Qc) : x < 0 -> Math_max 0 x = 0.
Proof.
  intros Hx. unfold Math_max. destruct (Qc_ltb 0 x) eqn:E; [|done].
  apply Qc_ltb_lt in E. exfalso. apply (Qclt_not_eq x x); [|done].
  by apply (Qclt_trans x 0 x).
Qed.

Lemma Qc_minus_neg (s d : Qc) : s < d -> s - d < 0.
Proof.
  intros Hsd. apply Qclt_minus_iff. apply Qclt_minus_iff in Hsd.
  replace (0 + - (s - d)) with (d + - s) by ring. done.
Qed.

Local Close Scope Qc_scope.

Lemma len_repeat_SP (n : Z) : 0 <= n -> len (JS.repeat [SP] n) = n.
Proof.
  intros Hn. unfold JS.repeat, len.
  assert (G : forall k, length (mjoin (replicate k [SP])) = k).
  { induction k as [|k IH]; simpl; [done|]. by rewrite IH. }
  rewrite G. lia.
Qed.

Lemma noteLines_total fuel indent (l : KitchenReceiptLine) :
  len indent + 6 <= RECEIPT_W ->
  (length (indent ++ js "NOTE: " ++ trimStr (notes l)) <= fuel)%nat ->
  is_Some (noteLines fuel indent l).
Proof.
  intros Hi Hf. unfold noteLines.
  destruct (trimStr (notes l)) as [|c t] eqn:E; [eauto|].
  apply wrapText_total; [|done].
  rewrite len_app. change (len (js "      ")) with 6. done.
Qed.

(** A row moves the accumulators by its base amount and its surcharge, and
    only adds lines. *)
Lemma cashItem_acc fuel out s e l out' s' e' :
  cashItem fuel (out, s, e) l = Some (out', s', e') ->
  s' = (s + rowBaseOf l)%Qc /\ e' = (e + rowExtraOf l)%Qc
  /\ exists tl, out' = out ++ tl.
Proof.
  unfold cashItem.
  destruct (wrapText _ _ _ _) as [wn|]; [|done]. cbn [mbind option_bind].
  destruct (noteLines _ _ _) as [wk|]; [|done]. cbn [mbind option_bind].
  intros [= <- <- <-]. split; [done|]. split; [done|].
  destruct (Qc_ltb 0 _); eexists; rewrite <- !app_assoc; reflexivity.
Qed.

Lemma cashItems_acc fuel lines : forall out s e out' s' e',
  cashItems fuel (out, s, e) lines = Some (out', s', e') ->
  s' = (s + sumBase lines)%Qc /\ e' = (e + sumExtra lines)%Qc
  /\ exists tl, out' = out ++ tl.
Proof.
  induction lines as [|l lines IH]; intros out s e out' s' e';
    cbn [cashItems].
  - intros [= <- <- <-]. cbn [sumBase sumExtra foldr].
    split; [ring|]. split; [ring|].
    exists []. by rewrite app_nil_r.
  - destruct (cashItem fuel (out, s, e) l) as [[[out1 s1] e1]|] eqn:E;
      [|done].
    cbn [mbind option_bind]. intros (-> & -> & tl & ->)%IH.
    apply cashItem_acc in E as (-> & -> & tl1 & ->).
    cbn [sumBase sumExtra foldr]. fold (sumBase lines). fold (sumExtra lines).
    split; [ring|]. split; [ring|]. exists (tl1 ++ tl). by rewrite app_assoc.
Qed.

Lemma cashItem_total fuel acc l :
  hasRoom l -> (itemFuel l <= fuel)%nat -> is_Some (cashItem fuel acc l).
Proof.
  intros [Hr1 Hr2] Hf. destruct acc as [[out s] e]. unfold cashItem.
  fold (namePrefixOf l). fold (rowBaseOf l). fold (rowExtraOf l).
  unfold itemFuel in Hf.
  pose proof (len_nonneg (namePrefixOf l)) as Hn.
  destruct (wrapText_total
              (RECEIPT_W - len (eurCol (rowBaseOf l + rowExtraOf l)%Qc) - 1)
              (JS.repeat [SP] (len (namePrefixOf l))) fuel
              (namePrefixOf l
                 ++ orElse (trim (foodName l)) (js "FOOD NAME NOT FOUND")))
    as [wn ->]; [by rewrite len_repeat_SP|lia|].
  cbn [mbind option_bind].
  destruct (noteLines_total fuel (JS.repeat [SP] (len (namePrefixOf l))) l)
    as [wk ->]; [by rewrite len_repeat_SP|lia|].
  cbn [mbind option_bind]. eauto.
Qed.

Lemma cashItems_total fuel lines : forall acc,
  Forall hasRoom lines ->
  Forall (fun l => (itemFuel l <= fuel)%nat) lines ->
  is_Some (cashItems fuel acc lines).
Proof.
  induction lines as [|l lines IH]; intros acc Hr Hf; cbn [cashItems];
    [eauto|].
  apply Forall_cons in Hr as [Hr1 Hr]. apply Forall_cons in Hf as [Hf1 Hf].
  destruct (cashItem_total fuel acc l Hr1 Hf1) as [acc1 ->].
  cbn [mbind option_bind]. by apply IH.
Qed.

End CashFacts.

(* ===================================================================== *)
(** * Printer status *)
(* ===================================================================== *)

Section StatusFacts.

(** A mask is contained in [b] when every bit of the mask is set in [b]. *)
Lemma land_eq_mask (b m : Z) :
  Z.land b m = m <->
  (forall n, 0 <= n -> Z.testbit m n = true -> Z.testbit b n = true).
Proof.
  split.
  - intros E n Hn Hm. rewrite <- E, Z.land_spec in Hm.
    by apply andb_prop in Hm as [? _].
  - intros Hb. apply Z.bits_inj'. intros n Hn. rewrite Z.land_spec.
    destruct (Z.testbit m n) eqn:E; [|by rewrite andb_false_r].
    by rewrite (Hb n Hn E).
Qed.

Lemma testbit_byte_high (k n : Z) :
  0 <= k < 256 -> 8 <= n -> Z.testbit k n = false.
Proof.
  intros Hk Hn. destruct (Z.eq_dec k 0) as [->|Hk0]; [apply Z.bits_0|].
  apply Z.bits_above_log2; [lia|].
  assert (Z.log2 k < 8) by (apply Z.log2_lt_pow2; lia). lia.
Qed.

Lemma bits_of_0x60 n : 0 <= n -> Z.testbit 0x60 n = true -> n = 5 \/ n = 6.
Proof.
  intros Hn H. destruct (Z_lt_le_dec n 8) as [Hlt|Hge].
  - assert (Hc : n = 0 \/ n = 1 \/ n = 2 \/ n = 3 \/ n = 4 \/ n = 5
                 \/ n = 6 \/ n = 7) by lia.
    destruct Hc as [->|[->|[->|[->|[->|[->|[->| ->]]]]]]];
      try discriminate H; auto.
  - rewrite testbit_byte_high in H by lia. discriminate.
Qed.

Lemma bits_of_0x0C n : 0 <= n -> Z.testbit 0x0C n = true -> n = 2 \/ n = 3.
Proof.
  intros Hn H. destruct (Z_lt_le_dec n 8) as [Hlt|Hge].
  - assert (Hc : n = 0 \/ n = 1 \/ n = 2 \/ n = 3 \/ n = 4 \/ n = 5
                 \/ n = 6 \/ n = 7) by lia.
    destruct Hc as [->|[->|[->|[->|[->|[->|[->| ->]]]]]]];
      try discriminate H; auto.
  - rewrite testbit_byte_high in H by lia. discriminate.
Qed.

Lemma paperEnded_bits (b : Z) :
  (Z.land b 0x60 =? 0x60) = Z.testbit b 5 && Z.testbit b 6.
Proof.
  destruct (Z.eqb_spec (Z.land b 0x60) 0x60) as [E|E].
  - rewrite land_eq_mask in E. by rewrite !E.
  - destruct (Z.testbit b 5) eqn:E5, (Z.testbit b 6) eqn:E6; try done.
    destruct E. apply land_eq_mask. intros n Hn Hm.
    by destruct (bits_of_0x60 n Hn Hm) as [-> | ->].
Qed.

Lemma paperLow_bits (b : Z) :
  (Z.land b 0x0C =? 0x0C) = Z.testbit b 2 && Z.testbit b 3.
Proof.
  destruct (Z.eqb_spec (Z.land b 0x0C) 0x0C) as [E|E].
  - rewrite land_eq_mask in E. by rewrite !E.
  - destruct (Z.testbit b 2) eqn:E2, (Z.testbit b 3) eqn:E3; try done.
    destruct E. apply land_eq_mask. intros n Hn Hm.
    by destruct (bits_of_0x0C n Hn Hm) as [-> | ->].
Qed.

End StatusFacts.

(** C3. When the printer answers a status query with a chunk whose first
    byte is [b], [getPrinterStatus] resolves to [CARTA_FINITA] if bits 5 and
    6 of [b] are both set, that is [b & 0x60 == 0x60]; otherwise to
    [CARTA_QUASI_FINITA] if bits 2 and 3 are both set, that is
    [b & 0x0C == 0x0C]; otherwise to [OK]. So [0b01100000 = 0x60] gives
    [CARTA_FINITA], [0b00001100 = 0x0C] gives [CARTA_QUASI_FINITA] and [0]
    gives [OK]. *)
Theorem getPrinterStatus_classifies `{Network} (ip : jstring) (port : JsNum)
    (w : World) (b : Z) (rest : list Z) :
  statusOutcome (conns w) = Data (b :: rest) ->
  (getPrinterStatus ip port w).1
  = Resolved (if Z.testbit b 5 && Z.testbit b 6 then CARTA_FINITA
              else if Z.testbit b 2 && Z.testbit b 3 then CARTA_QUASI_FINITA
              else OK)
  /\ (Z.testbit b 5 && Z.testbit b 6 = (Z.land b 0x60 =? 0x60))
  /\ (Z.testbit b 2 && Z.testbit b 3 = (Z.land b 0x0C =? 0x0C))
  /\ statusOfByte 0x60 = CARTA_FINITA
  /\ statusOfByte 0x0C = CARTA_QUASI_FINITA
  /\ statusOfByte 0x00 = OK.
Proof.
  intros E. unfold getPrinterStatus. rewrite E. simpl.
  unfold statusOfByte. rewrite paperEnded_bits, paperLow_bits.
  by split_and!.
Qed.

(** A printer that answers [0x60] is out of paper. *)
Lemma getPrinterStatus_classifies_witness :
  (@getPrinterStatus (steadyNetwork 0x60) (js "10.0.0.7") (NFinite (Qc_of_Z 9100))
     {| conns := 0; draws := 0; log := [] |}).1
  = Resolved CARTA_FINITA.
Proof.
  exact (proj1 (@getPrinterStatus_classifies (steadyNetwork 0x60)
                  (js "10.0.0.7") (NFinite (Qc_of_Z 9100))
                  {| conns := 0; draws := 0; log := [] |} 0x60 [] eq_refl)).
Defined.

(* ===================================================================== *)
(** * Printer transport: payload and address guard *)
(* ===================================================================== *)

Section TransportFacts.

Context `{Runtime}.

Lemma foldl_buffers (items : list Segment) : forall buffers,
  foldl (fun buffers item =>
           match item with
           | Raw bytes => buffers ++ [bytes]
           | Text s => buffers ++ [iconv_encode_cp858 s]
           end) buffers items
  = buffers ++ List.map segmentBytes items.
Proof.
  induction items as [|item items IH]; intros buffers; simpl.
  - by rewrite app_nil_r.
  - rewrite IH. destruct item; by rewrite <- app_assoc.
Qed.

Lemma encodePayload_eq (data : PrintData) :
  encodePayload data
  = SELECT_CP858 ++ mjoin (List.map segmentBytes (segmentsOf data))
      ++ FEED_AND_CUT.
Proof.
  unfold encodePayload.
  replace (match data with Segments items => items | Single item => [item] end)
    with (segmentsOf data) by by destruct data.
  rewrite foldl_buffers. rewrite !join_app. simpl.
  reflexivity.
Qed.

Lemma Qc_leb_0_not_pos (q : Qc) : Qc_leb q 0 = true <-> ~ (0 < q)%Qc.
Proof.
  unfold Qc_leb. change (0 < q)%Qc with (q > 0)%Qc. rewrite Qcgt_alt.
  destruct (q ?= 0)%Qc; split; try done; intros; congruence.
Qed.

Lemma invalidAddress_spec (ip : jstring) (port : JsNum) :
  invalidAddress ip port = true <-> trim ip = [] \/ ~ FinitePositive port.
Proof.
  unfold invalidAddress, FinitePositive.
  rewrite !orb_true_iff, bool_decide_eq_true.
  destruct port as [q| | |]; simpl.
  - rewrite Qc_leb_0_not_pos. split.
    + intros [[?|?]|Hq]; [by left|done|].
      right. intros (q' & [= <-] & Hq'). by apply Hq.
    + intros [?|Hq]; [by left; left|].
      right. intros Hq'. apply Hq. by exists q.
  - split; [|by left; right]. intros _. right. by intros (q & ? & _).
  - split; [|by left; right]. intros _. right. by intros (q & ? & _).
  - split; [|by left; right]. intros _. right. by intros (q & ? & _).
Qed.

Context `{Network}.

Lemma sendToPrinter_invalid ip port data w :
  invalidAddress ip port = true ->
  sendToPrinter ip port data w = (Rejected InvalidAddress, w).
Proof. intros E. unfold sendToPrinter. by rewrite E. Qed.

Lemma sendToPrinter_rejects_iff ip port data w :
  (sendToPrinter ip port data w).1 = Rejected InvalidAddress
  <-> invalidAddress ip port = true.
Proof.
  unfold sendToPrinter. destruct (invalidAddress ip port); [done|].
  by destruct (sendOutcome (conns w)).
Qed.

End TransportFacts.

(** C6. The payload that [sendToPrinter] writes is the CP858 selection
    [1B 74 13], then the bytes of the segments in their order, a text
    segment encoded to CP858 by [iconv] and a binary segment as it is, then
    the feed and cut [1B 64 06 1B 69]; a single string or buffer counts as
    one segment. When the address is accepted, this payload is what goes on
    the connection, whether the write succeeds or not. *)
Theorem sendToPrinter_payload `{Runtime} `{Network} (ip : jstring)
    (port : JsNum) (data : PrintData) (w : World) :
  encodePayload data
  = [0x1B; 0x74; 0x13]
      ++ mjoin (List.map segmentBytes (segmentsOf data))
      ++ [0x1B; 0x64; 0x06; 0x1B; 0x69]
  /\ (invalidAddress ip port = false ->
      log (sendToPrinter ip port data w).2
      = log w ++ [Write (trim ip) port
                    ([0x1B; 0x74; 0x13]
                       ++ mjoin (List.map segmentBytes (segmentsOf data))
                       ++ [0x1B; 0x64; 0x06; 0x1B; 0x69])]).
Proof.
  split; [apply encodePayload_eq|].
  intros E. unfold sendToPrinter. rewrite E, encodePayload_eq.
  by destruct (sendOutcome (conns w)).
Qed.

(** A text segment [A€] and a binary segment [1D 76]. *)
Lemma sendToPrinter_payload_witness :
  @encodePayload sampleRuntime
    (Segments [Text (js "A" ++ [EURO]); Raw [0x1D; 0x76]])
  = [0x1B; 0x74; 0x13; 0x41; 0xD5; 0x1D; 0x76; 0x1B; 0x64; 0x06; 0x1B; 0x69].
Proof.
  exact (proj1 (@sendToPrinter_payload sampleRuntime (steadyNetwork 0)
                  (js "10.0.0.7") (NFinite (Qc_of_Z 9100))
                  (Segments [Text (js "A" ++ [EURO]); Raw [0x1D; 0x76]])
                  freshWorld)).
Defined.

(** C5 (amended). [sendToPrinter] fails with [InvalidAddress] exactly when
    the trimmed ip is empty or the port is not a finite number greater than
    0 (whether the port is an integer is not looked at), and then nothing is
    sent: the world is as before. [safePrint] queries the status first, on
    whatever address it is given, and turns every failure into a queued
    job: with such an address the job is always added to the retry queue. *)
Theorem sendToPrinter_address_guard `{Runtime} `{Network} (ip : jstring)
    (port : JsNum) (data : PrintData) (w : World) :
  ((sendToPrinter ip port data w).1 = Rejected InvalidAddress
   <-> trim ip = [] \/ ~ FinitePositive port)
  /\ ((sendToPrinter ip port data w).1 = Rejected InvalidAddress ->
      (sendToPrinter ip port data w).2 = w)
  /\ ((sendToPrinter ip port data w).1 = Rejected InvalidAddress ->
      forall printerId m,
      exists job,
        queue (safePrint printerId ip port data (m, w)).1 = queue m ++ [job]
        /\ Queue.printerId job = printerId /\ Queue.ip job = ip
        /\ Queue.port job = port /\ Queue.data job = data
        /\ attempts job = 0).
Proof.
  rewrite sendToPrinter_rejects_iff. split_and!.
  - apply invalidAddress_spec.
  - intros E. by rewrite sendToPrinter_invalid.
  - intros E printerId m. unfold safePrint.
    destruct (getPrinterStatus ip port w) as [[status|e] w1].
    + destruct status; rewrite ?sendToPrinter_invalid by done;
        eexists; (split; [reflexivity|done]).
    + eexists; (split; [reflexivity|done]).
Qed.

(** A blank ip: the send is rejected and [safePrint] queues the job. *)
Lemma sendToPrinter_address_guard_witness :
  exists job,
    queue (@safePrint sampleRuntime (steadyNetwork 0) (js "P1") (js " ")
             (NFinite (Qc_of_Z 9100)) (Single (Text (js "x")))
             (emptyQueue, freshWorld)).1 = queue emptyQueue ++ [job]
    /\ printerId job = js "P1" /\ ip job = js " "
    /\ port job = NFinite (Qc_of_Z 9100)
    /\ data job = Single (Text (js "x"))
    /\ attempts job = 0.
Proof.
  destruct (@sendToPrinter_address_guard sampleRuntime (steadyNetwork 0)
              (js " ") (NFinite (Qc_of_Z 9100)) (Single (Text (js "x")))
              freshWorld) as (_ & _ & Hq).
  exact (Hq eq_refl (js "P1") emptyQueue).
Defined.

(** C5, as stated, fails: with ip [""] and port [0] the send is rejected
    with [InvalidAddress], and [safePrint] puts the job in the queue. *)
Lemma invalid_address_job_is_queued :
  (@sendToPrinter sampleRuntime (steadyNetwork 0) [] (NFinite 0%Qc)
     (Single (Text (js "x"))) freshWorld).1 = Rejected InvalidAddress
  /\ length (queue (@safePrint sampleRuntime (steadyNetwork 0) (js "P1") []
                      (NFinite 0%Qc) (Single (Text (js "x")))
                      (emptyQueue, freshWorld)).1) = 1%nat.
Proof. split; reflexivity. Qed.

(** ** Enqueueing *)

Section AddFacts.

Context `{Runtime} `{Network}.

Implicit Types (st : PrintQueueManager * World) (w : World).

Lemma addRequest_spec (r : Enqueue) st :
  exists job,
    queue (addRequest r st).1 = queue st.1 ++ [job]
    /\ job_id job = tokenOf (draws st.2)
    /\ attempts job = 0
    /\ draws (addRequest r st).2 = S (draws st.2).
Proof.
  destruct r as [[[p i] po] d], st as [m w]. unfold addRequest, add.
  eexists. cbn [fst snd queue draws]. by split_and!.
Qed.

Lemma sendToPrinter_draws ip0 port0 data0 w :
  draws (sendToPrinter ip0 port0 data0 w).2 = draws w.
Proof.
  unfold sendToPrinter. destruct (invalidAddress _ _); [done|].
  by destruct (sendOutcome _).
Qed.

Lemma getPrinterStatus_draws ip0 port0 w :
  draws (getPrinterStatus ip0 port0 w).2 = draws w.
Proof. unfold getPrinterStatus. by destruct (statusOutcome _). Qed.

Lemma sendJobs_draws (jobs : list PrintJob) : forall rem w,
  draws (sendJobs jobs (rem, w)).2 = draws w.
Proof.
  induction jobs as [|job jobs IH]; intros rem w; [done|].
  unfold sendJobs in *. cbn [foldl].
  pose proof (sendToPrinter_draws (ip job) (port job) (data job) w) as Hd.
  destruct (sendToPrinter (ip job) (port job) (data job) w) as [[u|e] w1];
    cbn [snd] in Hd; cbv beta iota; by rewrite IH.
Qed.

Lemma processGroup_draws (group : jstring * list PrintJob) rem w :
  draws (processGroup (rem, w) group).2 = draws w.
Proof.
  unfold processGroup. destruct group.2 as [|job0 jobs]; [done|].
  pose proof (getPrinterStatus_draws (ip job0) (port job0) w) as Hd.
  destruct (getPrinterStatus (ip job0) (port job0) w) as [[status|e] w1];
    cbn [snd] in Hd; [|done].
  destruct status; try done; by rewrite sendJobs_draws.
Qed.

Lemma processQueue_draws st : draws (processQueue st).2 = draws st.2.
Proof.
  destruct st as [m w]. unfold processQueue.
  destruct (isProcessing m); [done|]. case_bool_decide; [done|].
  assert (G : forall groups rem w0,
             draws (foldl processGroup (rem, w0) groups).2 = draws w0).
  { induction groups as [|g groups IH]; intros rem w0; [done|].
    cbn [foldl]. destruct (processGroup (rem, w0) g) as [rem1 w1] eqn:E.
    rewrite IH. change w1 with (rem1, w1).2. rewrite <- E.
    apply processGroup_draws. }
  specialize (G (groupJobs (queue m)) [] w).
  by destruct (foldl processGroup _ _).
Qed.

End AddFacts.

(** C9 (amended). The id of a job is the random token of the draw that
    [add] makes for it: over any sequence of calls of [add], with sweeps of
    the queue in between or not, the ids assigned are the tokens of the
    consecutive draws, in the order of the calls, and each call puts its job
    at the end of the queue. Nothing orders the tokens. *)
Theorem job_ids_are_random_tokens `{Runtime} `{Network}
    (calls : list QueueCall) (st : PrintQueueManager * World) :
  idsAssigned calls st = tokenOf <$> seq (draws st.2) (enqueues calls)
  /\ (forall r,
        exists job,
          queue (addRequest r st).1 = queue st.1 ++ [job]
          /\ job_id job = tokenOf (draws st.2)).
Proof.
  split.
  - revert st. induction calls as [|[r|] calls IH]; intros st; [done|..].
    + cbn [idsAssigned enqueues seq fmap list_fmap].
      destruct (addRequest_spec r st) as (job & Hq & Hid & _ & Hd).
      rewrite IH, Hq, last_snoc, Hd. cbn. by rewrite Hid.
    + cbn [idsAssigned enqueues]. by rewrite IH, processQueue_draws.
  - intros r. destruct (addRequest_spec r st) as (job & Hq & Hid & _).
    by exists job.
Qed.

(** C9, as stated, fails: the ids come from [Math.random]. When the first
    draw prints as [0.zzzzzzzzzz] and the second as [0.aaaaaaaaaa], the job
    added second has the id [aaaaa], which is not greater than the id
    [zzzzz] of the job added first. *)
Lemma job_ids_not_increasing :
  exists job1 job2,
    queue (@addAll sampleRuntime
             [(js "P1", js "10.0.0.7", NFinite (Qc_of_Z 9100),
               Single (Text (js "a")));
              (js "P1", js "10.0.0.7", NFinite (Qc_of_Z 9100),
               Single (Text (js "b")))]
             (emptyQueue, freshWorld)).1 = [job1; job2]
    /\ job_id job1 = js "zzzzz" /\ job_id job2 = js "aaaaa"
    /\ jstring_ltb (job_id job1) (job_id job2) = false.
Proof. do 2 eexists. split; [reflexivity|]. by split_and!. Qed.

(* ===================================================================== *)
(** * The sweep of the delivery queue *)
(* ===================================================================== *)

Section GroupingFacts.

Implicit Types (l : list jstring) (q : list PrintJob) (k : jstring).

Lemma elem_of_firstOccurrences l k : k ∈ firstOccurrences l <-> k ∈ l.
Proof.
  induction l as [|x l IH]; simpl; [done|].
  rewrite !elem_of_cons, list_elem_of_filter, IH.
  destruct (decide (k = x)); tauto.
Qed.

Lemma NoDup_firstOccurrences l : NoDup (firstOccurrences l).
Proof.
  induction l as [|x l IH]; simpl; [constructor|].
  constructor; [|by apply NoDup_filter].
  rewrite list_elem_of_filter. by intros [? _].
Qed.

Lemma firstOccurrences_snoc l k :
  firstOccurrences (l ++ [k])
  = if decide (k ∈ l) then firstOccurrences l else firstOccurrences l ++ [k].
Proof.
  induction l as [|x l IH]; simpl; [done|]. rewrite IH.
  destruct (decide (k ∈ l)) as [Hin|Hin].
  - rewrite decide_True by (by right). done.
  - rewrite filter_app. destruct (decide (k = x)) as [->|Hne].
    + rewrite decide_True by (by left).
      rewrite filter_cons_False by (by intros ?). by rewrite app_nil_r.
    + rewrite decide_False by (rewrite elem_of_cons; tauto).
      by rewrite filter_cons_True.
Qed.

Lemma mapPush_fresh {V} (f : jstring -> list V) l k (v : V) :
  k ∉ l ->
  mapPush k v ((fun p => (p, f p)) <$> l)
  = ((fun p => (p, f p)) <$> l) ++ [(k, [v])].
Proof.
  induction l as [|x l IH]; [done|].
  rewrite not_elem_of_cons. intros [Hne Hin].
  rewrite fmap_cons. cbn [mapPush].
  rewrite decide_False by done. by rewrite IH.
Qed.

Lemma mapPush_known {V} (f : jstring -> list V) l k (v : V) :
  NoDup l -> k ∈ l ->
  mapPush k v ((fun p => (p, f p)) <$> l)
  = (fun p => (p, if decide (p = k) then f p ++ [v] else f p)) <$> l.
Proof.
  induction l as [|x l IH]; [by intros _ ?%elem_of_nil|].
  intros [Hx Hl]%NoDup_cons Hin. rewrite !fmap_cons. cbn [mapPush].
  destruct (decide (x = k)) as [->|Hne].
  - f_equal. apply list_fmap_ext. intros i p Hp.
    rewrite decide_False; [done|]. intros ->.
    apply Hx. by eapply list_elem_of_lookup_2.
  - f_equal. apply IH; [done|]. apply elem_of_cons in Hin.
    by destruct Hin as [->|?].
Qed.

Lemma jobsOf_snoc k q job :
  jobsOf k (q ++ [job])
  = jobsOf k q ++ (if decide (printerId job = k) then [job] else []).
Proof.
  unfold jobsOf. by rewrite filter_app.
Qed.

Lemma jobsOf_absent k q : k ∉ printerId <$> q -> jobsOf k q = [].
Proof.
  intros Hk. unfold jobsOf. induction q as [|job q IH]; [done|].
  rewrite fmap_cons, not_elem_of_cons in Hk. destruct Hk as [Hne Hk].
  rewrite filter_cons_False by done. by apply IH.
Qed.

Lemma jobsOf_present k q : k ∈ printerId <$> q -> jobsOf k q <> [].
Proof.
  intros (job & -> & Hin)%list_elem_of_fmap. unfold jobsOf.
  intros E. assert (Hj : job ∈ filter (fun j => printerId j = printerId job) q)
    by (by apply list_elem_of_filter).
  rewrite E in Hj. by apply elem_of_nil in Hj.
Qed.

(** Jobs are grouped by printer id: the map built by the sweep has the
    printer ids in the order of their first job, each with its jobs in
    queue order. *)
Lemma groupJobs_spec q :
  groupJobs q
  = (fun pid => (pid, jobsOf pid q)) <$> firstOccurrences (printerId <$> q).
Proof.
  unfold groupJobs. induction q as [|job q IH] using rev_ind; [done|].
  rewrite foldl_app. cbn [foldl]. rewrite IH.
  rewrite fmap_app. cbn [fmap list_fmap]. rewrite firstOccurrences_snoc.
  set (k := printerId job).
  destruct (decide (k ∈ printerId <$> q)) as [Hin|Hin].
  - rewrite mapPush_known;
      [|apply NoDup_firstOccurrences|by apply elem_of_firstOccurrences].
    apply list_fmap_ext. intros i p Hp. rewrite jobsOf_snoc. fold k.
    destruct (decide (p = k)) as [->|Hne].
    + by rewrite decide_True.
    + rewrite decide_False by done. by rewrite app_nil_r.
  - rewrite mapPush_fresh by (by rewrite elem_of_firstOccurrences).
    rewrite fmap_app. cbn [fmap list_fmap]. f_equal.
    + apply list_fmap_ext. intros i p Hp. rewrite jobsOf_snoc. fold k.
      rewrite decide_False; [by rewrite app_nil_r|]. intros ->.
      apply Hin, elem_of_firstOccurrences. by eapply list_elem_of_lookup_2.
    + rewrite jobsOf_snoc. fold k. rewrite decide_True by done.
      by rewrite jobsOf_absent.
Qed.

End GroupingFacts.

Section PartitionFacts.

Implicit Types (L : list jstring) (q : list PrintJob).

Lemma jobsOf_cons pid job q :
  jobsOf pid (job :: q)
  = if decide (printerId job = pid) then job :: jobsOf pid q else jobsOf pid q.
Proof. done. Qed.

Lemma groups_cons_other L job q :
  printerId job ∉ L ->
  (fun pid => jobsOf pid (job :: q)) <$> L = (fun pid => jobsOf pid q) <$> L.
Proof.
  intros Hk. apply list_fmap_ext. intros i p Hp.
  rewrite jobsOf_cons, decide_False; [done|]. intros E. apply Hk.
  rewrite E. by eapply list_elem_of_lookup_2.
Qed.

Lemma groups_cons_perm L job q :
  NoDup L -> printerId job ∈ L ->
  mjoin ((fun pid => jobsOf pid (job :: q)) <$> L)
  ≡ₚ job :: mjoin ((fun pid => jobsOf pid q) <$> L).
Proof.
  induction L as [|p L IH]; [by intros _ ?%elem_of_nil|].
  intros [Hp Hl]%NoDup_cons Hin. rewrite !fmap_cons. cbn [mjoin list_join].
  rewrite jobsOf_cons. destruct (decide (printerId job = p)) as [E|Hne].
  - rewrite groups_cons_other by (by rewrite E). done.
  - apply elem_of_cons in Hin as [?|Hin]; [done|].
    rewrite IH by done. by rewrite Permutation_middle.
Qed.

(** Every job of the queue is in exactly one group. *)
Lemma groupsOf_perm q : mjoin (groupsOf q) ≡ₚ q.
Proof.
  unfold groupsOf.
  assert (G : forall L, NoDup L -> (forall k, k ∈ printerId <$> q -> k ∈ L) ->
                        mjoin ((fun pid => jobsOf pid q) <$> L) ≡ₚ q).
  { induction q as [|job q IH]; intros L HL Hall.
    - clear. induction L as [|p L IH]; [done|]. by rewrite fmap_cons.
    - rewrite groups_cons_perm; [|done|apply Hall; by left].
      f_equiv. apply IH; [done|]. intros k Hk. apply Hall. by right. }
  apply G; [apply NoDup_firstOccurrences|].
  intros k Hk. by apply elem_of_firstOccurrences.
Qed.

Lemma groupsOf_nonempty q : Forall (fun jobs => jobs <> []) (groupsOf q).
Proof.
  unfold groupsOf. apply Forall_fmap, Forall_forall. intros pid Hp. simpl.
  by apply jobsOf_present, elem_of_firstOccurrences.
Qed.

End PartitionFacts.

Section SweepFacts.

Context `{Runtime} `{Network}.

Lemma queries_app (e1 e2 : list Event) :
  queries (e1 ++ e2) = (queries e1 + queries e2)%nat.
Proof. unfold queries. by rewrite List.filter_app, length_app. Qed.

Lemma sendToPrinter_log ip port data w :
  exists events,
    log (sendToPrinter ip port data w).2 = log w ++ events
    /\ queries events = 0%nat.
Proof.
  unfold sendToPrinter. destruct (invalidAddress ip port).
  - exists []. by rewrite app_nil_r.
  - eexists [_]. by destruct (sendOutcome (conns w)).
Qed.

Lemma getPrinterStatus_log ip port w :
  log (getPrinterStatus ip port w).2
  = log w ++ [Query ip port [0x10; 0x04; 0x04]].
Proof. unfold getPrinterStatus. by destruct (statusOutcome (conns w)). Qed.

Lemma sendJobs_spec (jobs : list PrintJob) : forall acc w,
  exists kept w' events,
    sendJobs jobs (acc, w) = (acc ++ kept, w')
    /\ Attempted w jobs kept w'
    /\ kept `sublist_of` jobs
    /\ log w' = log w ++ events /\ queries events = 0%nat.
Proof.
  induction jobs as [|job jobs IH]; intros acc w.
  - exists [], w, []. rewrite !app_nil_r. split_and!; try done. constructor.
  - unfold sendJobs. cbn [foldl].
    destruct (sendToPrinter_log (ip job) (port job) (data job) w)
      as (ev1 & Hlog1 & Hq1).
    destruct (sendToPrinter (ip job) (port job) (data job) w)
      as [[[]|e] w1] eqn:E; simpl in Hlog1.
    + destruct (IH acc w1) as (kept & w' & ev & Hs & Ha & Hsub & Hlog & Hq).
      exists kept, w', (ev1 ++ ev). split_and!.
      * exact Hs.
      * by eapply attempted_sent.
      * by apply sublist_cons.
      * by rewrite Hlog, Hlog1, app_assoc.
      * rewrite queries_app. lia.
    + destruct (IH (acc ++ [job]) w1)
        as (kept & w' & ev & Hs & Ha & Hsub & Hlog & Hq).
      exists (job :: kept), w', (ev1 ++ ev). split_and!.
      * unfold sendJobs in Hs. rewrite Hs. by rewrite <- app_assoc.
      * by eapply attempted_failed.
      * by apply sublist_skip.
      * by rewrite Hlog, Hlog1, app_assoc.
      * rewrite queries_app. lia.
Qed.

Lemma processGroup_spec (pid : jstring) (jobs : list PrintJob) acc w :
  jobs <> [] ->
  exists kept w' events,
    processGroup (acc, w) (pid, jobs) = (acc ++ kept, w')
    /\ GroupSwept w jobs kept w'
    /\ kept `sublist_of` jobs
    /\ log w' = log w ++ events /\ queries events = 1%nat.
Proof.
  destruct jobs as [|job0 jobs]; [done|]. intros _.
  unfold processGroup. cbn [snd].
  pose proof (getPrinterStatus_log (ip job0) (port job0) w) as Hlog0.
  destruct (getPrinterStatus (ip job0) (port job0) w) as [[status|e] w1] eqn:E;
    simpl in Hlog0.
  - assert (Hready :
      status = OK \/ status = CARTA_QUASI_FINITA ->
      exists kept w' events,
        sendJobs (job0 :: jobs) (acc, w1) = (acc ++ kept, w')
        /\ GroupSwept w (job0 :: jobs) kept w'
        /\ kept `sublist_of` job0 :: jobs
        /\ log w' = log w ++ events /\ queries events = 1%nat).
    { intros Hst.
      destruct (sendJobs_spec (job0 :: jobs) acc w1)
        as (kept & w' & ev & Hs & Ha & Hsub & Hlog & Hq).
      exists kept, w', ([Query (ip job0) (port job0) [0x10; 0x04; 0x04]] ++ ev).
      split_and!; try done.
      - by eapply group_ready.
      - by rewrite Hlog, Hlog0, <- app_assoc.
      - rewrite queries_app, Hq. done. }
    destruct status; [apply Hready; auto..|].
    eexists _, w1, [_]. split_and!; try done. by apply group_paper_out.
  - eexists _, w1, [_]. split_and!; try done. by eapply group_check_failed.
Qed.

Lemma foldl_processGroup_spec (groups : list (jstring * list PrintJob)) :
  forall acc w,
  Forall (fun jobs => jobs <> []) (groups.*2) ->
  exists kept w' events,
    foldl processGroup (acc, w) groups = (acc ++ kept, w')
    /\ Swept w (groups.*2) kept w'
    /\ kept ⊆+ mjoin (groups.*2)
    /\ log w' = log w ++ events /\ queries events = length groups.
Proof.
  induction groups as [|[pid jobs] groups IH]; intros acc w Hne.
  - exists [], w, []. rewrite !app_nil_r. split_and!; try done. constructor.
  - rewrite fmap_cons in Hne. apply Forall_cons in Hne as [Hj Hne].
    cbn [foldl].
    destruct (processGroup_spec pid jobs acc w Hj)
      as (kept1 & w1 & ev1 & -> & Hg & Hsub1 & Hlog1 & Hq1).
    destruct (IH (acc ++ kept1) w1 Hne)
      as (kept2 & w2 & ev2 & -> & Hs & Hsub2 & Hlog2 & Hq2).
    exists (kept1 ++ kept2), w2, (ev1 ++ ev2). split_and!.
    + by rewrite <- app_assoc.
    + rewrite fmap_cons. by eapply swept_cons.
    + rewrite fmap_cons. cbn [mjoin list_join snd].
      apply submseteq_app; [by apply sublist_submseteq|done].
    + by rewrite Hlog2, Hlog1, <- app_assoc.
    + rewrite queries_app, Hq1, Hq2. done.
Qed.

Lemma groupJobs_groups q : (groupJobs q).*2 = groupsOf q.
Proof.
  rewrite groupJobs_spec. unfold groupsOf.
  rewrite <- list_fmap_compose. done.
Qed.

End SweepFacts.

(* ===================================================================== *)
(** * The sweep and the jobs added while it runs *)
(* ===================================================================== *)

Section InterleavedSweep.

Context `{Runtime} `{Network}.
Variable arrivals : nat -> list Enqueue.

Implicit Types (s : Sweeping) (w : World) (m : PrintQueueManager).

Lemma add_world printerId ip0 port0 data0 m w :
  (add printerId ip0 port0 data0 (m, w)).2 = withDraws (S (draws w)) w.
Proof. done. Qed.

Lemma addAll_world (reqs : list Enqueue) : forall m w,
  (addAll reqs (m, w)).2 = withDraws (draws w + length reqs) w.
Proof.
  induction reqs as [|r reqs IH]; intros m w.
  - cbn. destruct w. unfold withDraws. cbn. f_equal. lia.
  - unfold addAll. cbn [foldl]. fold (addAll reqs (addRequest r (m, w))).
    destruct r as [[[p i] po] d]. unfold addRequest.
    destruct (add p i po d (m, w)) as [m1 w1] eqn:E.
    assert (Hw : w1 = withDraws (S (draws w)) w).
    { change w1 with (m1, w1).2. rewrite <- E. apply add_world. }
    rewrite IH, Hw. unfold withDraws. cbn. f_equal. lia.
Qed.

Lemma suspended_spec w s :
  sw_remaining (suspended arrivals w s) = sw_remaining s
  /\ exists d, sw_world (suspended arrivals w s) = withDraws d w.
Proof.
  unfold suspended.
  destruct (addAll (arrivals (sw_awaits s)) (sw_manager s, w)) as [m w'] eqn:E.
  split; [done|]. cbn. exists (draws w + length (arrivals (sw_awaits s)))%nat.
  change w' with (m, w').2. rewrite <- E. apply addAll_world.
Qed.

Lemma sendToPrinter_withDraws ip0 port0 data0 d w :
  sendToPrinter ip0 port0 data0 (withDraws d w)
  = ((sendToPrinter ip0 port0 data0 w).1,
     withDraws d (sendToPrinter ip0 port0 data0 w).2).
Proof.
  unfold sendToPrinter. destruct (invalidAddress ip0 port0); [done|].
  cbn [conns withDraws]. by destruct (sendOutcome (conns w)).
Qed.

Lemma getPrinterStatus_withDraws ip0 port0 d w :
  getPrinterStatus ip0 port0 (withDraws d w)
  = ((getPrinterStatus ip0 port0 w).1,
     withDraws d (getPrinterStatus ip0 port0 w).2).
Proof.
  unfold getPrinterStatus. cbn [conns withDraws].
  by destruct (statusOutcome (conns w)).
Qed.

Lemma withDraws_withDraws d d' w : withDraws d (withDraws d' w) = withDraws d w.
Proof. done. Qed.

Lemma suspended_Follows w d s rem :
  sw_remaining s = rem ->
  Follows (suspended arrivals (withDraws d w) s) (rem, w).
Proof.
  intros Hr. destruct (suspended_spec (withDraws d w) s) as (Hrem & d' & Hw).
  split; [by rewrite Hrem|]. exists d'. by rewrite Hw.
Qed.

Lemma keep_Follows jobs s rem w :
  Follows s (rem, w) -> Follows (keep jobs s) (rem ++ jobs, w).
Proof. intros [Hr Hw]. split; [cbn; by rewrite Hr|done]. Qed.

Lemma sendJobsDuring_Follows (jobs : list PrintJob) : forall s st,
  Follows s st -> Follows (sendJobsDuring arrivals jobs s) (sendJobs jobs st).
Proof.
  induction jobs as [|job jobs IH]; intros s [rem w] Hf; [done|].
  unfold sendJobsDuring, sendJobs. cbn [foldl].
  fold (sendJobsDuring arrivals jobs). 
  destruct Hf as [Hr [d Hw]]. cbn [fst snd] in Hr, Hw. rewrite Hw.
  rewrite sendToPrinter_withDraws.
  destruct (sendToPrinter (ip job) (port job) (data job) w) as [[u|e] w1];
    cbn [fst snd].
  - apply (IH _ (rem, w1)). by apply suspended_Follows.
  - apply (IH _ (rem ++ [job], w1)). apply keep_Follows.
    by apply suspended_Follows.
Qed.

Lemma processGroupDuring_Follows group s st :
  Follows s st ->
  Follows (processGroupDuring arrivals s group) (processGroup st group).
Proof.
  destruct st as [rem w]. intros Hf.
  unfold processGroupDuring, processGroup.
  destruct group.2 as [|job0 jobs] eqn:Eg; [done|].
  destruct Hf as [Hr [d Hw]]. cbn [fst snd] in Hr, Hw. rewrite Hw.
  rewrite getPrinterStatus_withDraws.
  destruct (getPrinterStatus (ip job0) (port job0) w) as [[status|e] w1];
    cbn [fst snd].
  - destruct status;
      (apply sendJobsDuring_Follows || apply keep_Follows);
      by apply suspended_Follows.
  - apply keep_Follows. by apply suspended_Follows.
Qed.

Lemma foldl_processGroupDuring_Follows (groups : list (jstring * list PrintJob)) :
  forall s st,
  Follows s st ->
  Follows (foldl (processGroupDuring arrivals) s groups)
          (foldl processGroup st groups).
Proof.
  induction groups as [|g groups IH]; intros s st Hf; [done|].
  cbn [foldl]. apply IH. by apply processGroupDuring_Follows.
Qed.

(** The queue and the wire after a sweep do not depend on the calls of
    [add] made while it was suspended. *)
Lemma processQueueDuring_spec (m : PrintQueueManager) (w : World) :
  (processQueueDuring arrivals (m, w)).1 = (processQueue (m, w)).1
  /\ exists d,
       (processQueueDuring arrivals (m, w)).2
       = withDraws d (processQueue (m, w)).2.
Proof.
  unfold processQueueDuring, processQueue.
  destruct (isProcessing m); [|destruct (bool_decide _)];
    [split; [done|]; exists (draws w); by destruct w ..|].
  set (s0 := {| sw_manager := _; sw_remaining := []; sw_awaits := 0;
                sw_world := w |}).
  assert (Hf0 : Follows s0 ([], w)).
  { split; [done|]. exists (draws w). by destruct w. }
  pose proof (foldl_processGroupDuring_Follows
                (groupJobs (queue m)) s0 ([], w) Hf0) as [Hr [d Hw]].
  destruct (foldl processGroup ([], w) (groupJobs (queue m))) as [kept w'].
  cbn [fst snd] in *. rewrite Hr. split; [done|]. by exists d.
Qed.

End InterleavedSweep.

(** X27. What a sweep does with the jobs it finds. A sweep that finds
    another sweep running, or an empty queue, does nothing. Otherwise the
    jobs found in the queue are grouped by printer id, the groups in the
    order of their first job; for each group the status is queried once, at
    the address of the first job of the group; on [OK] or
    [CARTA_QUASI_FINITA] every job of the group is attempted via
    [sendToPrinter], and the job goes to the new queue exactly when its send
    fails; on [CARTA_FINITA], and when the status query fails, every job of
    the group goes to the new queue. The new queue is made of jobs found at
    the start, as they were; the sweep makes as many status queries as
    there are groups. *)
Theorem processQueue_sweep `{Runtime} `{Network} (m : PrintQueueManager)
    (w : World) :
  (isProcessing m = true \/ queue m = [] -> processQueue (m, w) = (m, w))
  /\ (isProcessing m = false -> queue m <> [] ->
      exists kept w' events,
        processQueue (m, w) = ({| queue := kept; isProcessing := false |}, w')
        /\ Swept w (groupsOf (queue m)) kept w'
        /\ kept ⊆+ queue m
        /\ log w' = log w ++ events
        /\ queries events = length (groupsOf (queue m))).
Proof.
  split.
  - intros [E|E]; unfold processQueue; rewrite E; [done|].
    by destruct (isProcessing m).
  - intros E Hq. unfold processQueue. rewrite E.
    rewrite bool_decide_eq_false_2 by (by destruct (queue m)).
    destruct (foldl_processGroup_spec (groupJobs (queue m)) [] w)
      as (kept & w' & events & Hf & Hs & Hsub & Hlog & Hn).
    { rewrite groupJobs_groups. apply groupsOf_nonempty. }
    rewrite Hf. rewrite groupJobs_groups in *.
    exists kept, w', events. split_and!; try done.
    + by rewrite groupsOf_perm in Hsub.
    + rewrite Hn. rewrite <- groupJobs_groups. by rewrite length_fmap.
Qed.

(** A sweep over a queue of one job. *)
Lemma processQueue_sweep_witness :
  exists kept w' events,
    @processQueue sampleRuntime paperRefilled (queueOfOne, freshWorld)
    = ({| queue := kept; isProcessing := false |}, w')
    /\ @Swept sampleRuntime paperRefilled freshWorld (groupsOf [sampleJob])
         kept w'
    /\ kept ⊆+ [sampleJob]
    /\ log w' = log freshWorld ++ events
    /\ queries events = length (groupsOf [sampleJob]).
Proof.
  destruct (@processQueue_sweep sampleRuntime paperRefilled queueOfOne
              freshWorld) as [_ Hsweep].
  apply Hsweep; [reflexivity|discriminate].
Defined.

(** X28. The jobs that [add] pushes while a sweep is suspended are dropped.
    A sweep that finds another sweep running, or an empty queue, returns
    before its first [await]. Otherwise, whatever calls of [add] are made
    while it is suspended, the sweep leaves the queue, and puts on the wire,
    exactly what it would without these calls: the new queue is made of
    jobs found at the start, so a job added meanwhile is neither sent nor
    kept. *)
Theorem jobs_added_during_sweep_are_dropped `{Runtime} `{Network}
    (arrivals : nat -> list Enqueue) (m : PrintQueueManager) (w : World) :
  (isProcessing m = true \/ queue m = [] ->
   processQueueDuring arrivals (m, w) = (m, w))
  /\ (isProcessing m = false -> queue m <> [] ->
      (processQueueDuring arrivals (m, w)).1 = (processQueue (m, w)).1
      /\ log (processQueueDuring arrivals (m, w)).2 = log (processQueue (m, w)).2
      /\ conns (processQueueDuring arrivals (m, w)).2
         = conns (processQueue (m, w)).2
      /\ queue (processQueueDuring arrivals (m, w)).1 ⊆+ queue m).
Proof.
  split.
  - intros [E|E]; unfold processQueueDuring; rewrite E; [done|].
    by destruct (isProcessing m).
  - intros E Hq.
    destruct (processQueueDuring_spec arrivals m w) as [Hr [d Hw]].
    rewrite Hr, Hw. split_and!; try done.
    unfold processQueue. rewrite E.
    rewrite bool_decide_eq_false_2 by (by destruct (queue m)).
    destruct (foldl_processGroup_spec (groupJobs (queue m)) [] w)
      as (kept & w' & events & Hf & _ & Hsub & _).
    { rewrite groupJobs_groups. apply groupsOf_nonempty. }
    rewrite Hf. cbn [fst snd queue].
    rewrite groupJobs_groups, groupsOf_perm in Hsub. done.
Qed.

(** C4. A job added while a sweep is suspended is removed from the queue
    without being sent. A sweep finds one job for printer [P1]; while it
    waits for the status of [P1], [add] is called for a job of printer
    [P2]. The printer answers [OK] and accepts the payload: after the sweep
    the queue is empty, and the only payload written is that of the job
    found at the start. *)
Theorem job_added_during_sweep_is_lost :
  let st' :=
    @processQueueDuring sampleRuntime (steadyNetwork 0) lateArrival
      (queueOfOne, freshWorld) in
  queue st'.1 = []
  /\ writes (log st'.2)
     = [Write (js "10.0.0.7") (NFinite (Qc_of_Z 9100))
          (@encodePayload sampleRuntime (Single (Text (js "receipt"))))]
  /\ draws st'.2 = 1%nat.
Proof. by vm_compute. Qed.

(** The paper-out scenario: the printer reports [CARTA_FINITA] to the first
    sweep, which keeps the job as it is and sends nothing; it reports [OK]
    to the second sweep, which delivers the job and removes it. *)
Lemma paper_out_then_delivered :
  let st1 := @processQueue sampleRuntime paperRefilled (queueOfOne, freshWorld) in
  let st2 := @processQueue sampleRuntime paperRefilled st1 in
  queue st1.1 = [sampleJob]
  /\ log st1.2 = [Query (js "10.0.0.7") (NFinite (Qc_of_Z 9100)) [0x10; 0x04; 0x04]]
  /\ queue st2.1 = []
  /\ exists payload,
      log st2.2 = log st1.2
                    ++ [Query (js "10.0.0.7") (NFinite (Qc_of_Z 9100))
                          [0x10; 0x04; 0x04];
                        Write (js "10.0.0.7") (NFinite (Qc_of_Z 9100)) payload].
Proof.
  cbv zeta. split; [by vm_compute|]. split; [by vm_compute|].
  split; [by vm_compute|]. eexists. by vm_compute.
Qed.

(** The same order, with two items for printer [P1], served twice: the
    first receipt for [P1] carries 1, the second 2, and the counter is 3. *)

Section InvalidJobFacts.

Context `{Runtime} `{Network}.




End InvalidJobFacts.



(* ===================================================================== *)
(** * Raster packing *)
(* ===================================================================== *)

Section ByteFacts.

(** Setting a bit of a byte sets that bit and no other. *)
Lemma or_bit_testbit (b k n : Z) :
  0 <= k < 8 -> 0 <= n < 8 ->
  Z.testbit (Z.lor b (Z.shiftl 1 k) mod 256) n = Z.testbit b n || (n =? k).
Proof.
  intros Hk Hn. change 256 with (2 ^ 8).
  rewrite Z.mod_pow2_bits_low by lia.
  rewrite Z.lor_spec, Z.shiftl_1_l, Z.pow2_bits_eqb by lia.
  by rewrite (Z.eqb_sym k n).
Qed.

Lemma or_bit_byte (b k : Z) : 0 <= Z.lor b (Z.shiftl 1 k) mod 256 < 256.
Proof. apply Z.mod_pos_bound. lia. Qed.

End ByteFacts.

Section PackFacts.

Variable getPixelColor : Z -> Z -> Z.
Variables widthBytes itemHeight : Z.
Hypothesis widthBytes_pos : 0 < widthBytes.
Hypothesis itemHeight_nonneg : 0 <= itemHeight.

Local Abbreviation onCanvas := (onCanvas widthBytes itemHeight).
Local Abbreviation byteOf := (byteOf widthBytes).
Local Abbreviation Packed := (Packed getPixelColor widthBytes itemHeight).

Lemma byteOf_lt x y :
  onCanvas x y -> (byteOf x y < Z.to_nat (widthBytes * itemHeight))%nat.
Proof.
  intros [Hx Hy]. unfold byteOf.
  assert (0 <= x / 8 < widthBytes)
    by (split; [apply Z.div_pos; lia | apply Z.div_lt_upper_bound; lia]).
  apply Z2Nat.inj_lt; nia.
Qed.

(** Two pixels of the canvas with the same byte and the same bit are the
    same pixel. *)
Lemma byteOf_inj x y x' y' :
  onCanvas x y -> onCanvas x' y' ->
  byteOf x y = byteOf x' y' -> 7 - x mod 8 = 7 - x' mod 8 ->
  x = x' /\ y = y'.
Proof.
  intros [Hx Hy] [Hx' Hy'] Hb Hm. unfold byteOf in Hb.
  assert (0 <= x / 8 < widthBytes)
    by (split; [apply Z.div_pos; lia | apply Z.div_lt_upper_bound; lia]).
  assert (0 <= x' / 8 < widthBytes)
    by (split; [apply Z.div_pos; lia | apply Z.div_lt_upper_bound; lia]).
  apply Z2Nat.inj in Hb; [|nia|nia].
  assert (y = y') by nia. subst y'.
  assert (x / 8 = x' / 8) by lia.
  split; [|done].
  rewrite (Z.div_mod x 8), (Z.div_mod x' 8) by lia. lia.
Qed.

Lemma Packed_start :
  Packed (fun _ _ => False)
         (replicate (Z.to_nat (widthBytes * itemHeight)) 0).
Proof.
  split; [apply length_replicate|].
  intros x y Hc. exists 0. split; [|split; [lia|split]].
  - apply lookup_replicate_2. by apply byteOf_lt.
  - by rewrite Z.bits_0.
  - done.
Qed.

Lemma Packed_weaken (seen seen' : Z -> Z -> Prop) data :
  (forall x y, onCanvas x y -> seen' x y -> seen x y) ->
  Packed seen data -> Packed seen' data.
Proof.
  intros Hs [Hl Hp]. split; [done|]. intros x y Hc.
  destruct (Hp x y Hc) as (b & ? & ? & ? & Hcompl). exists b.
  repeat (split; [done|]). intros Hs'. apply Hcompl. by apply Hs.
Qed.

Lemma packPixel_Packed seen data x0 y0 :
  onCanvas x0 y0 ->
  Packed seen data ->
  Packed (fun x y => seen x y \/ (x = x0 /\ y = y0))
         (packPixel getPixelColor widthBytes y0 data x0).
Proof.
  intros Hc0 [Hl Hp]. unfold packPixel.
  destruct (isBlack (getPixelColor x0 y0)) eqn:Hblack.
  - unfold orByte. fold (byteOf x0 y0).
    split; [by rewrite length_alter|].
    intros x y Hc. destruct (Hp x y Hc) as (b & Hb & Hr & Hsound & Hcompl).
    assert (Hbit : 0 <= 7 - x mod 8 < 8)
      by (pose proof (Z.mod_pos_bound x 8); lia).
    assert (Hbit0 : 0 <= 7 - x0 mod 8 < 8)
      by (pose proof (Z.mod_pos_bound x0 8); lia).
    destruct (decide (byteOf x0 y0 = byteOf x y)) as [E|Hne].
    + rewrite E, list_lookup_alter_eq, Hb. eexists. split; [reflexivity|].
      split; [apply or_bit_byte|]. rewrite or_bit_testbit by done.
      destruct (Z.eqb_spec (7 - x mod 8) (7 - x0 mod 8)) as [Em|Hm].
      * destruct (byteOf_inj x y x0 y0) as [-> ->]; try done.
        rewrite orb_true_r. split; auto.
      * rewrite orb_false_r. split; [done|].
        intros [Hs|[-> ->]]; [by auto|]. lia.
    + rewrite list_lookup_alter_ne by done. exists b.
      repeat (split; [done|]).
      intros [Hs|[-> ->]]; [by auto|]. done.
  - split; [done|]. intros x y Hc.
    destruct (Hp x y Hc) as (b & Hb & Hr & Hsound & Hcompl).
    exists b. repeat (split; [done|]).
    intros [Hs|[-> ->]]; [by auto|]. congruence.
Qed.

Lemma packRow_Packed (xs : list Z) : forall seen data y0,
  0 <= y0 < itemHeight ->
  Forall (fun x => 0 <= x < widthBytes * 8) xs ->
  Packed seen data ->
  Packed (fun x y => seen x y \/ (x ∈ xs /\ y = y0))
         (foldl (packPixel getPixelColor widthBytes y0) data xs).
Proof.
  induction xs as [|x0 xs IH]; intros seen data y0 Hy Hxs Hp.
  - eapply Packed_weaken; [|exact Hp]. simpl.
    intros x y _ [?|[?%elem_of_nil _]]; done.
  - apply Forall_cons in Hxs as [Hx0 Hxs]. cbn [foldl].
    eapply Packed_weaken; [|apply IH; [done|done|]].
    2:{ apply packPixel_Packed; [by split|exact Hp]. }
    simpl. intros x y _ [?|[Hin ->]]; [by left; left|].
    apply elem_of_cons in Hin as [->|?]; [by left; right|by right].
Qed.

Lemma packRows_Packed (ys : list Z) : forall seen data,
  Forall (fun y => 0 <= y < itemHeight) ys ->
  Packed seen data ->
  Packed (fun x y => seen x y \/ (0 <= x < widthBytes * 8 /\ y ∈ ys))
         (foldl (packRow getPixelColor widthBytes (widthBytes * 8)) data ys).
Proof.
  induction ys as [|y0 ys IH]; intros seen data Hys Hp.
  - eapply Packed_weaken; [|exact Hp]. simpl.
    intros x y _ [?|[_ ?%elem_of_nil]]; done.
  - apply Forall_cons in Hys as [Hy0 Hys]. cbn [foldl].
    eapply Packed_weaken; [|apply IH; [done|]].
    2:{ unfold packRow. apply packRow_Packed; [done| |exact Hp].
        apply Forall_forall. intros x Hx%elem_of_seqZ. lia. }
    simpl. intros x y _ [?|[Hx Hin]]; [by left; left|].
    apply elem_of_cons in Hin as [->|?]; [|by right].
    left. right. split; [|done]. apply elem_of_seqZ. lia.
Qed.

End PackFacts.

(** C7. For a canvas of height [itemHeight] and a paper width of
    [paperWidth] dots (384 when none is given), the block returned is the
    8-byte raster header followed by the packed bitmap; the bitmap has
    exactly [ceil(paperWidth / 8) * itemHeight] bytes; and pixel [(x, y)]
    of the canvas is bit [7 - x mod 8] (the most significant bit first) of
    byte [y * ceil(paperWidth / 8) + x / 8] (row after row, 8 pixels a
    byte), set exactly when the pixel is black. *)
Theorem packBitmap_layout (getPixelColor : Z -> Z -> Z)
    (paperWidth : option Z) (itemHeight : Z) :
  0 < paperWidthOf paperWidth -> 0 <= itemHeight ->
  let widthBytes := widthBytesOf (paperWidthOf paperWidth) in
  (8 * (widthBytes - 1) < paperWidthOf paperWidth <= 8 * widthBytes)
  /\ length (rasterHeader paperWidth itemHeight) = 8%nat
  /\ drop 8 (rasterBlock getPixelColor paperWidth itemHeight)
     = packBitmap getPixelColor paperWidth itemHeight
  /\ Z.of_nat (length (packBitmap getPixelColor paperWidth itemHeight))
     = widthBytes * itemHeight
  /\ (forall x y,
        0 <= x < widthBytes * 8 -> 0 <= y < itemHeight ->
        exists b,
          packBitmap getPixelColor paperWidth itemHeight
            !! Z.to_nat (y * widthBytes + x / 8) = Some b
          /\ 0 <= b < 256
          /\ Z.testbit b (7 - x mod 8) = isBlack (getPixelColor x y)).
Proof.
  intros Hw Hh widthBytes.
  assert (Hceil : 8 * (widthBytes - 1) < paperWidthOf paperWidth
                  <= 8 * widthBytes).
  { subst widthBytes. unfold widthBytesOf.
    pose proof (Z.div_mod (paperWidthOf paperWidth + 7) 8).
    pose proof (Z.mod_pos_bound (paperWidthOf paperWidth + 7) 8). lia. }
  assert (Hwb : 0 < widthBytes) by lia.
  assert (HP : Packed getPixelColor widthBytes itemHeight
                 (fun x y => False
                             \/ (0 <= x < widthBytes * 8
                                 /\ y ∈ seqZ 0 itemHeight))
                 (packBitmap getPixelColor paperWidth itemHeight)).
  { unfold packBitmap. fold widthBytes.
    apply packRows_Packed; [done| |by apply Packed_start].
    apply Forall_forall. intros y Hy%elem_of_seqZ. lia. }
  destruct HP as [Hlen Hpix]. split; [done|]. split; [done|].
  split; [done|]. split; [rewrite Hlen; nia|].
  intros x y Hx Hy.
  destruct (Hpix x y (conj Hx Hy)) as (b & Hb & Hr & Hsound & Hcompl).
  exists b. split; [done|]. split; [done|].
  destruct (isBlack (getPixelColor x y)) eqn:E.
  - apply Hcompl; [|done]. right. split; [done|]. apply elem_of_seqZ. lia.
  - destruct (Z.testbit b (7 - x mod 8)); [|done].
    symmetry. by apply Hsound.
Qed.

(** A canvas of 12 dots by 2 rows, padded to 16 dots: two bytes a row, the
    black first column in the top bit of the first byte of each row. *)
Lemma packBitmap_layout_witness :
  packBitmap firstColumnBlack (Some 12) 2 = [0x80; 0x00; 0x80; 0x00]
  /\ Z.of_nat (length (packBitmap firstColumnBlack (Some 12) 2)) = 2 * 2
  /\ exists b,
       packBitmap firstColumnBlack (Some 12) 2 !! Z.to_nat (1 * 2 + 0 / 8)
       = Some b
       /\ 0 <= b < 256
       /\ Z.testbit b (7 - 0 mod 8) = isBlack (firstColumnBlack 0 1).
Proof.
  destruct (packBitmap_layout firstColumnBlack (Some 12) 2)
    as (_ & _ & _ & Hlen & Hpix); [reflexivity|discriminate|].
  split; [reflexivity|]. split; [exact Hlen|].
  apply (Hpix 0 1); split; (reflexivity || discriminate).
Defined.

(* ===================================================================== *)
(** * Progress counters *)
(* ===================================================================== *)

Section ProgressFacts.

Context `{Runtime} `{Network}.
Variable fuel : nat.
Variable resolvePrinter : IncomingOrder -> jstring -> option PrinterTarget.

Implicit Types (srv : Server) (history : list KitchenPrint) (pid : jstring).

Lemma readProperty_write (counters : gmap jstring Counter) (k pid : jstring)
    (v : Counter) :
  ordinaryId pid ->
  readProperty (writeProperty k v counters) pid
  = if decide (k = pid) then Some v else readProperty counters pid.
Proof.
  intros Hpid. unfold writeProperty, readProperty.
  destruct (decide (k = pid)) as [->|Hne].
  - case_bool_decide as Hp; [by rewrite Hp in Hpid|].
    by rewrite lookup_insert_eq.
  - case_bool_decide; [done|]. by rewrite lookup_insert_ne.
Qed.

Lemma kitchenPrint_inv order st st' entry :
  kitchenPrint fuel (resolvePrinter order) order st entry = Some st' ->
  exists receipt out,
    buildKitchenReceiptOf_out fuel order entry.2
      (counterText (counterOf st.1 entry.1)) = Some out
    /\ receipt = join [NL] out
    /\ st'.2 = st.2 ++ [{| kp_printerId := entry.1;
                           kp_progress := counterOf st.1 entry.1;
                           kp_receipt := receipt |}]
    /\ progressCounters st'.1
       = writeProperty entry.1 (plusOne (counterOf st.1 entry.1))
           (progressCounters st.1).
Proof.
  destruct st as [srv history], entry as [pid lines]. unfold kitchenPrint.
  fold (counterOf srv pid). unfold buildKitchenReceiptOf.
  destruct (buildKitchenReceiptOf_out fuel order lines
              (counterText (counterOf srv pid))) as [out|] eqn:E; [|done].
  cbn [fmap option_fmap option_map mbind option_bind].
  destruct (resolvePrinter order pid) as [pr|].
  - destruct (safePrint _ _ _ _ _) as [q w]. intros [= <-].
    by exists (join [NL] out), out.
  - intros [= <-]. by exists (join [NL] out), out.
Qed.

Lemma buildKitchenReceiptOf_out_progr order lines progress out :
  buildKitchenReceiptOf_out fuel order lines progress = Some out ->
  out !! 5%nat = Some (progrLineOf progress).
Proof.
  unfold buildKitchenReceiptOf_out.
  destruct (kitchenItems fuel (kitchenHeaderOf order progress) lines)
    as [out'|] eqn:E; [|done].
  cbn [mbind option_bind]. intros [= <-].
  assert (G : forall ls hd out',
             kitchenItems fuel hd ls = Some out' -> exists tl, out' = hd ++ tl).
  { induction ls as [|l ls IH]; intros hd o; simpl.
    - intros [= <-]. exists []. by rewrite app_nil_r.
    - unfold kitchenItem.
      destruct (wrapText _ _ _ _) as [wn|]; [|done]. simpl.
      destruct (noteLines _ _ _) as [wk|]; [|done]. simpl.
      intros (tl & ->)%IH. eexists. by rewrite <- app_assoc. }
  apply G in E as (tl & ->). by rewrite <- !app_assoc.
Qed.

Lemma printsFor_snoc pid history p :
  printsFor pid (history ++ [p])
  = printsFor pid history ++ (if decide (kp_printerId p = pid) then [p] else []).
Proof. unfold printsFor. by rewrite filter_app. Qed.

Lemma kitchenPrint_Counted order st st' entry :
  Counted st ->
  kitchenPrint fuel (resolvePrinter order) order st entry = Some st' ->
  Counted st'.
Proof.
  intros Hc (receipt & out & _ & _ & Hh & Hp)%kitchenPrint_inv pid Hpid.
  destruct (Hc pid Hpid) as [Hseq Hcnt].
  unfold counterOf. rewrite Hh, Hp, printsFor_snoc. cbn [kp_printerId].
  rewrite readProperty_write by done.
  destruct (decide (entry.1 = pid)) as [->|Hne].
  - rewrite fmap_app, length_app, Hseq. cbn [length fmap list_fmap kp_progress].
    rewrite Hcnt. cbn [default plusOne]. unfold id.
    split; [|f_equal; lia].
    rewrite Nat2Z.inj_add. rewrite seqZ_app by lia. rewrite fmap_app. f_equal.
    change (Z.of_nat 1) with 1. rewrite seqZ_cons, seqZ_nil by lia.
    cbn [fmap list_fmap]. do 2 f_equal. lia.
  - fold (counterOf st.1 pid). by rewrite !app_nil_r.
Qed.

Lemma kitchenPrint_Rendered order st st' entry :
  Rendered fuel st.2 ->
  kitchenPrint fuel (resolvePrinter order) order st entry = Some st' ->
  Rendered fuel st'.2.
Proof.
  intros Hr (receipt & out & Hout & -> & Hh & _)%kitchenPrint_inv.
  rewrite Hh. apply Forall_app. split; [done|]. constructor; [|constructor].
  exists order, entry.2, out. split_and!; try done.
  by eapply buildKitchenReceiptOf_out_progr.
Qed.

Lemma kitchenPrint_grows order st st' entry :
  kitchenPrint fuel (resolvePrinter order) order st entry = Some st' ->
  st.2 `prefix_of` st'.2.
Proof.
  intros (receipt & out & _ & _ & Hh & _)%kitchenPrint_inv.
  rewrite Hh. by apply prefix_app_r.
Qed.

Lemma foldl_bind_None {A B} (f : A -> B -> option A) (l : list B) :
  foldl (fun st x => st ≫= fun st => f st x) None l = None.
Proof. by induction l. Qed.

Lemma printKitchen_Sound order st st' :
  Sound fuel st ->
  printKitchen fuel resolvePrinter st order = Some st' ->
  Sound fuel st' /\ st.2 `prefix_of` st'.2.
Proof.
  unfold printKitchen. generalize (kitchenByPrinterId order) as entries.
  intros entries. revert st.
  induction entries as [|entry entries IH]; intros st Hs; cbn [foldl].
  - by intros [= <-].
  - cbn [mbind option_bind].
    destruct (kitchenPrint fuel (resolvePrinter order) order st entry)
      as [st1|] eqn:E; [|by rewrite foldl_bind_None].
    intros Hf. destruct Hs as [Hc Hr].
    destruct (IH st1) as [Hs' Hp]; [|done|].
    + split; [by eapply kitchenPrint_Counted|by eapply kitchenPrint_Rendered].
    + split; [done|]. etrans; [by eapply kitchenPrint_grows|done].
Qed.

Lemma serveFrom_Sound orders : forall st st',
  Sound fuel st ->
  serveFrom fuel resolvePrinter (Some st) orders = Some st' ->
  Sound fuel st' /\ st.2 `prefix_of` st'.2.
Proof.
  unfold serveFrom.
  induction orders as [|order orders IH]; intros st st' Hs; cbn [foldl].
  - by intros [= <-].
  - cbn [mbind option_bind].
    destruct (printKitchen fuel resolvePrinter st order) as [st1|] eqn:E;
      [|by rewrite foldl_bind_None].
    intros Hf. destruct (printKitchen_Sound _ _ _ Hs E) as [Hs1 Hp1].
    destruct (IH st1 st' Hs1 Hf) as [Hs' Hp]. split; [done|]. by etrans.
Qed.

Lemma boot_Sound : Sound fuel (boot, []).
Proof.
  split; [|constructor]. intros pid Hpid. split; [done|].
  unfold counterOf, readProperty, boot. cbn [fst progressCounters].
  rewrite lookup_empty. unfold ordinaryId in Hpid. by rewrite Hpid.
Qed.

Lemma serve_split orders k st :
  serve fuel resolvePrinter orders = Some st ->
  exists st0,
    serve fuel resolvePrinter (take k orders) = Some st0
    /\ serveFrom fuel resolvePrinter (Some st0) (drop k orders) = Some st.
Proof.
  unfold serve. rewrite <- (take_drop k orders) at 1. rewrite foldl_app.
  destruct (foldl _ _ (take k orders)) as [st0|] eqn:E.
  - intros Hf. by exists st0.
  - by rewrite foldl_bind_None.
Qed.

Lemma prefix_printsFor pid (h0 h : list KitchenPrint) :
  h0 `prefix_of` h -> (length (printsFor pid h0) <= length (printsFor pid h))%nat.
Proof.
  intros [k ->]. unfold printsFor. rewrite filter_app, length_app. lia.
Qed.

End ProgressFacts.

(** X26. Since the process started, whatever orders were served, for every
    printer whose id is not the name of a member of [Object.prototype]: the
    kitchen receipts generated for it carry the progress numbers 1, 2, ...,
    n in this order, and its counter stands at n + 1 (a printer with no
    receipt yet has no entry, read as 1); the counter never decreases from
    one order to the next. Every receipt, of whatever printer, shows the
    value it was numbered with in its [PROGR:] line. So the first kitchen
    receipt for such a printer shows [PROGR: 1] and the next one, from
    whatever later order, shows [PROGR: 2]. *)
Theorem progress_counter `{Runtime} `{Network} (fuel : nat)
    (resolvePrinter : IncomingOrder -> jstring -> option PrinterTarget)
    (orders : list IncomingOrder) (srv : Server)
    (history : list KitchenPrint) :
  serve fuel resolvePrinter orders = Some (srv, history) ->
  (forall pid,
      ordinaryId pid ->
      kp_progress <$> printsFor pid history
      = Count <$> seqZ 1 (Z.of_nat (length (printsFor pid history)))
      /\ counterOf srv pid
         = Count (Z.of_nat (length (printsFor pid history)) + 1))
  /\ Forall (fun p =>
               exists order lines out,
                 buildKitchenReceiptOf_out fuel order lines
                   (counterText (kp_progress p)) = Some out
                 /\ kp_receipt p = join [NL] out
                 /\ out !! 5%nat
                    = Some (TXT_BIG
                              ++ cut (js "PROGR: " ++ counterText (kp_progress p))
                                   RECEIPT_W
                              ++ TXT_NORMAL))
            history
  /\ (forall k srv0 history0 pid,
        ordinaryId pid ->
        serve fuel resolvePrinter (take k orders) = Some (srv0, history0) ->
        exists n0 n,
          counterOf srv0 pid = Count n0 /\ counterOf srv pid = Count n
          /\ n0 <= n)
  /\ progrLineOf (counterText (Count 1)) = TXT_BIG ++ js "PROGR: 1" ++ TXT_NORMAL
  /\ progrLineOf (counterText (Count 2)) = TXT_BIG ++ js "PROGR: 2" ++ TXT_NORMAL.
Proof.
  intros Hs.
  destruct (serveFrom_Sound fuel resolvePrinter orders (boot, []) (srv, history)
              (boot_Sound fuel) Hs) as [[Hc Hr] _].
  split_and!; try done.
  intros k srv0 history0 pid Hpid Hk.
  destruct (serve_split fuel resolvePrinter orders k _ Hs) as (st0 & Hk' & Hrest).
  rewrite Hk in Hk'. injection Hk' as <-.
  destruct (serveFrom_Sound fuel resolvePrinter (take k orders) (boot, [])
              (srv0, history0) (boot_Sound fuel) Hk) as [[Hc0 Hr0] _].
  destruct (serveFrom_Sound fuel resolvePrinter (drop k orders) (srv0, history0)
              (srv, history)) as [_ Hp]; [done|done|].
  destruct (Hc pid Hpid) as [_ E]. destruct (Hc0 pid Hpid) as [_ E0].
  pose proof (prefix_printsFor pid _ _ Hp). simpl in *.
  eexists _, _. split; [exact E0|]. split; [exact E|]. lia.
Qed.

Lemma progress_counter_witness :
  exists srv history,
    @serve sampleRuntime (steadyNetwork 0) 60 (fun _ _ => None)
      [sampleOrder; sampleOrder] = Some (srv, history)
    /\ kp_progress <$> printsFor (js "P1") history = [Count 1; Count 2]
    /\ counterOf srv (js "P1") = Count 3.
Proof.
  destruct (@serve sampleRuntime (steadyNetwork 0) 60 (fun _ _ => None)
              [sampleOrder; sampleOrder]) as [[srv history]|] eqn:E;
    [|vm_compute in E; discriminate].
  exists srv, history. split; [reflexivity|].
  destruct (@progress_counter sampleRuntime (steadyNetwork 0) 60
              (fun _ _ => None) [sampleOrder; sampleOrder] srv history E)
    as (Hc & _).
  destruct (Hc (js "P1") ltac:(by vm_compute)) as [Hseq Hcnt].
  rewrite Hseq, Hcnt.
  vm_compute in E. injection E as <- <-. split; by vm_compute.
Defined.

(** C8. The counters are kept in an object literal, which inherits the
    members of [Object.prototype]. For a kitchen printer whose id is
    [constructor], the first receipt is numbered with the inherited
    function and not with 1: its [PROGR:] line shows the text of the
    function, and what is stored for the printer afterwards is that text
    followed by [1], which the second receipt shows. For the id
    [__proto__] nothing is ever stored, and every receipt shows
    [[object Object]]. *)
Lemma progress_counter_inherits :
  (exists srv p1 p2,
     @serve sampleRuntime (steadyNetwork 0) 60 (fun _ _ => None)
       [orderFor (js "constructor"); orderFor (js "constructor")]
     = Some (srv, [p1; p2])
     /\ kp_progress p1 = Other (js "function Object() { [native code] }")
     /\ split NL (kp_receipt p1) !! 5%nat
        = Some (TXT_BIG ++ js "PROGR: function Object() { [native code] }"
                  ++ TXT_NORMAL)
     /\ kp_progress p2 = Other (js "function Object() { [native code] }1")
     /\ split NL (kp_receipt p2) !! 5%nat
        = Some (TXT_BIG ++ js "PROGR: function Object() { [native code] }1"
                  ++ TXT_NORMAL)
     /\ counterOf srv (js "constructor")
        = Other (js "function Object() { [native code] }11"))
  /\ (exists srv p1 p2,
        @serve sampleRuntime (steadyNetwork 0) 60 (fun _ _ => None)
          [orderFor (js "__proto__"); orderFor (js "__proto__")]
        = Some (srv, [p1; p2])
        /\ split NL (kp_receipt p1) !! 5%nat
           = Some (TXT_BIG ++ js "PROGR: [object Object]" ++ TXT_NORMAL)
        /\ split NL (kp_receipt p2) !! 5%nat
           = Some (TXT_BIG ++ js "PROGR: [object Object]" ++ TXT_NORMAL)
        /\ progressCounters srv = ∅
        /\ counterOf srv (js "__proto__") = Other (js "[object Object]")).
Proof.
  split.
  - eexists _, _, _. split; [vm_compute; reflexivity|]. by vm_compute.
  - eexists _, _, _. split; [vm_compute; reflexivity|]. by vm_compute.
Qed.

(* ===================================================================== *)
(** * A text that fits on one line *)
(* ===================================================================== *)

Section WrapOneLine.

Variables (maxWidth : Z) (indent : jstring).

(** While the text fits, the word loop rebuilds it word by word, a space
    after each word. *)
Lemma wrapWords_one_line_eq fuel (words : list jstring) : forall lines cur,
  words <> [] ->
  len (cur ++ join [SP] words) <= maxWidth ->
  wrapWords fuel maxWidth indent words (lines, cur)
  = Some (lines, cur ++ join [SP] words ++ [SP]).
Proof.
  induction words as [|w words IH]; intros lines cur Hne Hfit; [done|].
  cbn [wrapWords]. destruct words as [|w' words].
  - cbn [join] in *. by rewrite wrapWord_same_line.
  - change (join [SP] (w :: w' :: words))
      with (w ++ [SP] ++ join [SP] (w' :: words)) in *.
    rewrite wrapWord_same_line.
    + cbn [mbind option_bind]. rewrite IH; [|done|by rewrite <- !app_assoc].
      by rewrite <- !app_assoc.
    + rewrite !len_app in *.
      pose proof (len_nonneg (join [SP] (w' :: words))).
      pose proof (len_nonneg [SP]). lia.
Qed.

End WrapOneLine.

(** X3. A text that is not longer than [maxWidth] is never broken: it comes
    back as one line, without its trailing white space, whatever the indent
    and with any fuel; a text of white space only gives no line at all. *)
Theorem wrapText_fitting_text (fuel : nat) (text indent : jstring)
    (maxWidth : Z) :
  len text <= maxWidth ->
  wrapText fuel text maxWidth indent
  = Some (if 0 <? len (trim text) then [trimEnd text] else []).
Proof.
  intros Hfit. unfold wrapText.
  rewrite wrapWords_one_line_eq;
    [|apply split_nonempty|by rewrite join_split].
  cbn [mbind option_bind]. rewrite join_split. cbn [app].
  unfold trim. by rewrite trimEnd_snoc_SP.
Qed.

Lemma wrapText_fitting_text_witness :
  len (js "2x Pizza  ") <= 48
  /\ wrapText 0 (js "2x Pizza  ") 48 (js "   ") = Some [js "2x Pizza"].
Proof.
  split; [by vm_compute|].
  rewrite (wrapText_fitting_text 0 (js "2x Pizza  ") (js "   ") 48);
    [reflexivity|by vm_compute].
Defined.

(* ===================================================================== *)
(** * Breaking at word boundaries *)
(* ===================================================================== *)

Section WrapWholeWords.

Variables (maxWidth : Z) (indent : jstring).

Lemma pending_snoc g w : pending (g ++ [w]) = pending g ++ w ++ [SP].
Proof.
  unfold pending. rewrite fmap_app, join_app. cbn.
  by rewrite app_nil_r.
Qed.

Lemma pending_join g : g <> [] -> pending g = join [SP] g ++ [SP].
Proof.
  induction g as [|w g IH]; [done|]. intros _.
  destruct g as [|w' g]; [by cbn; rewrite app_nil_r|].
  change (pending (w :: w' :: g)) with ((w ++ [SP]) ++ pending (w' :: g)).
  change (join [SP] (w :: w' :: g)) with (w ++ [SP] ++ join [SP] (w' :: g)).
  rewrite IH by done. by rewrite <- !app_assoc.
Qed.

Lemma linesOf_snoc gs g :
  linesOf indent (gs ++ [g])
  = linesOf indent gs ++ [lineOf (prefixAfter indent gs) g].
Proof.
  destruct gs as [|g0 gs]; [done|]. cbn [app linesOf prefixAfter].
  by rewrite map_app.
Qed.

Lemma linesOf_nil_inv gs : linesOf indent gs = [] -> gs = [].
Proof. by destruct gs. Qed.

(** A word that does not fit on the current line, but fits after the
    indent, starts a new line. *)
Lemma wrapWord_break fuel lines cur word :
  cur <> [] ->
  maxWidth < len (cur ++ word) ->
  len (indent ++ word) <= maxWidth ->
  wrapWord fuel maxWidth indent (lines, cur) word
  = Some (lines ++ [trimEnd cur], indent ++ word ++ [SP]).
Proof.
  intros Hcur Hover Hfit. unfold wrapWord.
  destruct (Z.ltb_spec maxWidth (len (cur ++ word))) as [_|]; [|lia].
  destruct (Z.ltb_spec 0 (len cur)) as [_|Hz].
  - rewrite length_app. cbn [length].
    destruct (Z.ltb_spec 0 (Z.of_nat (length lines + 1))) as [_|]; [|lia].
    by destruct (Z.ltb_spec maxWidth (len (indent ++ word))) as [|_]; [lia|].
  - destruct cur; [done|]. rewrite len_cons in Hz.
    pose proof (len_nonneg cur). lia.
Qed.

Lemma wrapWord_Grouped fuel st w gs g :
  len indent + len w <= maxWidth ->
  Grouped indent st gs g ->
  exists st' gs' g',
    wrapWord fuel maxWidth indent st w = Some st'
    /\ Grouped indent st' gs' g'
    /\ g' <> []
    /\ mjoin (gs' ++ [g']) = mjoin (gs ++ [g]) ++ [w].
Proof.
  intros Hw (Hl & Hc & Hne & Hg). destruct st as [lines cur]. cbn in Hl, Hc.
  destruct (Z_le_gt_dec (len (cur ++ w)) maxWidth) as [Hfit|Hover].
  - exists (lines, cur ++ w ++ [SP]), gs, (g ++ [w]).
    split; [by apply wrapWord_same_line|]. split; [|split].
    + split_and!; cbn; [done| |done|by destruct g].
      by rewrite Hc, pending_snoc, <- !app_assoc.
    + by destruct g.
    + rewrite !join_app. cbn. rewrite !app_nil_r. by rewrite <- !app_assoc.
  - assert (Hcur : cur <> []).
    { intros ->. cbn in Hover. pose proof (len_nonneg indent). lia. }
    assert (Hgne : g <> []).
    { intros ->. rewrite Hg in Hc by done. by cbn in Hc. }
    exists (lines ++ [trimEnd cur], indent ++ w ++ [SP]), (gs ++ [g]), [w].
    split; [|split; [|split]].
    + apply wrapWord_break; [done|lia|]. rewrite len_app. lia.
    + split_and!; cbn.
      * rewrite linesOf_snoc, Hl, Hc. unfold lineOf.
        by rewrite pending_join, app_assoc, trimEnd_snoc_SP.
      * destruct gs; cbn; by rewrite app_nil_r.
      * apply Forall_app. split; [done|]. by constructor.
      * done.
    + done.
    + rewrite !join_app. cbn. by rewrite !app_nil_r.
Qed.

Lemma wrapWords_Grouped fuel (words : list jstring) : forall st gs g,
  Forall (fun w => len indent + len w <= maxWidth) words ->
  words <> [] ->
  Grouped indent st gs g ->
  exists st' gs' g',
    wrapWords fuel maxWidth indent words st = Some st'
    /\ Grouped indent st' gs' g'
    /\ g' <> []
    /\ mjoin (gs' ++ [g']) = mjoin (gs ++ [g]) ++ words.
Proof.
  induction words as [|w words IH]; intros st gs g Hall Hne HG; [done|].
  apply Forall_cons in Hall as [Hw Hall]. cbn [wrapWords].
  destruct (wrapWord_Grouped fuel st w gs g Hw HG)
    as (st1 & gs1 & g1 & -> & HG1 & Hg1 & Hj1).
  cbn [mbind option_bind]. destruct words as [|w' words].
  - exists st1, gs1, g1. by split_and!.
  - destruct (IH st1 gs1 g1 Hall ltac:(done) HG1)
      as (st' & gs' & g' & Hrun & HG' & Hg' & Hj').
    exists st', gs', g'. split_and!; [done..|].
    rewrite Hj', Hj1. by rewrite <- app_assoc.
Qed.

End WrapWholeWords.

(** X4. When every word of the text fits on a line after the indent, no
    word is split and no space is lost inside a line: the words of the text,
    in order, fall into consecutive non-empty groups, each line is the
    words of one group with one space between them (after the indent, but
    for the first line), and only a blank last line is left out. *)
Theorem wrapText_whole_words (fuel : nat) (text indent : jstring)
    (maxWidth : Z) :
  Forall (fun w => len indent + len w <= maxWidth) (split SP text) ->
  exists gs g,
    mjoin (gs ++ [g]) = split SP text
    /\ Forall (fun g => g <> []) (gs ++ [g])
    /\ wrapText fuel text maxWidth indent
       = Some (linesOf indent gs
                 ++ lastLineOf (prefixAfter indent gs) g).
Proof.
  intros Hall. unfold wrapText.
  destruct (wrapWords_Grouped maxWidth indent fuel (split SP text) ([], [])
              [] [] Hall (split_nonempty text))
    as ([lines cur] & gs & g & -> & (Hl & Hc & Hne & _) & Hg & Hj);
    [by split_and!|].
  cbn in Hl, Hc, Hj. exists gs, g. split; [done|]. split.
  - apply Forall_app. split; [done|]. by constructor.
  - cbn [mbind option_bind]. rewrite Hl, Hc.
    rewrite (pending_join g Hg). unfold lastLineOf, lineOf, trim.
    rewrite !app_assoc, !trimEnd_snoc_SP.
    destruct (0 <? _); [done|by rewrite app_nil_r].
Qed.

Lemma wrapText_whole_words_witness :
  exists gs g,
    mjoin (gs ++ [g]) = split SP (js "2x Pizza Margherita grande")
    /\ wrapText 0 (js "2x Pizza Margherita grande") 13 (js "   ")
       = Some (linesOf (js "   ") gs
                 ++ lastLineOf (prefixAfter (js "   ") gs) g).
Proof.
  destruct (wrapText_whole_words 0 (js "2x Pizza Margherita grande")
              (js "   ") 13) as (gs & g & Hj & _ & Hw).
  - apply (bool_decide_unpack _). by vm_compute.
  - by exists gs, g.
Defined.

(* ===================================================================== *)
(** * Decimal digits: [String(n)] and [parseInt] *)
(* ===================================================================== *)

Section DigitFacts.

Lemma digitsOf_is_digit u : Forall (fun c => is_digit c = true) (digitsOf u).
Proof. induction u; cbn; constructor; done. Qed.

Lemma length_digitsOf u : length (digitsOf u) = Decimal.nb_digits u.
Proof. induction u; cbn; f_equal; done. Qed.

Lemma digitsPrefix_all s :
  Forall (fun c => is_digit c = true) s -> digitsPrefix s = s.
Proof.
  induction 1 as [|c s Hc _ IH]; [done|]. cbn. by rewrite Hc, IH.
Qed.

Lemma digitsValue_acc u (acc : positive) :
  foldl (fun acc c => acc * 10 + (Z.of_N c - 48)) (Z.pos acc) (digitsOf u)
  = Z.pos (Pos.of_uint_acc u acc).
Proof.
  revert acc. induction u; intros acc; cbn [Pos.of_uint_acc]; [done|..];
    match goal with
    | |- context [Pos.of_uint_acc _ ?a] =>
        rewrite <- IHu; cbn [js NilEmpty.string_of_uint list_ascii_of_string
                               List.map foldl];
        f_equal; cbn; lia
    end.
Qed.

Lemma digitsValue_digitsOf u : digitsValue (digitsOf u) = Z.of_N (Pos.of_uint u).
Proof.
  unfold digitsValue. induction u; cbn [Pos.of_uint Z.of_N]; [done|done|..];
    cbn [js NilEmpty.string_of_uint list_ascii_of_string List.map foldl];
    by rewrite <- digitsValue_acc.
Qed.

(** The digits of a positive number. *)
Lemma ofZ_pos (p : positive) : ofZ (Z.pos p) = digitsOf (Pos.to_uint p).
Proof.
  unfold ofZ. cbn [Z.to_int NilZero.string_of_int].
  pose proof (DecimalPos.Unsigned.to_uint_nonnil p).
  by destruct (Pos.to_uint p).
Qed.

Lemma ofZ_neg (p : positive) : ofZ (Z.neg p) = 45%N :: digitsOf (Pos.to_uint p).
Proof.
  unfold ofZ. cbn [Z.to_int NilZero.string_of_int].
  pose proof (DecimalPos.Unsigned.to_uint_nonnil p).
  by destruct (Pos.to_uint p).
Qed.

Lemma ofZ_digits (n : Z) : 0 <= n -> Forall (fun c => is_digit c = true) (ofZ n).
Proof.
  destruct n as [|p|p]; [by repeat constructor| |lia]. intros _.
  rewrite ofZ_pos. apply digitsOf_is_digit.
Qed.

(** Reading back what was printed. *)
Lemma digitsValue_ofZ (n : Z) : 0 <= n -> digitsValue (ofZ n) = n.
Proof.
  destruct n as [|p|p]; [done| |lia]. intros _.
  by rewrite ofZ_pos, digitsValue_digitsOf, DecimalPos.Unsigned.of_to.
Qed.

Lemma ofZ_nonempty (n : Z) : ofZ n <> [].
Proof.
  destruct n as [|p|p]; [done| |by rewrite ofZ_neg]. rewrite ofZ_pos.
  pose proof (DecimalPos.Unsigned.to_uint_nonnil p).
  by destruct (Pos.to_uint p).
Qed.

(** A number with [k] digits after a first digit is at least [10 ^ k]. *)
Lemma of_uint_acc_ge u (acc : positive) :
  Z.pos acc * 10 ^ Z.of_nat (Decimal.nb_digits u) <= Z.pos (Pos.of_uint_acc u acc).
Proof.
  revert acc. induction u; intros acc; cbn [Pos.of_uint_acc Decimal.nb_digits];
    [rewrite Z.pow_0_r; lia|..];
    (etransitivity; [|apply IHu]);
    rewrite Nat2Z.inj_succ, Z.pow_succ_r by lia;
    pose proof (Z.pow_pos_nonneg 10 (Z.of_nat (Decimal.nb_digits u))
                  ltac:(lia) ltac:(lia)); nia.
Qed.

Lemma unorm_leading_zero u : Decimal.unorm (Decimal.D0 u) = Decimal.D0 u -> u = Decimal.Nil.
Proof.
  intros Hn. unfold Decimal.unorm in Hn. cbn [Decimal.nzhead] in Hn.
  destruct (Decimal.nzhead u) eqn:E; try discriminate.
  - by injection Hn as <-.
  - exfalso. injection Hn as ->.
    pose proof (DecimalFacts.nb_digits_nzhead u) as Hle.
    rewrite E in Hle. cbn in Hle. lia.
Qed.

Lemma of_uint_ge u :
  Decimal.unorm u = u ->
  10 ^ (Z.of_nat (Decimal.nb_digits u) - 1) <= Z.max 1 (Z.of_N (Pos.of_uint u)).
Proof.
  intros Hn. destruct u; cbn [Pos.of_uint Decimal.nb_digits];
    [cbn; lia|apply unorm_leading_zero in Hn as ->; cbn; lia|..];
    rewrite Nat2Z.inj_succ;
    match goal with
    | |- context [Pos.of_uint_acc ?v ?a] =>
        replace (Z.succ (Z.of_nat (Decimal.nb_digits v)) - 1)
          with (Z.of_nat (Decimal.nb_digits v)) by lia;
        pose proof (of_uint_acc_ge v a);
        pose proof (Z.pow_pos_nonneg 10 (Z.of_nat (Decimal.nb_digits v))
                      ltac:(lia) ltac:(lia))
    end; cbn [Z.of_N]; nia.
Qed.

(** A positive number below [10 ^ k] is printed with at most [k] digits. *)
Lemma len_ofZ_pos (p : positive) (k : Z) :
  0 <= k -> Z.pos p < 10 ^ k -> len (ofZ (Z.pos p)) <= k.
Proof.
  intros Hk Hp. rewrite ofZ_pos. unfold len. rewrite length_digitsOf.
  assert (Hnorm : Decimal.unorm (Pos.to_uint p) = Pos.to_uint p).
  { rewrite <- (DecimalPos.Unsigned.to_of (Pos.to_uint p)).
    by rewrite DecimalPos.Unsigned.of_to. }
  pose proof (of_uint_ge _ Hnorm) as Hge.
  rewrite DecimalPos.Unsigned.of_to in Hge. cbn [Z.of_N] in Hge.
  rewrite Z.max_r in Hge by lia.
  destruct (Z_le_gt_dec (Z.of_nat (Decimal.nb_digits (Pos.to_uint p))) k)
    as [?|Hgt]; [done|exfalso].
  assert (10 ^ k <= 10 ^ (Z.of_nat (Decimal.nb_digits (Pos.to_uint p)) - 1))
    by (apply Z.pow_le_mono_r; lia).
  lia.
Qed.

(** An integer below [10 ^ k] in absolute value is printed with at most
    [k] digits and a sign. *)
Lemma len_ofZ (n k : Z) : 0 < k -> Z.abs n < 10 ^ k -> len (ofZ n) <= k + 1.
Proof.
  intros Hk Hn. destruct n as [|p|p].
  - change (len (ofZ 0)) with 1. lia.
  - pose proof (len_ofZ_pos p k ltac:(lia) ltac:(lia)). lia.
  - rewrite ofZ_neg, len_cons. rewrite <- ofZ_pos.
    pose proof (len_ofZ_pos p k ltac:(lia) ltac:(lia)). lia.
Qed.





(** A non-negative integer below [10 ^ k] is printed with at most [k]
    digits. *)
Lemma len_ofZ_nonneg (n k : Z) :
  0 < k -> 0 <= n < 10 ^ k -> len (ofZ n) <= k.
Proof.
  intros Hk [Hlo Hhi]. destruct n as [|q|q]; [|by apply len_ofZ_pos; lia|lia].
  change (len (ofZ 0)) with 1. lia.
Qed.

End DigitFacts.

(* ===================================================================== *)
(** * The price column *)
(* ===================================================================== *)

Section PriceFacts.

Lemma replaceFirst_digits (s t : jstring) :
  Forall (fun c => is_digit c = true) s ->
  replaceFirst 46 44 (s ++ 46%N :: t) = s ++ 44%N :: t.
Proof.
  induction 1 as [|c s Hc _ IH]; [done|]. cbn [app replaceFirst].
  destruct (N.eqb_spec c 46) as [->|_]; [done|]. by rewrite IH.
Qed.

Lemma len_replaceFirst (a b : N) (s : jstring) :
  len (replaceFirst a b s) = len s.
Proof.
  induction s as [|c s IH]; [done|]. cbn [replaceFirst].
  destruct (N.eqb c a); rewrite !len_cons; [done|by rewrite IH].
Qed.

(** The number of cents nearest to an amount of whole cents. *)
Lemma cents_exact (c : Z) :
  0 <= c ->
  Qfloor (Qabs (Q2Qc (c # 100)) * inject_Z 100 + (1 # 2))%Q = c.
Proof.
  intros Hc.
  assert (E : (Qabs (Q2Qc (c # 100)) * inject_Z 100 + (1 # 2) == (2 * c + 1) # 2)%Q).
  { cbn [this Q2Qc]. rewrite Qred_correct, Qabs_pos.
    - unfold Qeq. cbn. lia.
    - unfold Qle. cbn. lia. }
  rewrite E. unfold Qfloor. symmetry. apply (Z.div_unique _ _ _ 1); lia.
Qed.

Lemma whole_cents_nonneg (c : Z) : 0 <= c -> Qc_ltb (Q2Qc (c # 100)) 0 = false.
Proof.
  intros Hc. unfold Qc_ltb, Qccompare. cbn [this Q2Qc].
  rewrite Qred_correct. change (Qred 0) with 0%Q.
  unfold Qcompare. cbn [Qnum Qden].
  destruct (Z.compare_spec (c * 1) (0 * 100)); [done|lia|done].
Qed.

(** The two digits of the cents. *)
Lemma two_digits (m : Z) :
  0 <= m < 100 ->
  Forall (fun c => is_digit c = true) (padStart0 (ofZ m) 2)
  /\ len (padStart0 (ofZ m) 2) = 2
  /\ digitsValue (padStart0 (ofZ m) 2) = m.
Proof.
  intros Hm.
  assert (Hall : Forall (fun m =>
                   Forall (fun c => is_digit c = true) (padStart0 (ofZ m) 2)
                   /\ len (padStart0 (ofZ m) 2) = 2
                   /\ digitsValue (padStart0 (ofZ m) 2) = m) (seqZ 0 100)).
  { apply (bool_decide_unpack _). by vm_compute. }
  rewrite Forall_forall in Hall. apply Hall, elem_of_seqZ. lia.
Qed.

Lemma Qc_ltb_nonneg (x : Qc) : (0 <= x)%Qc -> Qc_ltb x 0 = false.
Proof.
  intros Hx. unfold Qc_ltb.
  destruct (x ?= 0)%Qc eqn:E; [done| |done].
  apply Qclt_alt in E. by apply Qcle_not_lt in Hx.
Qed.

Lemma cents_nonneg (x : Qc) :
  0 <= Qfloor (Qabs x * inject_Z 100 + (1 # 2))%Q.
Proof.
  change 0 with (Qfloor 0). apply Qfloor_resp_le.
  pose proof (Qabs_nonneg x) as Hn.
  unfold Qle in *. cbn [Qnum Qden Qplus Qmult inject_Z] in *. nia.
Qed.

(** The integer nearest to the cents of a non-negative amount, the larger
    one on a tie. *)
Lemma nearest_cent (x : Qc) (c : Z) :
  (0 <= x)%Qc ->
  (Qc_of_Z c - Q2Qc (1 # 2) <= Qc_of_Z 100 * x)%Qc ->
  (Qc_of_Z 100 * x < Qc_of_Z c + Q2Qc (1 # 2))%Qc ->
  Qfloor (Qabs x * inject_Z 100 + (1 # 2))%Q = c.
Proof.
  intros Hx Hlo Hhi.
  assert (Ha : (Qabs x == x)%Q) by (by apply Qabs_pos).
  unfold Qcle, Qclt in *.
  cbn [this Qcminus Qcplus Qcopp Qcmult Q2Qc Qc_of_Z] in Hlo, Hhi.
  rewrite !Qred_correct in Hlo. rewrite !Qred_correct in Hhi.
  set (y := (Qabs x * inject_Z 100 + (1 # 2))%Q).
  assert (H1 : (inject_Z c <= y)%Q).
  { subst y. rewrite Ha.
    unfold Qle in *. cbn [Qnum Qden Qplus Qmult Qopp inject_Z] in *. lia. }
  assert (H2 : (y < inject_Z (c + 1))%Q).
  { subst y. rewrite Ha.
    unfold Qlt in *. cbn [Qnum Qden Qplus Qmult Qopp inject_Z] in *. lia. }
  apply Z.le_antisymm.
  - assert (Hf : (inject_Z (Qfloor y) < inject_Z (c + 1))%Q)
      by (eapply Qle_lt_trans; [apply Qfloor_le|exact H2]).
    rewrite <- Zlt_Qlt in Hf. lia.
  - rewrite <- (Qfloor_Z c). by apply Qfloor_resp_le.
Qed.

(** The cents of an amount of at most [B] euros in absolute value. *)
Lemma cents_bound (x : Qc) (B : Z) :
  (- Qc_of_Z B <= x <= Qc_of_Z B)%Qc ->
  0 <= Qfloor (Qabs x * inject_Z 100 + (1 # 2))%Q <= 100 * B.
Proof.
  intros [Hlo Hhi].
  assert (Ha : (Qabs x <= inject_Z B)%Q).
  { apply Qabs_Qle_condition. split.
    - unfold Qcle in Hlo. cbn [this Qcopp Q2Qc Qc_of_Z] in Hlo.
      by rewrite Qred_correct in Hlo.
    - exact Hhi. }
  split.
  - change 0 with (Qfloor 0). apply Qfloor_resp_le.
    pose proof (Qabs_nonneg x) as Hn.
    unfold Qle in *. cbn [Qnum Qden Qplus Qmult inject_Z] in *. nia.
  - assert (E : Qfloor (inject_Z B * inject_Z 100 + (1 # 2))%Q = 100 * B).
    { unfold Qfloor. cbn [Qnum Qden Qplus Qmult inject_Z].
      symmetry. apply (Z.div_unique _ _ _ 1); lia. }
    rewrite <- E. apply Qfloor_resp_le.
    apply Qplus_le_compat; [|apply Qle_refl].
    apply Qmult_le_compat_r; [done|]. by unfold Qle.
Qed.

(** The price column of an amount below [10 ^ k] euros in absolute value
    has at most [k + 5] characters. *)
Lemma len_eurCol (x : Qc) (k : Z) :
  0 < k ->
  (- Qc_of_Z (10 ^ k - 1) <= x <= Qc_of_Z (10 ^ k - 1))%Qc ->
  len (eurCol x) <= k + 5.
Proof.
  intros Hk Hx. apply cents_bound in Hx. unfold eurCol, toFixed2.
  set (n := Qfloor _) in *.
  assert (Hq : 0 <= n / 100 < 10 ^ k).
  { split; [apply Z.div_pos; lia|].
    apply Z.div_lt_upper_bound; lia. }
  assert (Hm : 0 <= n mod 100 < 100) by (apply Z.mod_pos_bound; lia).
  destruct (two_digits (n mod 100) Hm) as (_ & Hl & _).
  pose proof (len_ofZ_nonneg (n / 100) k Hk Hq).
  rewrite len_app, len_replaceFirst, !len_app, Hl.
  change (len [EURO]) with 1. change (len (js ".")) with 1.
  destruct (Qc_ltb x 0); [change (len (js "-")) with 1|change (len []) with 0];
    lia.
Qed.

(** The price column of a whole number of euros. *)
Lemma eurCol_whole (n : Z) :
  0 <= n -> eurCol (Qc_of_Z n) = ofZ n ++ js ",00" ++ [EURO].
Proof.
  intros Hn.
  assert (E : Qc_of_Z n = Q2Qc (100 * n # 100)).
  { apply Qc_is_canon. cbn [this Q2Qc Qc_of_Z]. rewrite Qred_correct.
    unfold Qeq. cbn. lia. }
  rewrite E. unfold eurCol, toFixed2.
  rewrite cents_exact, whole_cents_nonneg by lia. cbn [app].
  rewrite Z.mul_comm, Z.div_mul, Z.mod_mul by done.
  change (padStart0 (ofZ 0) 2) with (js "00").
  change (js ".") with [46%N]. cbn [app].
  rewrite replaceFirst_digits by by apply ofZ_digits.
  by rewrite <- app_assoc.
Qed.
End PriceFacts.

(* ===================================================================== *)
(** * Columns: [cut], [padRight], [lr] *)
(* ===================================================================== *)

Section ColumnFacts.

Lemma repeat_SP_replicate (n : Z) :
  Receipt.repeat [SP] n = replicate (Z.to_nat n) SP.
Proof.
  unfold Receipt.repeat, JS.repeat.
  replace (Z.to_nat (Z.max 0 n)) with (Z.to_nat n) by lia.
  induction (Z.to_nat n) as [|k IH]; [done|]. cbn. by rewrite <- IH.
Qed.

Lemma len_cut (s : jstring) (w : Z) : 0 <= w -> len (cut s w) <= w.
Proof.
  intros Hw. unfold cut, slice0. destruct (Z.leb_spec (len s) w); [done|].
  unfold len in *. rewrite length_take. lia.
Qed.

Lemma len_line (c : N) : len (line [c]) = RECEIPT_W.
Proof. reflexivity. Qed.

(** Cutting and padding to the same width is taking that many characters of
    the text followed by spaces. *)
Lemma padRight_cut (s : jstring) (w : Z) :
  0 <= w ->
  padRight (cut s w) w = take (Z.to_nat w) (s ++ replicate (Z.to_nat w) SP).
Proof.
  intros Hw. unfold padRight, cut, slice0.
  destruct (Z.leb_spec (len s) w) as [Hle|Hgt].
  - destruct (Z.leb_spec w (len s)) as [Hge|Hlt].
    + rewrite take_app_le by (unfold len in *; lia).
      rewrite take_ge by (unfold len in *; lia). done.
    + rewrite repeat_SP_replicate.
      rewrite take_app_ge by (unfold len in *; lia).
      rewrite take_replicate. do 2 f_equal. unfold len in *. lia.
  - assert (len (take (Z.to_nat w) s) = w) as Hl
      by (unfold len in *; rewrite length_take; lia).
    rewrite Hl, Z.leb_refl.
    by rewrite take_app_le by (unfold len in *; lia).
Qed.

End ColumnFacts.

(** X5. [lr] lays a line out in two columns: when the right text (trimmed)
    is shorter than the receipt is wide, the line is exactly [RECEIPT_W]
    characters long, the right text is flush right after one space, and the
    left text is cut or padded with spaces to the room that is left; when
    the right text is as wide as the receipt or wider, the left text is
    dropped altogether. *)
Theorem lr_layout (left right : jstring) :
  let r := trim right in
  let w := RECEIPT_W - len r - 1 in
  (len r < RECEIPT_W ->
     lr left right
     = take (Z.to_nat w) (trimEnd left ++ replicate (Z.to_nat w) SP)
         ++ [SP] ++ r
     /\ len (lr left right) = RECEIPT_W)
  /\ (RECEIPT_W <= len r -> lr left right = [SP] ++ r).
Proof.
  cbv zeta. unfold lr. cbv zeta.
  change (Receipt.repeat [SP] 1) with [SP].
  set (r := trim right). set (w := RECEIPT_W - len r - 1). split.
  - intros Hr. rewrite Z.max_r by lia. rewrite padRight_cut by lia.
    split; [done|].
    rewrite !len_app. unfold len at 1. rewrite length_take, length_app.
    rewrite length_replicate. change (len [SP]) with 1. lia.
  - intros Hr. rewrite Z.max_l by lia.
    unfold cut, padRight, slice0. cbn [Z.to_nat take].
    destruct (len (trimEnd left) <=? 0) eqn:E.
    + apply Z.leb_le in E. pose proof (len_nonneg (trimEnd left)).
      destruct (trimEnd left); [done|]. rewrite len_cons in E.
      pose proof (len_nonneg l). lia.
    + done.
Qed.

Lemma lr_layout_witness :
  lr (js "2x Pizza Margherita ") (js " 24,00 ")
  = js "2x Pizza Margherita                        24,00"
  /\ len (lr (js "2x Pizza Margherita ") (js " 24,00 ")) = 48.
Proof.
  destruct (lr_layout (js "2x Pizza Margherita ") (js " 24,00 ")) as [H _].
  destruct H as [H1 H2]; [by vm_compute|].
  split; [|exact H2]. rewrite H1. by vm_compute.
Defined.

(* ===================================================================== *)
(** * The width of the kitchen receipt *)
(* ===================================================================== *)

Section KitchenFacts.

Context `{Runtime}.

Lemma len_namePrefixOf (l : KitchenReceiptLine) :
  Z.abs (quantity l) < 10 ^ 21 -> len (namePrefixOf l) <= 24.
Proof.
  intros Hq. unfold namePrefixOf. rewrite len_app.
  pose proof (len_ofZ (quantity l) 21 ltac:(lia) Hq).
  change (len (js "x ")) with 2. lia.
Qed.

Lemma Within_short w l : len l <= w -> Within w l.
Proof. by left. Qed.

Lemma Within_big w x : len x <= w -> Within w (TXT_BIG ++ x ++ TXT_NORMAL).
Proof. right. by exists x. Qed.

Lemma Forall_Within_short w (ls : list jstring) :
  Forall (fun l => len l <= w) ls -> Forall (Within w) ls.
Proof. intros Hls. eapply Forall_impl; [exact Hls|]. intros l. apply Within_short. Qed.

Lemma oraLines_Within (order : IncomingOrder) :
  Forall (Within RECEIPT_W) (oraLines order).
Proof.
  unfold oraLines. destruct (trimStr (confirmedAt order)); [constructor|].
  destruct (Date_of_string _); repeat constructor; by apply len_cut.
Qed.

Lemma kitchenHeader_Within (order : IncomingOrder) (progress : Z) :
  Forall (Within RECEIPT_W) (kitchenHeader order progress).
Proof.
  unfold kitchenHeader. cbv zeta.
  repeat (apply Forall_cons; split);
    try (apply Within_big; by apply len_cut);
    try (apply Within_short; by apply len_cut);
    try (by left).
  apply Forall_app. split.
  - destruct (trimStr (displayCode order)); repeat constructor.
    by apply len_cut.
  - apply Forall_app. split; [apply oraLines_Within|].
    repeat constructor. by vm_compute.
Qed.

Lemma noteLines_fits fuel indent (l : KitchenReceiptLine) ls :
  len indent + 6 < RECEIPT_W ->
  noteLines fuel indent l = Some ls ->
  Forall (fun x => len x <= RECEIPT_W) ls.
Proof.
  intros Hi. unfold noteLines.
  destruct (trimStr (notes l)) as [|c t]; [by intros [= <-]|].
  apply wrapText_fits. rewrite len_app. change (len (js "      ")) with 6. lia.
Qed.

Lemma kitchenItem_fits fuel out (l : KitchenReceiptLine) out' :
  Z.abs (quantity l) < 10 ^ 21 ->
  kitchenItem fuel out l = Some out' ->
  exists body,
    out' = out ++ body /\ Forall (fun x => len x <= RECEIPT_W) body.
Proof.
  intros Hq. pose proof (len_namePrefixOf l Hq) as Hp.
  unfold kitchenItem. cbv zeta. fold (namePrefixOf l).
  pose proof (len_nonneg (namePrefixOf l)).
  destruct (wrapText _ _ _ _) as [wrappedName|] eqn:Ename; [|done].
  cbn [mbind option_bind].
  destruct (noteLines _ _ _) as [wrappedNotes|] eqn:Enotes; [|done].
  cbn [mbind option_bind]. intros [= <-].
  exists (wrappedName ++ wrappedNotes ++ [[]]). split; [done|].
  apply Forall_app. split.
  - apply wrapText_fits in Ename; [done|]. rewrite len_repeat_SP by done.
    unfold RECEIPT_W. lia.
  - apply Forall_app. split.
    + apply noteLines_fits in Enotes; [done|]. rewrite len_repeat_SP by done.
      unfold RECEIPT_W. lia.
    + repeat constructor. by vm_compute.
Qed.

Lemma kitchenItem_total fuel out (l : KitchenReceiptLine) :
  Z.abs (quantity l) < 10 ^ 21 ->
  (kitchenFuel l <= fuel)%nat ->
  is_Some (kitchenItem fuel out l).
Proof.
  intros Hq Hf. pose proof (len_namePrefixOf l Hq) as Hp.
  unfold kitchenFuel in Hf. unfold kitchenItem. cbv zeta.
  fold (namePrefixOf l). pose proof (len_nonneg (namePrefixOf l)).
  destruct (wrapText_total RECEIPT_W (JS.repeat [SP] (len (namePrefixOf l)))
              fuel (namePrefixOf l ++ orElse (trim (foodName l)) (js "FOOD")))
    as [wrappedName ->]; [rewrite len_repeat_SP by done; unfold RECEIPT_W; lia
                         |lia|].
  cbn [mbind option_bind].
  destruct (noteLines_total fuel (JS.repeat [SP] (len (namePrefixOf l))) l)
    as [wrappedNotes ->]; [rewrite len_repeat_SP by done; unfold RECEIPT_W; lia
                          |lia|].
  by eexists.
Qed.

Lemma kitchenItems_fits fuel (lines : list KitchenReceiptLine) :
  forall out out',
  Forall (fun l => Z.abs (quantity l) < 10 ^ 21) lines ->
  kitchenItems fuel out lines = Some out' ->
  exists body,
    out' = out ++ body /\ Forall (fun x => len x <= RECEIPT_W) body.
Proof.
  induction lines as [|l lines IH]; intros out out' Hall.
  - intros [= <-]. exists []. by rewrite app_nil_r.
  - apply Forall_cons in Hall as [Hq Hall]. cbn [kitchenItems].
    destruct (kitchenItem fuel out l) as [out1|] eqn:E1; [|done].
    cbn [mbind option_bind]. intros Hrun.
    destruct (kitchenItem_fits _ _ _ _ Hq E1) as (b1 & -> & Hb1).
    destruct (IH _ _ Hall Hrun) as (b2 & -> & Hb2).
    exists (b1 ++ b2). split; [by rewrite app_assoc|].
    by apply Forall_app.
Qed.

Lemma kitchenItems_total fuel (lines : list KitchenReceiptLine) : forall out,
  Forall (fun l => Z.abs (quantity l) < 10 ^ 21) lines ->
  Forall (fun l => (kitchenFuel l <= fuel)%nat) lines ->
  is_Some (kitchenItems fuel out lines).
Proof.
  induction lines as [|l lines IH]; intros out Hall Hfuel; [by eexists|].
  apply Forall_cons in Hall as [Hq Hall].
  apply Forall_cons in Hfuel as [Hf Hfuel]. cbn [kitchenItems].
  destruct (kitchenItem_total fuel out l Hq Hf) as [out1 ->].
  cbn [mbind option_bind]. by apply IH.
Qed.

Lemma buildKitchenReceipt_total fuel (order : IncomingOrder)
    (lines : list KitchenReceiptLine) (progress : Z) :
  Forall (fun l => Z.abs (quantity l) < 10 ^ 21) lines ->
  Forall (fun l => (kitchenFuel l <= fuel)%nat) lines ->
  is_Some (buildKitchenReceipt fuel order lines progress).
Proof.
  intros Hall Hfuel. unfold buildKitchenReceipt, buildKitchenReceipt_out.
  destruct (kitchenItems_total fuel lines (kitchenHeader order progress)
              Hall Hfuel) as [out ->].
  by eexists.
Qed.

Lemma buildKitchenReceiptOf_total fuel (order : IncomingOrder)
    (lines : list KitchenReceiptLine) (progress : jstring) :
  Forall (fun l => Z.abs (quantity l) < 10 ^ 21) lines ->
  Forall (fun l => (kitchenFuel l <= fuel)%nat) lines ->
  is_Some (buildKitchenReceiptOf fuel order lines progress).
Proof.
  intros Hall Hfuel. unfold buildKitchenReceiptOf, buildKitchenReceiptOf_out.
  destruct (kitchenItems_total fuel lines (kitchenHeaderOf order progress)
              Hall Hfuel) as [out ->].
  by eexists.
Qed.

End KitchenFacts.

(** X6. For lines whose quantities are integers below 10^21 in absolute
    value (the integers JavaScript prints with all their digits), the
    kitchen receipt is always produced, and none of its lines is wider than
    the 48 columns of the paper, the size commands around the three big
    lines of the header not counted: long names and notes are wrapped. *)
Theorem kitchen_receipt_fits `{Runtime} (order : IncomingOrder)
    (lines : list KitchenReceiptLine) (progress : Z) :
  Forall (fun l => Z.abs (quantity l) < 10 ^ 21) lines ->
  (forall fuel,
      Forall (fun l => (kitchenFuel l <= fuel)%nat) lines ->
      is_Some (buildKitchenReceipt fuel order lines progress))
  /\ (forall fuel out,
        buildKitchenReceipt_out fuel order lines progress = Some out ->
        Forall (Within RECEIPT_W) out).
Proof.
  intros Hall. split.
  - intros fuel Hfuel. by apply buildKitchenReceipt_total.
  - intros fuel out. unfold buildKitchenReceipt_out.
    destruct (kitchenItems _ _ _) as [out1|] eqn:E; [|done].
    cbn [mbind option_bind]. intros [= <-].
    destruct (kitchenItems_fits _ _ _ _ Hall E) as (body & -> & Hbody).
    rewrite <- app_assoc. apply Forall_app. split;
      [apply kitchenHeader_Within|].
    apply Forall_app. split; [by apply Forall_Within_short|].
    repeat constructor. by vm_compute.
Qed.

Lemma kitchen_receipt_fits_witness :
  is_Some (@buildKitchenReceipt sampleRuntime 40 sampleOrder
             (kitchenLine <$> sampleLines) 1).
Proof.
  apply (proj1 (@kitchen_receipt_fits sampleRuntime sampleOrder
                  (kitchenLine <$> sampleLines) 1
                  ltac:(apply (bool_decide_unpack _); by vm_compute))).
  apply (bool_decide_unpack _). by vm_compute.
Defined.

(* ===================================================================== *)
(** * Items grouped by kitchen printer *)
(* ===================================================================== *)

Section KitchenGrouping.

Implicit Types (items : list OrderItemIn) (k : jstring) (L : list jstring).

Lemma itemsFor_snoc k items it :
  itemsFor k (items ++ [it])
  = itemsFor k items ++ (if decide (kitchenPrinterOf it = k) then [it] else []).
Proof. unfold itemsFor. by rewrite filter_app. Qed.

Lemma itemsFor_absent k items :
  k ∉ kitchenPrinterOf <$> items -> itemsFor k items = [].
Proof.
  intros Hk. unfold itemsFor. induction items as [|it items IH]; [done|].
  rewrite fmap_cons, not_elem_of_cons in Hk. destruct Hk as [Hne Hk].
  rewrite filter_cons_False by done. by apply IH.
Qed.

Lemma elem_of_kitchenPrintersOf k items :
  k ∈ kitchenPrintersOf items <-> k <> [] /\ k ∈ kitchenPrinterOf <$> items.
Proof.
  unfold kitchenPrintersOf.
  by rewrite elem_of_firstOccurrences, list_elem_of_filter.
Qed.

Lemma kitchenPrintersOf_snoc items it :
  kitchenPrintersOf (items ++ [it])
  = match kitchenPrinterOf it with
    | [] => kitchenPrintersOf items
    | k => if decide (k ∈ kitchenPrintersOf items)
           then kitchenPrintersOf items
           else kitchenPrintersOf items ++ [k]
    end.
Proof.
  unfold kitchenPrintersOf. rewrite fmap_app, filter_app. cbn [fmap list_fmap].
  destruct (kitchenPrinterOf it) as [|c k] eqn:E.
  - rewrite filter_cons_False by (by intros ?). by rewrite app_nil_r.
  - rewrite filter_cons_True by done. cbn [filter list_filter].
    rewrite firstOccurrences_snoc.
    destruct (decide (c :: k ∈ filter _ _)) as [Hin|Hin].
    + rewrite decide_True; [done|]. by apply elem_of_firstOccurrences.
    + rewrite decide_False; [done|]. by rewrite elem_of_firstOccurrences.
Qed.

(** The map built by the loop over the items. *)
Lemma kitchenByPrinterId_spec (order : IncomingOrder) :
  kitchenByPrinterId order
  = (fun k => (k, kitchenLineOf <$> itemsFor k (orderItems order)))
      <$> kitchenPrintersOf (orderItems order).
Proof.
  unfold kitchenByPrinterId.
  induction (orderItems order) as [|it items IH] using rev_ind; [done|].
  rewrite foldl_app. cbn [foldl]. rewrite IH. clear IH.
  rewrite kitchenPrintersOf_snoc. fold (kitchenPrinterOf it).
  destruct (kitchenPrinterOf it) as [|c k0] eqn:E.
  - apply list_fmap_ext. intros i p Hp. rewrite itemsFor_snoc, E.
    rewrite decide_False; [by rewrite app_nil_r|]. intros <-.
    apply list_elem_of_lookup_2, elem_of_kitchenPrintersOf in Hp. by destruct Hp.
  - cbv beta iota zeta.
    change {| foodName := _; quantity := _; notes := _ |} with (kitchenLineOf it).
    set (k := c :: k0) in *.
    destruct (decide (k ∈ kitchenPrintersOf items)) as [Hin|Hin].
    + rewrite (mapPush_known (fun p => kitchenLineOf <$> itemsFor p items));
        [|apply NoDup_firstOccurrences|done].
      apply list_fmap_ext. intros i p Hp. rewrite itemsFor_snoc, E.
      destruct (decide (p = k)) as [->|Hne].
      * rewrite decide_True by done. by rewrite fmap_app.
      * rewrite decide_False by done. by rewrite app_nil_r.
    + rewrite (mapPush_fresh (fun p => kitchenLineOf <$> itemsFor p items))
        by done.
      rewrite fmap_app. cbn [fmap list_fmap]. f_equal.
      * apply list_fmap_ext. intros i p Hp. rewrite itemsFor_snoc, E.
        rewrite decide_False; [by rewrite app_nil_r|]. intros ->.
        apply Hin. by eapply list_elem_of_lookup_2.
      * rewrite itemsFor_snoc, E. rewrite decide_True by done.
        rewrite itemsFor_absent; [done|]. intros Hk. apply Hin.
        by apply elem_of_kitchenPrintersOf.
Qed.

Lemma fmap_pair_fst {A B} (F : A -> B) (xs : list A) :
  ((fun x => (x, F x)) <$> xs).*1 = xs.
Proof. induction xs as [|x xs IH]; [done|]. cbn. by rewrite IH. Qed.

Lemma fmap_pair_snd {A B} (F : A -> B) (xs : list A) :
  ((fun x => (x, F x)) <$> xs).*2 = F <$> xs.
Proof. induction xs as [|x xs IH]; [done|]. cbn. by rewrite IH. Qed.

Lemma join_fmap_fmap {A B C} (f : B -> C) (g : A -> list B) (xs : list A) :
  mjoin ((fun x => f <$> g x) <$> xs) = f <$> mjoin (g <$> xs).
Proof.
  induction xs as [|x xs IH]; [done|]. cbn. rewrite fmap_app. f_equal.
  exact IH.
Qed.

Lemma filter_ext_elem {A} (P Q : A -> Prop) `{!forall x, Decision (P x)}
    `{!forall x, Decision (Q x)} (xs : list A) :
  (forall x, x ∈ xs -> P x <-> Q x) -> filter P xs = filter Q xs.
Proof.
  induction xs as [|x xs IH]; [done|]. intros Hext.
  assert (Hx : P x <-> Q x) by (apply Hext; by left).
  assert (Hxs : filter P xs = filter Q xs).
  { apply IH. intros y Hy. apply Hext. by right. }
  destruct (decide (P x)) as [HP|HP].
  - rewrite !filter_cons_True by tauto. by rewrite Hxs.
  - rewrite !filter_cons_False by tauto. done.
Qed.

(** The groups of a list of keys without repetition are the items whose
    key is in the list. *)
Lemma itemsFor_partition items L :
  NoDup L ->
  mjoin ((fun k => itemsFor k items) <$> L)
  ≡ₚ filter (fun it => kitchenPrinterOf it ∈ L) items.
Proof.
  induction L as [|p L IH].
  - intros _. cbn. induction items as [|it items IHi]; [done|].
    rewrite filter_cons_False; [done|]. apply not_elem_of_nil.
  - intros [Hp HL]%NoDup_cons. rewrite fmap_cons. cbn [mjoin list_join].
    rewrite IH by done. clear IH. unfold itemsFor.
    induction items as [|it items IHi]; [done|].
    destruct (decide (kitchenPrinterOf it = p)) as [E|Hne].
    + rewrite filter_cons_True by done.
      rewrite (filter_cons_False (fun it => kitchenPrinterOf it ∈ L))
        by (by rewrite E).
      rewrite (filter_cons_True (fun it => kitchenPrinterOf it ∈ p :: L))
        by (rewrite E; by left).
      cbn [app]. by rewrite IHi.
    + rewrite filter_cons_False by done.
      destruct (decide (kitchenPrinterOf it ∈ L)) as [Hin|Hin].
      * rewrite (filter_cons_True (fun it => kitchenPrinterOf it ∈ L)) by done.
        rewrite (filter_cons_True (fun it => kitchenPrinterOf it ∈ p :: L))
          by (by right).
        rewrite <- Permutation_middle. by rewrite IHi.
      * rewrite (filter_cons_False (fun it => kitchenPrinterOf it ∈ L)) by done.
        rewrite (filter_cons_False (fun it => kitchenPrinterOf it ∈ p :: L));
          [done|].
        rewrite elem_of_cons. tauto.
Qed.

End KitchenGrouping.

(** X7. The handler groups the items of an order by kitchen printer: the
    map it builds has one entry for each printer id that occurs
    (trimmed, non-empty), in the order of the first item of each; the entry
    of a printer holds the lines of exactly its items, in their order. So
    every item that names a printer is on exactly one kitchen receipt, and
    an item without a printer is on none. *)
Theorem kitchen_grouping (order : IncomingOrder) :
  kitchenByPrinterId order
  = (fun k => (k, kitchenLineOf <$> itemsFor k (orderItems order)))
      <$> kitchenPrintersOf (orderItems order)
  /\ NoDup (kitchenByPrinterId order).*1
  /\ Forall (fun e => e.1 <> [] /\ e.2 <> []) (kitchenByPrinterId order)
  /\ mjoin (kitchenByPrinterId order).*2
     ≡ₚ kitchenLineOf
          <$> filter (fun it => kitchenPrinterOf it <> []) (orderItems order).
Proof.
  rewrite kitchenByPrinterId_spec.
  set (items := orderItems order). split; [done|].
  rewrite fmap_pair_fst, fmap_pair_snd. split; [|split].
  - apply NoDup_firstOccurrences.
  - apply Forall_fmap, Forall_forall. intros k Hk. cbn.
    apply elem_of_kitchenPrintersOf in Hk as [Hne Hin]. split; [done|].
    apply list_elem_of_fmap in Hin as (it & -> & Hit).
    intros E%fmap_nil_inv.
    assert (Hi : it ∈ itemsFor (kitchenPrinterOf it) items)
      by (by apply list_elem_of_filter).
    rewrite E in Hi. by apply elem_of_nil in Hi.
  - rewrite join_fmap_fmap. apply fmap_Permutation.
    rewrite itemsFor_partition by apply NoDup_firstOccurrences.
    erewrite filter_ext_elem; [done|]. intros it Hit. cbn.
    rewrite elem_of_kitchenPrintersOf. split; [tauto|]. intros Hne.
    split; [done|]. apply list_elem_of_fmap. by exists it.
Qed.

(* ===================================================================== *)
(** * Printing now or later: [safePrint] and the sweep *)
(* ===================================================================== *)

Section DeliveryFacts.

Context `{Runtime} `{Network}.

Lemma getPrinterStatus_eq ip port w :
  getPrinterStatus ip port w
  = (match statusOutcome (conns w) with
     | Data chunk => Resolved (statusOfByte (default 0 (head chunk)))
     | NoReply => Rejected Timeout
     | SocketError => Rejected TransportError
     end, connect (queryOf ip port) w).
Proof. unfold getPrinterStatus. by destruct (statusOutcome (conns w)). Qed.

Lemma sendToPrinter_valid ip port data w :
  invalidAddress ip port = false ->
  sendToPrinter ip port data w
  = (if sendOutcome (conns w) then Resolved () else Rejected TransportError,
     connect (Write (trim ip) port (encodePayload data)) w).
Proof.
  intros E. unfold sendToPrinter. rewrite E. by destruct (sendOutcome (conns w)).
Qed.

(** One sweep, as a relation. *)
Lemma processQueue_Swept m w :
  isProcessing m = false ->
  exists kept w',
    processQueue (m, w) = ({| queue := kept; isProcessing := false |}, w')
    /\ Swept w (groupsOf (queue m)) kept w'.
Proof.
  intros E. unfold processQueue. rewrite E. case_bool_decide as Hq.
  - destruct m as [q p]. cbn in *. subst p. destruct q; [|done].
    exists [], w. split; [done|]. constructor.
  - destruct (foldl_processGroup_spec (groupJobs (queue m)) [] w)
      as (kept & w' & events & Hf & Hs & _).
    { rewrite groupJobs_groups. apply groupsOf_nonempty. }
    rewrite Hf. rewrite groupJobs_groups in Hs. by exists kept, w'.
Qed.

Lemma writes_app (e1 e2 : list Event) : writes (e1 ++ e2) = writes e1 ++ writes e2.
Proof. unfold writes. by rewrite List.filter_app. Qed.

(** ** When every printer is ready and every payload is accepted *)

Section AllReady.

Hypothesis all_ready : forall n, readyOutcome (statusOutcome n) = true.
Hypothesis all_accepted : forall n, sendOutcome n = true.

Lemma Attempted_all_sent w jobs kept w' :
  Attempted w jobs kept w' ->
  Forall (fun job => invalidAddress (ip job) (port job) = false) jobs ->
  kept = [] /\ log w' = log w ++ (writeOf <$> jobs).
Proof.
  induction 1 as [w|w w1 w2 job jobs kept Hs Ha IH
                 |w w1 w2 e job jobs kept Hs Ha IH]; intros Hv.
  - by rewrite app_nil_r.
  - apply Forall_cons in Hv as [Hj Hv]. destruct (IH Hv) as [-> ->].
    split; [done|]. rewrite sendToPrinter_valid in Hs by done.
    injection Hs as _ <-. cbn. by rewrite <- app_assoc.
  - apply Forall_cons in Hv as [Hj Hv].
    rewrite sendToPrinter_valid, all_accepted in Hs by done. discriminate.
Qed.

Lemma GroupSwept_all_sent w jobs kept w' :
  GroupSwept w jobs kept w' ->
  Forall (fun job => invalidAddress (ip job) (port job) = false) jobs ->
  kept = []
  /\ exists events, log w' = log w ++ events
                    /\ writes events = writeOf <$> jobs
                    /\ queries events = 1%nat.
Proof.
  intros Hg Hv.
  destruct Hg as [w w1 w2 status job0 jobs kept Hst Hready Ha
                 |w w1 job0 jobs Hst|w w1 e job0 jobs Hst];
    rewrite getPrinterStatus_eq in Hst; pose proof (all_ready (conns w)) as Hr;
    destruct (statusOutcome (conns w)) as [chunk| |]; try discriminate;
    cbn [readyOutcome] in Hr.
  - injection Hst as _ <-.
    destruct (Attempted_all_sent _ _ _ _ Ha Hv) as [-> ->]. split; [done|].
    exists (queryOf (ip job0) (port job0) :: (writeOf <$> job0 :: jobs)).
    split; [cbn [connect log]; by rewrite <- app_assoc|]. split.
    + cbn [writes List.filter isQuery queryOf negb].
      unfold writes. clear. induction (job0 :: jobs) as [|j l IH]; [done|].
      cbn. by rewrite IH.
    + unfold queries. cbn [List.filter queryOf isQuery length]. f_equal.
      clear. induction (job0 :: jobs) as [|j l IH]; [done|]. cbn. exact IH.
  - injection Hst as Hst _. rewrite Hst in Hr. discriminate.
Qed.

Lemma Swept_all_sent w groups kept w' :
  Swept w groups kept w' ->
  Forall (fun job => invalidAddress (ip job) (port job) = false) (mjoin groups) ->
  kept = []
  /\ exists events, log w' = log w ++ events
                    /\ writes events = writeOf <$> mjoin groups
                    /\ queries events = length groups.
Proof.
  induction 1 as [w|w w1 w2 jobs groups kept kept' Hg Hs IH]; intros Hv.
  - split; [done|]. exists []. by rewrite app_nil_r.
  - cbn [mjoin list_join] in Hv. apply Forall_app in Hv as [Hv1 Hv2].
    destruct (GroupSwept_all_sent _ _ _ _ Hg Hv1) as (-> & ev1 & L1 & W1 & Q1).
    destruct (IH Hv2) as (-> & ev2 & L2 & W2 & Q2). split; [done|].
    exists (ev1 ++ ev2). split_and!.
    + by rewrite L2, L1, <- app_assoc.
    + rewrite writes_app, W1, W2. cbn [mjoin list_join]. by rewrite fmap_app.
    + rewrite queries_app, Q1, Q2. done.
Qed.

End AllReady.

(** ** When no printer is ready *)

Section NoneReady.

Hypothesis none_ready : forall n, readyOutcome (statusOutcome n) = false.

Lemma GroupSwept_all_kept w jobs kept w' :
  GroupSwept w jobs kept w' ->
  kept = jobs
  /\ exists ip port, log w' = log w ++ [queryOf ip port].
Proof.
  intros Hg.
  destruct Hg as [w w1 w2 status job0 jobs kept Hst Hready Ha
                 |w w1 job0 jobs Hst|w w1 e job0 jobs Hst];
    rewrite getPrinterStatus_eq in Hst; pose proof (none_ready (conns w)) as Hr.
  - exfalso. destruct (statusOutcome (conns w)); try discriminate.
    injection Hst as Hst _. cbn [readyOutcome] in Hr. rewrite Hst in Hr.
    by destruct Hready as [-> | ->].
  - injection Hst as _ <-. split; [done|]. by eexists _, _.
  - injection Hst as _ <-. split; [done|]. by eexists _, _.
Qed.

Lemma Swept_all_kept w groups kept w' :
  Swept w groups kept w' ->
  kept = mjoin groups
  /\ exists events, log w' = log w ++ events
                    /\ writes events = []
                    /\ queries events = length groups.
Proof.
  induction 1 as [w|w w1 w2 jobs groups kept kept' Hg Hs IH].
  - split; [done|]. exists []. by rewrite app_nil_r.
  - destruct (GroupSwept_all_kept _ _ _ _ Hg) as (-> & ip0 & port0 & L1).
    destruct IH as (-> & ev2 & L2 & W2 & Q2). split; [done|].
    exists (queryOf ip0 port0 :: ev2). split_and!.
    + rewrite L2, L1, <- app_assoc. done.
    + exact W2.
    + cbn. by rewrite <- Q2.
Qed.

End NoneReady.

(** ** The order of the jobs of a printer *)

Lemma Attempted_sublist w jobs kept w' :
  Attempted w jobs kept w' -> kept `sublist_of` jobs.
Proof.
  induction 1; [constructor|by apply sublist_cons|by apply sublist_skip].
Qed.

Lemma GroupSwept_sublist w jobs kept w' :
  GroupSwept w jobs kept w' -> kept `sublist_of` jobs.
Proof. destruct 1; [by eapply Attempted_sublist|done|done]. Qed.

Lemma Swept_sublist w groups kept w' :
  Swept w groups kept w' -> kept `sublist_of` mjoin groups.
Proof.
  induction 1 as [w|w w1 w2 jobs groups kept kept' Hg Hs IH]; [done|].
  cbn [mjoin list_join]. apply sublist_app; [|done].
  by eapply GroupSwept_sublist.
Qed.

End DeliveryFacts.

Section OrderFacts.

Lemma filter_sublist {A} (P : A -> Prop) `{!forall x, Decision (P x)}
    (l1 l2 : list A) :
  l1 `sublist_of` l2 -> filter P l1 `sublist_of` filter P l2.
Proof.
  induction 1 as [|x l1 l2 Hs IH|x l1 l2 Hs IH]; [done| |].
  - destruct (decide (P x)).
    + rewrite !filter_cons_True by done. by apply sublist_skip.
    + by rewrite !filter_cons_False by done.
  - destruct (decide (P x)).
    + rewrite filter_cons_True by done. by apply sublist_cons.
    + by rewrite filter_cons_False by done.
Qed.

Lemma jobsOf_jobsOf pid p q :
  jobsOf pid (jobsOf p q) = if decide (p = pid) then jobsOf pid q else [].
Proof.
  unfold jobsOf. rewrite list_filter_filter.
  destruct (decide (p = pid)) as [->|Hne].
  - apply list_filter_iff. tauto.
  - induction q as [|job q IH]; [done|].
    rewrite filter_cons_False; [done|]. intros [E1 E2]. congruence.
Qed.

Lemma jobsOf_app pid (q1 q2 : list PrintJob) :
  jobsOf pid (q1 ++ q2) = jobsOf pid q1 ++ jobsOf pid q2.
Proof. unfold jobsOf. by rewrite filter_app. Qed.

Lemma jobsOf_groups pid q (L : list jstring) :
  NoDup L ->
  jobsOf pid (mjoin ((fun p => jobsOf p q) <$> L))
  = if decide (pid ∈ L) then jobsOf pid q else [].
Proof.
  induction L as [|p L IH]; [done|]. intros [Hp HL]%NoDup_cons.
  rewrite fmap_cons.
  change (mjoin (jobsOf p q :: ((fun p => jobsOf p q) <$> L)))
    with (jobsOf p q ++ mjoin ((fun p => jobsOf p q) <$> L)).
  rewrite jobsOf_app, IH by done. rewrite jobsOf_jobsOf.
  destruct (decide (p = pid)) as [->|Hne].
  - rewrite (decide_False (P := pid ∈ L)) by done.
    rewrite decide_True by (by left). by rewrite app_nil_r.
  - destruct (decide (pid ∈ L)).
    + by rewrite decide_True by (by right).
    + rewrite decide_False; [done|]. rewrite elem_of_cons. intros [?|?]; done.
Qed.

(** Grouping does not change the jobs of a printer nor their order. *)
Lemma jobsOf_groupsOf pid q : jobsOf pid (mjoin (groupsOf q)) = jobsOf pid q.
Proof.
  unfold groupsOf. rewrite jobsOf_groups by apply NoDup_firstOccurrences.
  destruct (decide (pid ∈ firstOccurrences (printerId <$> q))) as [|Hn]; [done|].
  symmetry. apply jobsOf_absent. by rewrite <- elem_of_firstOccurrences.
Qed.

End OrderFacts.

(** X8. [safePrint] either writes a receipt to the printer or appends it
    to the queue. It first queries the status of the printer. When the
    printer answers [OK] or [CARTA_QUASI_FINITA], the address is accepted
    and the connection succeeds, the payload is written and [safePrint]
    adds nothing to the queue. In every other case it appends exactly one
    job to the queue as it is at that moment, with the printer id, address
    and data of the call and no attempt counted. When the printer is not
    ready nothing but the status query goes on the wire. (This is what the
    call itself does; whether the job is still in the queue later is up to
    the sweeps, and a sweep that is under way at that moment drops it.) *)
Theorem safePrint_prints_or_queues `{Runtime} `{Network}
    (printerId ip : jstring) (port : JsNum) (data : PrintData)
    (m : PrintQueueManager) (w : World) :
  let st' := safePrint printerId ip port data (m, w) in
  let go := readyOutcome (statusOutcome (conns w)) in
  let sent :=
    go && negb (invalidAddress ip port) && sendOutcome (S (conns w)) in
  (sent = true ->
     st'.1 = m
     /\ log st'.2
        = log w ++ [queryOf ip port;
                    Write (trim ip) port (encodePayload data)])
  /\ (sent = false ->
      exists job,
        queue st'.1 = queue m ++ [job]
        /\ isProcessing st'.1 = isProcessing m
        /\ Queue.printerId job = printerId /\ Queue.ip job = ip
        /\ Queue.port job = port /\ Queue.data job = data
        /\ attempts job = 0)
  /\ (go = false -> log st'.2 = log w ++ [queryOf ip port]).
Proof.
  cbv zeta. unfold safePrint. rewrite getPrinterStatus_eq.
  destruct (statusOutcome (conns w)) as [chunk| |]; cbn [readyOutcome andb].
  - destruct (statusOfByte (default 0 (head chunk))); cbn [ready andb negb].
    + unfold sendToPrinter. destruct (invalidAddress ip port); cbn [negb andb].
      * split_and!; [done| |done]. intros _. by eexists.
      * cbn [connect conns].
        destruct (sendOutcome (S (conns w))); split_and!; try done.
        -- intros _. split; [done|]. cbn. by rewrite <- app_assoc.
        -- intros _. by eexists.
    + unfold sendToPrinter. destruct (invalidAddress ip port); cbn [negb andb].
      * split_and!; [done| |done]. intros _. by eexists.
      * cbn [connect conns].
        destruct (sendOutcome (S (conns w))); split_and!; try done.
        -- intros _. split; [done|]. cbn. by rewrite <- app_assoc.
        -- intros _. by eexists.
    + split_and!; [done| |done]. intros _. by eexists.
  - split_and!; [done| |done]. intros _. by eexists.
  - split_and!; [done| |done]. intros _. by eexists.
Qed.

(** X9. A sweep never changes the order in which the receipts of a printer
    wait: the jobs of a printer that are in the queue after the sweep are
    jobs it had before, in the same order. (Across printers the queue is
    regrouped: the kept jobs come printer by printer.) *)
Theorem sweep_keeps_printer_order `{Runtime} `{Network}
    (m : PrintQueueManager) (w : World) :
  (isProcessing m = false ->
   queue (processQueue (m, w)).1 `sublist_of` mjoin (groupsOf (queue m)))
  /\ (forall pid,
        jobsOf pid (queue (processQueue (m, w)).1)
        `sublist_of` jobsOf pid (queue m)).
Proof.
  assert (Hs : isProcessing m = false ->
               queue (processQueue (m, w)).1
               `sublist_of` mjoin (groupsOf (queue m))).
  { intros E. destruct (processQueue_Swept m w E) as (kept & w' & -> & Hs).
    by eapply Swept_sublist. }
  split; [done|]. intros pid.
  destruct (isProcessing m) eqn:E.
  - unfold processQueue. by rewrite E.
  - rewrite <- (jobsOf_groupsOf pid (queue m)). apply filter_sublist. by apply Hs.
Qed.

(** X10. When every printer answers the status query with [OK] or
    [CARTA_QUASI_FINITA], every connection succeeds and every job has an
    address that [sendToPrinter] accepts, one sweep empties the queue: the
    payload of every job is written exactly once, to the address of the
    job, printer by printer and in queue order for each printer, after one
    status query for each printer. *)
Theorem sweep_delivers_all `{Runtime} `{Network} (m : PrintQueueManager)
    (w : World) :
  isProcessing m = false ->
  (forall n, readyOutcome (statusOutcome n) = true) ->
  (forall n, sendOutcome n = true) ->
  Forall (fun job => invalidAddress (ip job) (port job) = false) (queue m) ->
  queue (processQueue (m, w)).1 = []
  /\ exists events,
       log (processQueue (m, w)).2 = log w ++ events
       /\ writes events = writeOf <$> mjoin (groupsOf (queue m))
       /\ queries events = length (groupsOf (queue m)).
Proof.
  intros E Hready Hsend Hvalid.
  destruct (processQueue_Swept m w E) as (kept & w' & -> & Hs).
  apply Swept_all_sent in Hs; [|done|done|by rewrite groupsOf_perm].
  destruct Hs as (-> & events & Hl & Hw & Hq). split; [done|].
  by exists events.
Qed.

Lemma sweep_delivers_all_witness :
  queue (@processQueue sampleRuntime (steadyNetwork 0)
           ({| queue := [sampleJob; sampleJob]; isProcessing := false |},
            freshWorld)).1 = [].
Proof.
  apply (@sweep_delivers_all sampleRuntime (steadyNetwork 0)
           {| queue := [sampleJob; sampleJob]; isProcessing := false |}
           freshWorld); [reflexivity|done|done|].
  repeat constructor.
Defined.

(** X11. When no printer is ready (paper out, no answer, or a socket
    error for every status query), a sweep sends nothing and keeps every
    job it found: only status queries go on the wire, one for each printer,
    and the queue afterwards holds the jobs that were in it when the sweep
    started, regrouped printer by printer. This is so whatever calls of
    [add] are made while the sweep waits for the answers: the jobs of these
    calls are not in the queue afterwards. *)
Theorem sweep_keeps_all_when_none_ready `{Runtime} `{Network}
    (m : PrintQueueManager) (w : World) :
  isProcessing m = false ->
  (forall n, readyOutcome (statusOutcome n) = false) ->
  queue (processQueue (m, w)).1 = mjoin (groupsOf (queue m))
  /\ queue (processQueue (m, w)).1 ≡ₚ queue m
  /\ (exists events,
        log (processQueue (m, w)).2 = log w ++ events
        /\ writes events = []
        /\ queries events = length (groupsOf (queue m)))
  /\ (forall arrivals,
        queue (processQueueDuring arrivals (m, w)).1
        = mjoin (groupsOf (queue m))
        /\ log (processQueueDuring arrivals (m, w)).2
           = log (processQueue (m, w)).2).
Proof.
  intros E Hnone.
  assert (Hd : forall arrivals,
             queue (processQueueDuring arrivals (m, w)).1
             = queue (processQueue (m, w)).1
             /\ log (processQueueDuring arrivals (m, w)).2
                = log (processQueue (m, w)).2).
  { intros arrivals.
    destruct (processQueueDuring_spec arrivals m w) as [Hr [d Hw]].
    by rewrite Hr, Hw. }
  destruct (processQueue_Swept m w E) as (kept & w' & Hp & Hs).
  rewrite Hp in *. clear Hp.
  apply Swept_all_kept in Hs; [|done].
  destruct Hs as (-> & events & Hl & Hw & Hq). split; [done|].
  split; [cbn; apply groupsOf_perm|]. split; [by exists events|].
  intros arrivals. destruct (Hd arrivals) as [-> ->]. done.
Qed.

Lemma sweep_keeps_all_when_none_ready_witness :
  queue (@processQueue sampleRuntime (steadyNetwork 0x60)
           ({| queue := [sampleJob; sampleJob]; isProcessing := false |},
            freshWorld)).1 = [sampleJob; sampleJob].
Proof.
  rewrite (proj1 (@sweep_keeps_all_when_none_ready sampleRuntime
                    (steadyNetwork 0x60)
                    {| queue := [sampleJob; sampleJob]; isProcessing := false |}
                    freshWorld eq_refl (fun _ => eq_refl))).
  reflexivity.
Defined.

(** X12. A receipt that could not be printed because the printer was not
    ready is printed by the next sweep that finds the printer ready, with
    the bytes and at the address an immediate print would have used: after
    [safePrint] the queue holds one job; after the sweep the queue is empty
    and the wire has seen the two status queries and one write of the
    payload of the receipt. *)
Theorem queued_receipt_is_delivered `{Runtime} `{Network}
    (printerId ip : jstring) (port : JsNum) (data : PrintData) (w : World) :
  invalidAddress ip port = false ->
  readyOutcome (statusOutcome (conns w)) = false ->
  readyOutcome (statusOutcome (S (conns w))) = true ->
  sendOutcome (S (S (conns w))) = true ->
  let st1 := safePrint printerId ip port data (emptyQueue, w) in
  let st2 := processQueue st1 in
  length (queue st1.1) = 1%nat
  /\ queue st2.1 = []
  /\ log st2.2
     = log w ++ [queryOf ip port; queryOf ip port;
                 Write (trim ip) port (encodePayload data)].
Proof.
  intros Hvalid Hout Hready Hsend. cbv zeta.
  assert (Hst1 : exists job,
             safePrint printerId ip port data (emptyQueue, w)
             = ({| queue := [job]; isProcessing := false |},
                {| conns := S (conns w); draws := S (draws w);
                   log := log w ++ [queryOf ip port] |})
             /\ Queue.ip job = ip /\ Queue.port job = port
             /\ Queue.data job = data).
  { unfold safePrint. rewrite getPrinterStatus_eq.
    destruct (statusOutcome (conns w)) as [chunk| |]; cbn [readyOutcome] in Hout.
    - destruct (statusOfByte (default 0 (head chunk))); try discriminate.
      by eexists.
    - by eexists.
    - by eexists. }
  destruct Hst1 as (job & -> & Hip & Hport & Hdata). split; [done|].
  unfold processQueue. cbn [isProcessing queue length bool_decide].
  rewrite bool_decide_eq_false_2 by done.
  cbn [groupJobs foldl mapPush processGroup snd].
  rewrite getPrinterStatus_eq. cbn [conns].
  destruct (statusOutcome (S (conns w))) as [chunk| |];
    cbn [readyOutcome] in Hready; try discriminate.
  assert (Hsent :
    sendJobs [job] ([], connect (queryOf (Queue.ip job) (Queue.port job))
                          {| conns := S (conns w); draws := S (draws w);
                             log := log w ++ [queryOf ip port] |})
    = ([], {| conns := S (S (S (conns w))); draws := S (draws w);
              log := log w ++ [queryOf ip port; queryOf ip port;
                               Write (trim ip) port (encodePayload data)] |})).
  { unfold sendJobs. cbn [foldl]. rewrite Hip, Hport, Hdata.
    rewrite sendToPrinter_valid by done. cbn [connect conns draws log].
    rewrite Hsend. unfold connect. cbn [conns draws log].
    by rewrite <- !app_assoc. }
  destruct (statusOfByte (default 0 (head chunk))); try discriminate;
    by rewrite Hsent.
Qed.

Lemma queued_receipt_is_delivered_witness :
  let st1 := @safePrint sampleRuntime paperRefilled (js "P1") (js "10.0.0.7")
               (NFinite (Qc_of_Z 9100)) (Single (Text (js "receipt")))
               (emptyQueue, freshWorld) in
  queue (@processQueue sampleRuntime paperRefilled st1).1 = [].
Proof.
  cbv zeta.
  apply (@queued_receipt_is_delivered sampleRuntime paperRefilled (js "P1")
           (js "10.0.0.7") (NFinite (Qc_of_Z 9100))
           (Single (Text (js "receipt"))) freshWorld);
    reflexivity.
Defined.

(* ===================================================================== *)
(** * Ports and printer records *)
(* ===================================================================== *)

Section TrimFacts.

Lemma trimEnd_nil_or_last s :
  trimEnd s = [] \/ exists t c, trimEnd s = t ++ [c] /\ is_ws c = false.
Proof.
  induction s as [|c s IH]; [by left|]. cbn [trimEnd].
  destruct IH as [->|(t & c' & -> & Hc')].
  - destruct (is_ws c) eqn:E; [by left|]. right. by exists [], c.
  - right. exists (c :: t), c'. split; [|done]. by destruct t.
Qed.

Lemma trimEnd_idem s : trimEnd (trimEnd s) = trimEnd s.
Proof.
  induction s as [|c s IH]; [done|]. cbn [trimEnd].
  destruct (trimEnd s) as [|c' t] eqn:E.
  - destruct (is_ws c) eqn:Ec; [done|]. cbn. by rewrite Ec.
  - cbn [trimEnd]. cbn [trimEnd] in IH. by rewrite IH.
Qed.

Lemma trimStart_idem s : trimStart (trimStart s) = trimStart s.
Proof.
  induction s as [|c s IH]; [done|]. cbn [trimStart].
  destruct (is_ws c) eqn:E; [done|]. cbn. by rewrite E.
Qed.

Lemma trimStart_trimEnd s : trimEnd (trimStart s) = trimStart (trimEnd s).
Proof.
  induction s as [|c s IH]; [done|]. cbn [trimStart].
  destruct (is_ws c) eqn:E.
  - rewrite IH. cbn [trimEnd]. destruct (trimEnd s) as [|c' t]; rewrite ?E; [done|].
    cbn [trimStart]. by rewrite E.
  - cbn [trimEnd]. destruct (trimEnd s) as [|c' t]; rewrite ?E; cbn; by rewrite E.
Qed.

Lemma trim_idem s : trim (trim s) = trim s.
Proof.
  unfold trim. by rewrite trimStart_trimEnd, trimEnd_idem, trimStart_idem.
Qed.

End TrimFacts.

Section ParseFacts.

Lemma is_digit_not_ws c : is_digit c = true -> is_ws c = false.
Proof.
  unfold is_digit. intros [H1 H2]%andb_prop.
  apply N.leb_le in H1, H2.
  assert (Hc : (c = 48 \/ c = 49 \/ c = 50 \/ c = 51 \/ c = 52 \/ c = 53
                \/ c = 54 \/ c = 55 \/ c = 56 \/ c = 57)%N) by lia.
  by repeat (destruct Hc as [->|Hc]); try subst c.
Qed.

Lemma is_digit_not_sign c :
  is_digit c = true -> N.eqb c 45 = false /\ N.eqb c 43 = false.
Proof.
  unfold is_digit. intros [H1 H2]%andb_prop.
  apply N.leb_le in H1, H2. split; apply N.eqb_neq; lia.
Qed.

(** [parseInt] reads back the digits of a non-negative integer. *)
Lemma mathInt10_ofZ (n : Z) : 0 <= n -> mathInt10 (ofZ n) = Some n.
Proof.
  intros Hn. pose proof (ofZ_digits n Hn) as Hd.
  pose proof (ofZ_nonempty n) as Hne. pose proof (digitsValue_ofZ n Hn) as Hv.
  unfold mathInt10. destruct (ofZ n) as [|c s] eqn:E; [done|].
  pose proof (Forall_inv Hd) as Hc. cbn [trimStart].
  rewrite (is_digit_not_ws c Hc).
  destruct (is_digit_not_sign c Hc) as [-> ->].
  rewrite digitsPrefix_all by done. rewrite Hv. f_equal. lia.
Qed.

(** An integer up to 2^53 is a double. *)
Lemma numberOfZ_safe (n : Z) :
  Z.abs n <= 2 ^ 53 -> numberOfZ n = NFinite (Qc_of_Z n).
Proof.
  intros Hn. unfold numberOfZ. destruct (Z.ltb_spec (Z.abs n) (2 ^ 53)); [done|].
  assert (Ha : Z.abs n = 2 ^ 53) by lia. rewrite Ha.
  change (Z.log2 (2 ^ 53) - 52) with 1. cbv zeta.
  change (2 ^ 53 mod 2 ^ 1) with 0. change (2 ^ (1 - 1)) with 1.
  change (0 <? 1) with true. cbv iota.
  change (2 ^ 53 / 2 ^ 1 * 2 ^ 1) with (2 ^ 53).
  change (2 ^ 1024 <=? 2 ^ 53) with false. cbv iota.
  do 2 f_equal. rewrite <- Ha. clear. destruct n; cbn; lia.
Qed.

(** An integer from 2^1024 on is beyond the doubles. *)
Lemma numberOfZ_overflow (n : Z) : 2 ^ 1024 <= n -> numberOfZ n = NPosInf.
Proof.
  intros Hn. unfold numberOfZ. rewrite Z.abs_eq by lia.
  destruct (Z.ltb_spec n (2 ^ 53)); [lia|]. cbv zeta.
  set (e := Z.log2 n - 52). set (q := n / 2 ^ e). set (r := n mod 2 ^ e).
  assert (Hl : 1024 <= Z.log2 n) by (apply Z.log2_le_pow2; lia).
  assert (He : 0 < e) by (unfold e; lia).
  assert (Hp : 0 < 2 ^ e) by (apply Z.pow_pos_nonneg; lia).
  assert (Hq : 2 ^ 52 <= q).
  { unfold q. apply Z.div_le_lower_bound; [done|].
    rewrite Z.mul_comm, <- Z.pow_add_r by lia.
    replace (52 + e) with (Z.log2 n) by (unfold e; lia).
    apply Z.log2_spec. lia. }
  assert (Hx : 2 ^ 1024 <= q * 2 ^ e).
  { etransitivity; [|apply Z.mul_le_mono_nonneg_r; [lia|exact Hq]].
    rewrite <- Z.pow_add_r by lia. apply Z.pow_le_mono_r; [lia|]. unfold e. lia. }
  assert (Hx1 : q * 2 ^ e <= (q + 1) * 2 ^ e) by nia.
  destruct (r <? 2 ^ (e - 1)); [|destruct (2 ^ (e - 1) <? r);
                                   [|destruct (Z.even q)]];
    (rewrite (proj2 (Z.leb_le _ _)) by lia);
    by destruct (Z.ltb_spec n 0); [lia|].
Qed.

End ParseFacts.

(** X13. [parsePort] reads a port written as a string of decimal digits,
    possibly with dots as thousands separators and white space around it
    (such as [" 9.100 "]), as the integer of its digits, when this integer
    is at most 2^53. For a string it never returns [NaN] or an infinity: a
    string without leading digits gives 0, as do a string of digits that
    write an integer from 2^1024 on, and [null]. *)
Theorem parsePort_reads_digits (s : jstring) :
  (forall n, 0 <= n <= 2 ^ 53 -> removeDots (trim s) = ofZ n ->
             parsePort (PString s) = NFinite (Qc_of_Z n))
  /\ (exists q, parsePort (PString s) = NFinite q)
  /\ (mathInt10 (removeDots (trim s)) = None ->
      parsePort (PString s) = NFinite 0%Qc)
  /\ (forall n, 2 ^ 1024 <= n -> removeDots (trim s) = ofZ n ->
                parsePort (PString s) = NFinite 0%Qc)
  /\ parsePort PNull = NFinite 0%Qc.
Proof.
  unfold parsePort, parseInt10. cbv zeta. split_and!; [| | | |done].
  - intros n Hn ->. rewrite mathInt10_ofZ by lia.
    by rewrite numberOfZ_safe by lia.
  - destruct (mathInt10 _) as [n|]; [|by eexists].
    destruct (numberOfZ n); by eexists.
  - by intros ->.
  - intros n Hn ->. rewrite mathInt10_ofZ by lia.
    by rewrite numberOfZ_overflow.
Qed.

Lemma parsePort_reads_digits_witness :
  parsePort (PString (js " 9.100 ")) = NFinite (Qc_of_Z 9100).
Proof.
  apply (proj1 (parsePort_reads_digits (js " 9.100 ")) 9100); [lia|].
  by vm_compute.
Defined.

Section ResolveFacts.

Lemma JsNum_gt0_FinitePositive (n : JsNum) :
  JsNum_gt0 n = true -> n <> NPosInf -> FinitePositive n.
Proof.
  destruct n as [q| | |]; try done. intros Hq _. exists q. split; [done|].
  by apply Qc_ltb_lt.
Qed.

Lemma parsePort_not_inf (v : PortVal) :
  v <> PNumber NPosInf -> parsePort v <> NPosInf.
Proof.
  destruct v as [|n|s]; cbn [parsePort]; [done|congruence|].
  by destruct (parseInt10 _).
Qed.

(** What [parsePort] makes of a number that [parseInt] returned is refused
    or accepted by the guard of [sendToPrinter] as the number itself is. *)
Lemma invalidAddress_isFinite (ip0 : jstring) (n : JsNum) :
  invalidAddress ip0 (if Number_isFinite n then n else NFinite 0%Qc)
  = invalidAddress ip0 n.
Proof.
  destruct n as [q| | |]; [done|..];
    unfold invalidAddress; cbn; by rewrite !orb_true_r.
Qed.

End ResolveFacts.

(** X14. A printer resolved from the printer embedded in the cash register
    has an address that [sendToPrinter] accepts. With no cached printers,
    every target that [resolvePrinter] returns has a non-blank ip, already
    trimmed, and a finite port greater than 0 (the API not giving the port
    as the number [Infinity]), so a send to it is never rejected as an
    invalid address. The printer id is compared after trimming. *)
Theorem resolved_embedded_address_is_accepted `{Runtime} `{Network}
    (e : EmbeddedPrinter) (printerId : jstring) (t : PrinterTarget) :
  resolvePrinter (Some e) [] printerId = Some t ->
  embedded_port e <> PNumber NPosInf ->
  trim (embedded_id e) = trim printerId
  /\ target_ip t = trimStr (embedded_ip e)
  /\ target_port t = parsePort (embedded_port e)
  /\ invalidAddress (target_ip t) (target_port t) = false
  /\ (forall data w,
        (sendToPrinter (target_ip t) (target_port t) data w).1
        <> Rejected InvalidAddress).
Proof.
  intros Hres Hinf. unfold resolvePrinter in Hres. cbv zeta in Hres.
  destruct (trim printerId) as [|c pid] eqn:Epid; [done|].
  cbn [List.find] in Hres. case_bool_decide as Hid; [|done].
  destruct (negb (bool_decide (trimStr (embedded_ip e) = []))) eqn:Eip; [|done].
  destruct (JsNum_gt0 (parsePort (embedded_port e))) eqn:Eport; [|done].
  cbn [andb] in Hres. injection Hres as <-. cbn [target_ip target_port].
  apply negb_true_iff, bool_decide_eq_false in Eip.
  assert (Hok : invalidAddress (trimStr (embedded_ip e))
                  (parsePort (embedded_port e)) = false).
  { apply not_true_is_false. intros [Hblank|Hport]%invalidAddress_spec.
    - apply Eip. destruct (embedded_ip e) as [ip|]; [|done].
      cbn [trimStr] in *. by rewrite trim_idem in Hblank.
    - apply Hport, JsNum_gt0_FinitePositive; [done|].
      by apply parsePort_not_inf. }
  split_and!; try done. intros data w Hrej.
  apply sendToPrinter_rejects_iff in Hrej. congruence.
Qed.

Lemma resolved_embedded_address_is_accepted_witness :
  exists t,
    resolvePrinter
      (Some {| embedded_id := js "P9 "; embedded_ip := Some (js " 10.0.0.9");
               embedded_port := PString (js "9.100") |})
      [] (js " P9") = Some t
    /\ invalidAddress (target_ip t) (target_port t) = false.
Proof.
  eexists. split; [reflexivity|].
  apply (@resolved_embedded_address_is_accepted sampleRuntime (steadyNetwork 0)
           {| embedded_id := js "P9 "; embedded_ip := Some (js " 10.0.0.9");
              embedded_port := PString (js "9.100") |} (js " P9"));
    [reflexivity|discriminate].
Defined.

(** X15. Normalising a printer record with [Printer.fromJson] does not
    change how its port is accepted later. A port given as a number, or as
    a string whose leading digits write an integer of at most 2^53 in
    absolute value, is read by [parsePort] as the same number with or
    without [fromJson]. A string without a leading digit becomes [NaN] in
    the record, where [parsePort] alone reads 0. Whatever the port, the
    guard of [sendToPrinter] refuses it after [fromJson] exactly when it
    refuses it without. *)
Theorem fromJson_keeps_port (data : PrinterJson) :
  (forall n s, json_port data = PString s ->
               mathInt10 (removeDots (trim s)) = Some n ->
               Z.abs n <= 2 ^ 53 ->
               parsePort (printer_port (fromJson data))
               = NFinite (Qc_of_Z n)
               /\ parsePort (json_port data) = NFinite (Qc_of_Z n))
  /\ (forall s, json_port data = PString s ->
                mathInt10 (removeDots (trim s)) = None ->
                parsePort (printer_port (fromJson data)) = NNaN
                /\ parsePort (json_port data) = NFinite 0%Qc)
  /\ ((forall s, json_port data <> PString s) ->
      parsePort (printer_port (fromJson data)) = parsePort (json_port data))
  /\ (forall ip,
        invalidAddress ip (parsePort (printer_port (fromJson data)))
        = invalidAddress ip (parsePort (json_port data))).
Proof.
  unfold fromJson. cbv zeta. cbn [printer_port]. split_and!.
  - intros n s -> Hp Hn. cbn [parsePort]. unfold parseInt10.
    by rewrite Hp, numberOfZ_safe.
  - intros s -> Hp. cbn [parsePort]. unfold parseInt10. by rewrite Hp.
  - intros Hns. destruct (json_port data) as [|n|s]; [done|done|].
    by destruct (Hns s).
  - intros ip. destruct (json_port data) as [|n|s]; [done|done|].
    cbn [parsePort]. by rewrite invalidAddress_isFinite.
Qed.

Lemma fromJson_keeps_port_witness :
  parsePort (printer_port (fromJson
    {| json_id := Some (js "P1"); json_name := Some (js "Cucina");
       json_ip := Some (js "10.0.0.7"); json_port := PString (js "9.100");
       json_description := None; json_status := None |}))
  = NFinite (Qc_of_Z 9100).
Proof.
  apply (proj1 (fromJson_keeps_port
    {| json_id := Some (js "P1"); json_name := Some (js "Cucina");
       json_ip := Some (js "10.0.0.7"); json_port := PString (js "9.100");
       json_description := None; json_status := None |})
    9100 (js "9.100") eq_refl); by vm_compute.
Defined.

(* ===================================================================== *)
(** * The raster header *)
(* ===================================================================== *)

Section HeaderFacts.

Lemma length_foldl_preserved {A B} (f : list A -> B -> list A) (xs : list B) :
  (forall d x, length (f d x) = length d) ->
  forall d, length (foldl f d xs) = length d.
Proof.
  intros Hf. induction xs as [|x xs IH]; intros d; [done|].
  cbn [foldl]. by rewrite IH, Hf.
Qed.

Lemma length_packPixel getPixelColor widthBytes y data x :
  length (packPixel getPixelColor widthBytes y data x) = length data.
Proof.
  unfold packPixel, orByte. destruct (isBlack _); [|done].
  apply length_alter.
Qed.

(** The buffer keeps the size it was allocated with. *)
Lemma length_packBitmap getPixelColor paperWidth itemHeight :
  length (packBitmap getPixelColor paperWidth itemHeight)
  = Z.to_nat (widthBytesOf (paperWidthOf paperWidth) * itemHeight).
Proof.
  unfold packBitmap. cbv zeta.
  rewrite length_foldl_preserved; [by rewrite length_replicate|].
  intros d y. unfold packRow. apply length_foldl_preserved.
  intros d' x. apply length_packPixel.
Qed.

End HeaderFacts.

(** X16. The raster header announces exactly the data that follow it. For
    a paper width of at most 524280 dots and a canvas of fewer than 65536
    rows, the block starts with the command [1D 76 30 00], followed by the
    number of bytes of a row and the number of rows, each as two bytes, low
    byte first; and the data after the header have exactly (bytes of a
    row) times (rows) bytes. *)
Theorem rasterHeader_announces_data (getPixelColor : Z -> Z -> Z)
    (paperWidth : option Z) (itemHeight : Z) :
  0 < paperWidthOf paperWidth <= 524280 ->
  0 <= itemHeight < 65536 ->
  exists xL xH yL yH,
    rasterBlock getPixelColor paperWidth itemHeight
    = [0x1d; 0x76; 0x30; 0x00; xL; xH; yL; yH]
        ++ packBitmap getPixelColor paperWidth itemHeight
    /\ (0 <= xL < 256 /\ 0 <= xH < 256 /\ 0 <= yL < 256 /\ 0 <= yH < 256)
    /\ xL + 256 * xH = widthBytesOf (paperWidthOf paperWidth)
    /\ yL + 256 * yH = itemHeight
    /\ Z.of_nat (length (packBitmap getPixelColor paperWidth itemHeight))
       = (xL + 256 * xH) * (yL + 256 * yH).
Proof.
  intros Hw Hh. set (wb := widthBytesOf (paperWidthOf paperWidth)).
  assert (Hwb : 0 < wb < 65536).
  { subst wb. unfold widthBytesOf.
    pose proof (Z.div_mod (paperWidthOf paperWidth + 7) 8).
    pose proof (Z.mod_pos_bound (paperWidthOf paperWidth + 7) 8). lia. }
  exists (wb mod 256), (wb / 256), (itemHeight mod 256), (itemHeight / 256).
  pose proof (Z.div_mod wb 256). pose proof (Z.mod_pos_bound wb 256).
  pose proof (Z.div_mod itemHeight 256).
  pose proof (Z.mod_pos_bound itemHeight 256).
  assert (0 <= wb / 256 < 256) by (split; [apply Z.div_pos|apply Z.div_lt_upper_bound]; lia).
  assert (0 <= itemHeight / 256 < 256)
    by (split; [apply Z.div_pos|apply Z.div_lt_upper_bound]; lia).
  split_and!; try lia.
  - unfold rasterBlock, rasterHeader. fold wb. cbv zeta.
    cbn [List.map]. f_equal.
    rewrite Z.mod_mod by lia. rewrite (Z.mod_small (wb / 256)) by lia.
    rewrite Z.mod_mod by lia. by rewrite (Z.mod_small (itemHeight / 256)) by lia.
  - rewrite length_packBitmap. fold wb.
    replace (wb mod 256 + 256 * (wb / 256)) with wb by lia.
    replace (itemHeight mod 256 + 256 * (itemHeight / 256)) with itemHeight
      by lia.
    nia.
Qed.

Lemma rasterHeader_announces_data_witness :
  exists xL xH yL yH,
    rasterBlock firstColumnBlack None 300
    = [0x1d; 0x76; 0x30; 0x00; xL; xH; yL; yH]
        ++ packBitmap firstColumnBlack None 300
    /\ xL + 256 * xH = 48 /\ yL + 256 * yH = 300.
Proof.
  destruct (rasterHeader_announces_data firstColumnBlack None 300)
    as (xL & xH & yL & yH & Hb & _ & Hx & Hy & _);
    [by vm_compute|lia|].
  exists xL, xH, yL, yH. split; [exact Hb|]. split; [exact Hx|exact Hy].
Defined.

(* ===================================================================== *)
(** * The cash receipt and its single tickets on the wire *)
(* ===================================================================== *)

Section TicketFacts.

Context `{Runtime} `{Assets}.

Lemma pushFooter_app buf (parts : list Segment) :
  pushFooter buf parts = parts ++ pushFooter buf [].
Proof.
  unfold pushFooter. destruct buf as [b|]; [|by rewrite app_nil_r].
  destruct (0 <? _); [done|by rewrite app_nil_r].
Qed.

Lemma pushTicket_app order (parts : list Segment) ticket :
  pushTicket order mysagraFooterBuf parts ticket
  = parts ++ Raw FEED_AND_CUT :: ticketPiece order ticket.
Proof.
  unfold pushTicket, ticketPiece. cbv zeta.
  rewrite pushFooter_app, (pushFooter_app _ [Text _]).
  by rewrite <- !app_assoc.
Qed.

Lemma foldl_pushTicket order (tickets : list KitchenReceiptLine) :
  forall parts,
  foldl (pushTicket order mysagraFooterBuf) parts tickets
  = parts ++ mjoin ((fun t => Raw FEED_AND_CUT :: ticketPiece order t)
                      <$> tickets).
Proof.
  induction tickets as [|t tickets IH]; intros parts;
    [by rewrite app_nil_r|].
  cbn [foldl]. rewrite IH, pushTicket_app. rewrite fmap_cons.
  cbn [mjoin list_join]. by rewrite <- app_assoc.
Qed.

Lemma bytesOf_app (p1 p2 : list Segment) :
  bytesOf (p1 ++ p2) = bytesOf p1 ++ bytesOf p2.
Proof. unfold bytesOf. by rewrite List.map_app, join_app. Qed.

(** On the wire, a feed-and-cut closes the receipt and every ticket. *)
Lemma bytesOf_tickets order (tickets : list KitchenReceiptLine) :
  forall piece : list Z,
  piece ++ bytesOf (mjoin ((fun t => Raw FEED_AND_CUT :: ticketPiece order t)
                             <$> tickets)) ++ FEED_AND_CUT
  = mjoin ((fun p => p ++ FEED_AND_CUT)
             <$> piece :: ((fun t => bytesOf (ticketPiece order t)) <$> tickets)).
Proof.
  induction tickets as [|t tickets IH]; intros piece.
  - cbn. by rewrite app_nil_r.
  - rewrite !fmap_cons. cbn [mjoin list_join]. rewrite bytesOf_app.
    change (bytesOf (Raw FEED_AND_CUT :: ticketPiece order t))
      with (FEED_AND_CUT ++ bytesOf (ticketPiece order t)).
    rewrite <- !app_assoc. f_equal. f_equal.
    rewrite (IH (bytesOf (ticketPiece order t))).
    rewrite fmap_cons. cbn [mjoin list_join]. by rewrite <- app_assoc.
Qed.

End TicketFacts.

(** X17. Single tickets are added after the cash receipt and never change
    it: the parts built with tickets are the parts built without them,
    followed, for each ticket in order, by a feed-and-cut, the text of the
    ticket and the footer image when there is one (no ticket list and an
    empty one give the same parts). Sent with [sendToPrinter], the paper is
    cut after the receipt and after every ticket: the payload is the code
    page command followed by the receipt and by each ticket, every one of
    them closed by the feed-and-cut command. *)
Theorem cash_receipt_with_tickets `{Runtime} `{Assets} (fuel : nat)
    (order : IncomingOrder) (lines : list CashReceiptLine)
    (tickets : list KitchenReceiptLine) (receipt : list Segment) :
  buildCashReceipt fuel order lines None = Some receipt ->
  buildCashReceipt fuel order lines (Some []) = Some receipt
  /\ buildCashReceipt fuel order lines (Some tickets)
     = Some (receipt
               ++ mjoin ((fun t => Raw FEED_AND_CUT :: ticketPiece order t)
                           <$> tickets))
  /\ (forall parts,
        buildCashReceipt fuel order lines (Some tickets) = Some parts ->
        encodePayload (Segments parts)
        = SELECT_CP858
            ++ mjoin ((fun piece => piece ++ FEED_AND_CUT)
                        <$> bytesOf receipt
                            :: ((fun t => bytesOf (ticketPiece order t))
                                  <$> tickets))).
Proof.
  intros Hbase.
  assert (Hwith : buildCashReceipt fuel order lines (Some tickets)
                  = Some (receipt
                            ++ mjoin ((fun t => Raw FEED_AND_CUT
                                                  :: ticketPiece order t)
                                        <$> tickets))).
  { unfold buildCashReceipt in *.
    destruct (buildCashReceipt_out fuel order lines) as [out|]; [|done].
    set (logo := logoParts possibleLogos []) in *. clearbody logo.
    cbn [mbind option_bind] in *. injection Hbase as <-.
    destruct tickets as [|t tickets]; [by rewrite app_nil_r|].
    by rewrite foldl_pushTicket. }
  split; [|split; [done|]].
  - unfold buildCashReceipt in *.
    by destruct (buildCashReceipt_out fuel order lines).
  - intros parts Hparts. rewrite Hwith in Hparts. injection Hparts as <-.
    rewrite encodePayload_eq. cbn [segmentsOf]. f_equal.
    fold (bytesOf (receipt
                     ++ mjoin ((fun t => Raw FEED_AND_CUT :: ticketPiece order t)
                                 <$> tickets))).
    rewrite bytesOf_app, <- app_assoc. apply bytesOf_tickets.
Qed.

Lemma cash_receipt_with_tickets_witness :
  exists receipt,
    @buildCashReceipt sampleRuntime noAssets 40 sampleOrder sampleLines None
    = Some receipt
    /\ @buildCashReceipt sampleRuntime noAssets 40 sampleOrder sampleLines
         (Some [sampleTicket])
       = Some (receipt
                 ++ [Raw FEED_AND_CUT;
                     Text (ticketStr sampleOrder sampleTicket)]).
Proof.
  eexists. split; [by vm_compute|].
  refine (proj1 (proj2 (@cash_receipt_with_tickets sampleRuntime noAssets 40
                  sampleOrder sampleLines
                  [sampleTicket] _ _))).
  by vm_compute.
Defined.

(* ===================================================================== *)
(** * The handler: one order *)
(* ===================================================================== *)

Section HandlerFacts.

Context `{Runtime} `{Network} `{Assets}.
Variable fuel : nat.

Implicit Types (st : Server * list KitchenPrint) (pid : jstring).

(** What is read under a name after a value was written under another. *)
Lemma readProperty_write_ne (counters : gmap jstring Counter) (k pid : jstring)
    (v : Counter) :
  k <> pid ->
  readProperty (writeProperty k v counters) pid = readProperty counters pid.
Proof.
  intros Hne. unfold writeProperty, readProperty.
  case_bool_decide; [done|]. by rewrite lookup_insert_ne.
Qed.

(** What is read under a name after a value was written under it. *)
Lemma readProperty_write_eq (counters : gmap jstring Counter) (k : jstring)
    (v : Counter) :
  readProperty (writeProperty k v counters) k
  = if decide (k = js "__proto__") then readProperty counters k else Some v.
Proof.
  unfold writeProperty. case_bool_decide as Hk.
  - by rewrite decide_True.
  - rewrite decide_False by done. unfold readProperty.
    by rewrite lookup_insert_eq.
Qed.

(** The kitchen receipts of one order: one for each entry of the map, each
    numbered with the value read for its printer, to which one is added. *)
Lemma foldl_kitchenPrint resolve order
    (entries : list (jstring * list KitchenReceiptLine)) :
  forall st st',
  NoDup entries.*1 ->
  foldl (fun acc entry =>
           acc ≫= fun st => kitchenPrint fuel resolve order st entry)
        (Some st) entries = Some st' ->
  exists new,
    st'.2 = st.2 ++ new
    /\ Forall2 (fun p e =>
                  kp_printerId p = e.1
                  /\ kp_progress p = counterOf st.1 e.1
                  /\ Some (kp_receipt p)
                     = buildKitchenReceiptOf fuel order e.2
                         (counterText (counterOf st.1 e.1)))
               new entries
    /\ (forall pid,
          counterOf st'.1 pid
          = if decide (pid ∈ entries.*1 /\ pid <> js "__proto__")
            then plusOne (counterOf st.1 pid) else counterOf st.1 pid).
Proof.
  induction entries as [|e entries IH]; intros st st' Hnd; cbn [foldl].
  - intros [= <-]. exists []. rewrite app_nil_r. split_and!; [done|constructor|].
    intros pid. cbn [fmap list_fmap].
    rewrite decide_False; [done|]. intros [Hin _]. by apply elem_of_nil in Hin.
  - cbn [mbind option_bind]. rewrite fmap_cons in Hnd.
    apply NoDup_cons in Hnd as [He Hnd].
    destruct (kitchenPrint fuel resolve order st e) as [st1|] eqn:E;
      [|by rewrite foldl_bind_None].
    intros Hf. destruct (IH st1 st' Hnd Hf) as (new & Hh & Hall & Hcnt).
    apply (kitchenPrint_inv fuel (fun _ => resolve)) in E
      as (receipt & out & Hout & -> & Hh1 & Hp1).
    assert (Hc1 : forall pid,
               counterOf st1.1 pid
               = if decide (pid = e.1 /\ pid <> js "__proto__")
                 then plusOne (counterOf st.1 pid) else counterOf st.1 pid).
    { intros pid. unfold counterOf at 1. rewrite Hp1.
      destruct (decide (pid = e.1)) as [->|Hne].
      - rewrite readProperty_write_eq.
        destruct (decide (e.1 = js "__proto__")) as [Hk|Hk].
        + by rewrite decide_False by tauto.
        + by rewrite decide_True by tauto.
      - rewrite readProperty_write_ne by done.
        by rewrite decide_False by tauto. }
    eexists (_ :: new). split_and!.
    + rewrite Hh, Hh1, <- app_assoc. done.
    + constructor.
      * cbn [kp_printerId kp_progress kp_receipt]. split_and!; [done..|].
        unfold buildKitchenReceiptOf. by rewrite Hout.
      * apply Forall2_same_length_lookup in Hall as [Hlen Hall].
        apply Forall2_same_length_lookup. split; [done|].
        intros i p e' Hp He'. destruct (Hall i p e' Hp He') as (Hi & Hg & Hr).
        assert (Hne : e'.1 <> e.1).
        { intros Heq. apply He. rewrite <- Heq. apply list_elem_of_fmap.
          exists e'. split; [done|]. by eapply list_elem_of_lookup_2. }
        rewrite Hc1, decide_False in Hg, Hr by tauto. done.
    + intros pid. rewrite Hcnt, Hc1, fmap_cons.
      destruct (decide (pid = e.1)) as [->|Hne].
      * rewrite (decide_False (P := e.1 ∈ entries.*1 /\ _)) by tauto.
        destruct (decide (e.1 = js "__proto__")) as [Hk|Hk].
        -- rewrite !decide_False by tauto. done.
        -- rewrite !decide_True; [done| |tauto]. split; [by left|done].
      * rewrite (decide_False (P := pid = e.1 /\ _)) by tauto.
        destruct (decide (pid ∈ entries.*1 /\ pid <> js "__proto__"))
          as [[Hin Hk]|Hn].
        -- rewrite decide_True; [done|]. split; [by right|done].
        -- rewrite decide_False; [done|]. rewrite elem_of_cons. tauto.
Qed.


Lemma cashPrint_counters inspect resolve cashRegisterPrinterId receipt srv :
  progressCounters (cashPrint inspect resolve cashRegisterPrinterId receipt srv)
  = progressCounters srv.
Proof.
  unfold cashPrint. destruct cashRegisterPrinterId; [done|].
  destruct (resolve _); [|done]. by destruct (safePrint _ _ _ _ _).
Qed.

(** The lines of the cash receipt are the items, one for one. *)
Lemma cashLines_spec (order : IncomingOrder) :
  cashLines order = cashLineOf <$> orderItems order.
Proof.
  unfold cashLines. induction (orderItems order) as [|it items IH] using rev_ind;
    [done|].
  by rewrite foldl_app, fmap_app, IH.
Qed.

(** ** When the handler answers *)





(** A row has room when it has fewer than 10^9 items and an amount below
    10^16: its price column has at most 21 characters and its quantity
    prefix at most 12. *)
Lemma roomy (l : CashReceiptLine) :
  Z.abs (quantity l) < 10 ^ 9 ->
  within (10 ^ 16 - 1) (rowBaseOf l + rowExtraOf l)%Qc ->
  hasRoom l.
Proof.
  intros Hq Hx.
  pose proof (len_eurCol _ 16 ltac:(lia) Hx) as Hcol.
  pose proof (len_ofZ (quantity l) 9 ltac:(lia) Hq) as Hlen.
  unfold hasRoom, namePrefixOf. rewrite len_app.
  change (len (js "x ")) with 2. change RECEIPT_W with 48. lia.
Qed.

Lemma moderate_hasRoom (l : CashReceiptLine) : moderate l -> hasRoom l.
Proof.
  intros (Hq & [Hb1 Hb2] & [He1 He2]). apply roomy; [done|].
  assert (Hx : (- Qc_of_Z (10 ^ 16 - 1) <= rowBaseOf l + rowExtraOf l
                <= Qc_of_Z (10 ^ 16 - 1))%Qc); [|done].
  { pose proof (Qcplus_le_compat _ _ _ _ Hb1 He1) as Hlo.
    pose proof (Qcplus_le_compat _ _ _ _ Hb2 He2) as Hhi.
    rewrite <- !Z2Qc_inj_opp, <- Z2Qc_inj_add in Hlo.
    rewrite <- Z2Qc_inj_add in Hhi. rewrite <- Z2Qc_inj_opp.
    split.
    - eapply Qcle_trans; [|exact Hlo]. by apply Z2Qc_inj_le.
    - eapply Qcle_trans; [exact Hhi|]. by apply Z2Qc_inj_le. }
Qed.

(** The amount of a row in whole euros. *)
Lemma wholeRow_euros (l : CashReceiptLine) :
  wholeRow l ->
  (rowBaseOf l + rowExtraOf l)%Qc = Qc_of_Z (rowEuros l) /\ 0 <= rowEuros l.
Proof.
  intros ([Hp Hp0] & [Hs Hs0] & Hq). split; [|unfold rowEuros; nia].
  unfold rowBaseOf, rowExtraOf, rowEuros.
  rewrite Z2Qc_inj_mul, Z2Qc_inj_add, <- Hp, <- Hs. ring.
Qed.

Lemma sum_whole (lines : list CashReceiptLine) :
  Forall wholeRow lines ->
  (sumBase lines + sumExtra lines)%Qc = Qc_of_Z (sumEuros lines)
  /\ 0 <= sumEuros lines
  /\ Forall (fun l => rowEuros l <= sumEuros lines) lines.
Proof.
  induction 1 as [|l lines Hl _ (IH1 & IH2 & IH3)];
    cbn [sumBase sumExtra sumEuros foldr].
  - by rewrite Z2Qc_inj_0, Qcplus_0_l.
  - fold (sumBase lines). fold (sumExtra lines). fold (sumEuros lines).
    destruct (wholeRow_euros l Hl) as [E E0]. split_and!; [|lia|].
    + rewrite Z2Qc_inj_add, <- E, <- IH1. ring.
    + constructor; [lia|]. eapply Forall_impl; [exact IH3|].
      intros l' Hl'. cbn beta in Hl'. lia.
Qed.

Lemma wholeRow_hasRoom (l : CashReceiptLine) :
  wholeRow l -> rowEuros l <= 2 ^ 53 -> hasRoom l.
Proof.
  intros Hl Hle. destruct (wholeRow_euros l Hl) as [E E0].
  destruct Hl as (_ & _ & Hq). apply roomy; [lia|].
  rewrite E. unfold within. rewrite <- Z2Qc_inj_opp.
  assert ((2 : Z) ^ 53 < 10 ^ 16 - 1) by done.
  split; apply (proj1 (Z2Qc_inj_le _ _)); lia.
Qed.

Lemma Math_max_whole (n : Z) : Math_max 0 (Qc_of_Z n) = Qc_of_Z (Z.max 0 n).
Proof.
  unfold Math_max. destruct (Qc_ltb 0 (Qc_of_Z n)) eqn:E.
  - apply Qc_ltb_lt in E. rewrite <- Z2Qc_inj_0 in E.
    apply Z2Qc_inj_lt in E. by rewrite Z.max_r by lia.
  - destruct (Z_lt_le_dec 0 n) as [Hn|Hn].
    + apply Z2Qc_inj_lt in Hn. rewrite Z2Qc_inj_0 in Hn.
      apply Qc_ltb_lt in Hn. congruence.
    + rewrite Z.max_l by lia. by rewrite Z2Qc_inj_0.
Qed.

Lemma moderate_quantity (it : OrderItemIn) :
  moderate (cashLineOf it) -> Z.abs (item_quantity it) < 10 ^ 21.
Proof.
  intros (Hq & _). cbn [quantity kitchenLine cashLineOf kitchenLineOf] in Hq.
  assert ((10 : Z) ^ 9 < 10 ^ 21) by done. lia.
Qed.

Lemma le_foldr_max {A} (f : A -> nat) (xs : list A) (x : A) :
  x ∈ xs -> (f x <= foldr Nat.max 0 (f <$> xs))%nat.
Proof.
  induction xs as [|y xs IH]; [by intros ?%elem_of_nil|].
  intros [->|Hin]%elem_of_cons; cbn; [lia|]. specialize (IH Hin). lia.
Qed.

Lemma printKitchen_total resolve st (order : IncomingOrder) :
  Forall (fun it => Z.abs (item_quantity it) < 10 ^ 21) (orderItems order) ->
  (orderFuel order <= fuel)%nat ->
  is_Some (printKitchen fuel resolve st order).
Proof.
  intros Hq Hf. unfold printKitchen. rewrite kitchenByPrinterId_spec.
  generalize (kitchenPrintersOf (orderItems order)) as keys.
  intros keys. revert st.
  induction keys as [|k keys IH]; intros st; [by eexists|].
  rewrite fmap_cons. cbn [foldl mbind option_bind].
  assert (Hk : is_Some (kitchenPrint fuel (resolve order) order st
                          (k, kitchenLineOf <$> itemsFor k (orderItems order)))).
  { destruct st as [srv history]. unfold kitchenPrint.
    destruct (buildKitchenReceiptOf_total fuel order
                (kitchenLineOf <$> itemsFor k (orderItems order))
                (counterText
                   (default (Count 1) (readProperty (progressCounters srv) k))))
      as [receipt ->].
    - apply Forall_fmap, Forall_forall. intros it [_ Hit]%list_elem_of_filter.
      by apply (proj1 (Forall_forall _ _) Hq).
    - apply Forall_fmap, Forall_forall. intros it [_ Hit]%list_elem_of_filter.
      unfold orderFuel in Hf.
      pose proof (le_foldr_max
                    (fun it => Nat.max (kitchenFuel (kitchenLineOf it))
                                       (itemFuel (cashLineOf it)))
                    _ it Hit) as Hm.
      cbn beta in Hm. unfold compose. lia.
    - cbn [mbind option_bind]. destruct (resolve order k); [|by eexists].
      destruct (safePrint _ _ _ _ _). by eexists. }
  destruct Hk as [st1 ->]. apply IH.
Qed.

End HandlerFacts.

(** X18. What [POST /print] does with one request. Without a body or an
    [orderItems] array it answers 400, and without a token 500, and in both
    cases nothing is printed, queued or counted. Otherwise, when it answers,
    the answer lists the kitchen printers of the order (each printer id that
    an item names, trimmed, once, in the order of the first item) and the
    cash printer id; exactly one kitchen receipt has been generated for each
    of these printers, in that order, made of the lines of the items of
    that printer and showing the value read from [progressCounters] for
    the printer ([1] when the object has no such property, and the
    inherited member for an id such as [constructor]); and the value read
    for each of these printers, and for no other, has become that value
    [+ 1] (one more for a number, the text followed by [1] otherwise),
    except for the id [__proto__], whose value never changes. *)
Theorem postPrint_one_order `{Runtime} `{Network} `{Assets} (fuel : nat)
    (token : option jstring) (fetch : jstring -> option CashRegisterFromApi)
    (inspect : list Segment -> jstring) (req : PrintRequest)
    (st : Server * list KitchenPrint) :
  (body req = NoBody \/ body req = NoOrderItems ->
   postPrint fuel token fetch inspect req st
   = Some (Status400 (js "Invalid payload: missing orderItems[]"), st))
  /\ (forall order cashRegisterId,
        body req = Order order cashRegisterId ->
        token = None \/ token = Some [] ->
        postPrint fuel token fetch inspect req st
        = Some (Status500 (js "Missing auth token (login not completed)"), st))
  /\ (forall order cashRegisterId resp st',
        body req = Order order cashRegisterId ->
        token <> None -> token <> Some [] ->
        postPrint fuel token fetch inspect req st = Some (resp, st') ->
        let keys := kitchenPrintersOf (orderItems order) in
        resp = Json keys (cashRegisterPrinter fetch cashRegisterId).1
        /\ (exists new,
              st'.2 = st.2 ++ new
              /\ Forall2 (fun p pid =>
                            kp_printerId p = pid
                            /\ kp_progress p = counterOf st.1 pid
                            /\ Some (kp_receipt p)
                               = buildKitchenReceiptOf fuel order
                                   (kitchenLineOf
                                      <$> itemsFor pid (orderItems order))
                                   (counterText (counterOf st.1 pid)))
                         new keys)
        /\ (forall pid,
              counterOf st'.1 pid
              = if decide (pid ∈ keys /\ pid <> js "__proto__")
                then plusOne (counterOf st.1 pid)
                else counterOf st.1 pid)).
Proof.
  split_and!.
  - intros [E|E]; unfold postPrint; by rewrite E.
  - intros order cr E [-> | ->]; unfold postPrint; by rewrite E.
  - intros order cr resp st' E Hn He. unfold postPrint. rewrite E.
    destruct token as [[|c tok]|]; [done| |done].
    destruct (cashRegisterPrinter fetch cr) as [cashId embedded] eqn:Ecr.
    destruct (printKitchen fuel _ st order) as [[srv history]|] eqn:Ek;
      [|done].
    cbn [mbind option_bind].
    destruct (buildCashReceipt fuel order (cashLines order) None)
      as [receipt|]; [|done].
    cbn [mbind option_bind]. intros [= <- <-]. cbv zeta.
    rewrite kitchenByPrinterId_spec, fmap_pair_fst.
    split; [done|].
    unfold printKitchen in Ek. rewrite kitchenByPrinterId_spec in Ek.
    apply foldl_kitchenPrint in Ek as (new & Hh & Hall & Hcnt);
      [|rewrite fmap_pair_fst; apply NoDup_firstOccurrences].
    rewrite fmap_pair_fst in Hcnt. cbn [fst snd] in *. split.
    + exists new. split; [done|].
      apply Forall2_fmap_r in Hall. exact Hall.
    + intros pid. unfold counterOf at 1. rewrite cashPrint_counters.
      apply Hcnt.
Qed.

Lemma postPrint_one_order_witness :
  exists srv history,
    @postPrint sampleRuntime (steadyNetwork 0) noAssets 60 (Some (js "jwt"))
      (fun _ => None) (fun _ => []) (requestOf sampleOrder) (boot, [])
    = Some (Json [js "P1"] [], (srv, history))
    /\ kp_progress <$> history = [Count 1]
    /\ counterOf srv (js "P1") = Count 2.
Proof.
  destruct (@postPrint sampleRuntime (steadyNetwork 0) noAssets 60
              (Some (js "jwt")) (fun _ => None) (fun _ => [])
              (requestOf sampleOrder) (boot, [])) as [[resp [srv history]]|] eqn:E;
    [|by vm_compute in E].
  destruct (proj2 (proj2 (@postPrint_one_order sampleRuntime (steadyNetwork 0)
                     noAssets 60 (Some (js "jwt")) (fun _ => None)
                     (fun _ => []) (requestOf sampleOrder) (boot, [])))
              sampleOrder None resp (srv, history) eq_refl
              ltac:(discriminate) ltac:(discriminate) E)
    as (Hresp & (new & Hh & Hall) & Hcnt).
  exists srv, history. split; [by rewrite Hresp|]. split.
  - cbn [snd app] in Hh. rewrite Hh.
    change (kitchenPrintersOf (orderItems sampleOrder)) with [js "P1"] in Hall.
    apply Forall2_cons_inv_r in Hall as (p & new' & (_ & Hp & _) & Hnil & ->).
    apply Forall2_nil_inv_r in Hnil as ->. cbn. by rewrite Hp.
  - pose proof (Hcnt (js "P1")) as Hc. cbn [fst] in Hc. rewrite Hc.
    by vm_compute.
Defined.



(** X20. An order of moderate size is always answered. When every item
    has fewer than 10^9 pieces and, on its row of the cash receipt, a base
    amount ([unitPrice * quantity]) and a surcharge
    ([unitSurcharge * quantity]) of at most 10^15 each in absolute value,
    the price column has at most 21 characters and the quantity prefix at
    most 12, and the handler, given a body and a token, answers with
    status 200, with any fuel from [orderFuel] on (the loops of [wrapText]
    all end). *)
Theorem postPrint_answers `{Runtime} `{Network} `{Assets}
    (token : option jstring) (fetch : jstring -> option CashRegisterFromApi)
    (inspect : list Segment -> jstring) (req : PrintRequest)
    (st : Server * list KitchenPrint) (order : IncomingOrder)
    (cashRegisterId : option jstring) :
  body req = Order order cashRegisterId ->
  token <> None -> token <> Some [] ->
  Forall (fun it => moderate (cashLineOf it)) (orderItems order) ->
  forall fuel, (orderFuel order <= fuel)%nat ->
  exists kitchenPrinters cashPrinterId st',
    postPrint fuel token fetch inspect req st
    = Some (Json kitchenPrinters cashPrinterId, st').
Proof.
  intros E Hn He Hmod fuel Hf. unfold postPrint. rewrite E.
  destruct token as [[|c tok]|]; [done| |done].
  destruct (cashRegisterPrinter fetch cashRegisterId) as [cashId embedded].
  destruct (printKitchen_total fuel
              (fun _ => resolvePrinter embedded (default [] (printers req)))
              st order) as [[srv history] ->]; [|done|].
  { eapply Forall_impl; [exact Hmod|]. apply moderate_quantity. }
  cbn [mbind option_bind].
  assert (Hcash : is_Some (buildCashReceipt fuel order (cashLines order) None)).
  { unfold buildCashReceipt, buildCashReceipt_out.
    destruct (cashItems_total fuel (cashLines order) (cashHeader order, 0%Qc, 0%Qc))
      as [[[out s] e] ->]; [| |by eexists].
    - rewrite cashLines_spec. apply Forall_fmap.
      eapply Forall_impl; [exact Hmod|]. intros it. apply moderate_hasRoom.
    - rewrite cashLines_spec. apply Forall_fmap, Forall_forall. intros it Hit.
      unfold orderFuel in Hf.
      pose proof (le_foldr_max
                    (fun it => Nat.max (kitchenFuel (kitchenLineOf it))
                                       (itemFuel (cashLineOf it)))
                    _ it Hit) as Hm.
      cbn beta in Hm. unfold compose. lia. }
  destruct Hcash as [receipt ->]. cbn [mbind option_bind]. by eexists _, _, _.
Qed.

Lemma postPrint_answers_witness :
  exists kitchenPrinters cashPrinterId st',
    @postPrint sampleRuntime (steadyNetwork 0) noAssets 60 (Some (js "jwt"))
      (fun _ => None) (fun _ => []) (requestOf sampleOrder) (boot, [])
    = Some (Json kitchenPrinters cashPrinterId, st').
Proof.
  apply (@postPrint_answers sampleRuntime (steadyNetwork 0) noAssets
           (Some (js "jwt")) (fun _ => None) (fun _ => [])
           (requestOf sampleOrder) (boot, []) sampleOrder None eq_refl);
    [discriminate|discriminate| |].
  - repeat constructor; by vm_compute.
  - apply (bool_decide_unpack _). by vm_compute.
Defined.

(** X30. The total of a receipt in whole euros. When the unit prices and
    the surcharges of the rows are whole numbers of euros, not negative,
    the quantities are not negative and below 10^9, the discount is a whole
    number [d] of euros from 0 to 2^53, and the rows sum up to at most
    2^53 euros, [buildCashReceipt] gets to its totals and the line before
    the closing rule is [TOTALE] with the maximum of 0 and the sum over
    the rows of [(unitPrice + surcharge) * quantity] minus [d], printed
    in digits with [,00€]: never negative, and [0,00€] when the discount
    is the sum or more. Within these bounds the doubles of the source add
    and multiply without rounding. *)
Theorem cash_total_whole_euros `{Runtime} (order : IncomingOrder)
    (lines : list CashReceiptLine) (d : Z) :
  Forall wholeRow lines ->
  toNumber (discount order) = Qc_of_Z d -> 0 <= d <= 2 ^ 53 ->
  sumEuros lines <= 2 ^ 53 ->
  exists fuel out pre,
    buildCashReceipt_out fuel order lines = Some out
    /\ out = pre ++ [lr (js "TOTALE")
                        (ofZ (Z.max 0 (sumEuros lines - d))
                           ++ js ",00" ++ [EURO]);
                     line (js "=")].
Proof.
  intros Hw Hd Hdr Hsum.
  destruct (sum_whole lines Hw) as (Es & Hs0 & Hrows).
  destruct (cashItems_total (max_list (itemFuel <$> lines)) lines
              (cashHeader order, 0%Qc, 0%Qc)) as [[[out1 s] e] E].
  { apply Forall_forall. intros l Hl. apply wholeRow_hasRoom.
    - by apply (proj1 (Forall_forall _ _) Hw).
    - pose proof (proj1 (Forall_forall _ _) Hrows l Hl) as Hle.
      cbn beta in Hle. lia. }
  { apply Forall_forall. intros l Hl. apply max_list_elem_of_le.
    by apply list_elem_of_fmap_2. }
  exists (max_list (itemFuel <$> lines)). unfold buildCashReceipt_out.
  rewrite E. cbn [mbind option_bind].
  apply cashItems_acc in E as (-> & -> & _).
  rewrite !Qcplus_0_l. unfold cashTotals. rewrite Hd, Es.
  rewrite <- Z2Qc_inj_sub, Math_max_whole.
  rewrite (eurCol_whole (Z.max 0 (sumEuros lines - d))) by lia.
  eexists _, (out1
              ++ [line (js "-"); lr (js "SUBTOTALE") (eurCol (sumBase lines))]
              ++ (if Qc_ltb 0 (sumExtra lines)
                  then [lr (js "EXTRA TOTALI") (eurCol (sumExtra lines))]
                  else [])
              ++ (if Qc_ltb 0 (Qc_of_Z d)
                  then [lr (js "SCONTO") (js "-" ++ eurCol (Qc_of_Z d))]
                  else [])
              ++ [line (js "=")]).
  split; [done|]. by rewrite <- !app_assoc.
Qed.

(** Three pizzas at 12 euros with 1 euro of surcharge each and a water at
    2 euros, with a discount of 30 euros: 11 euros. *)
Lemma cash_total_whole_euros_witness :
  exists fuel out pre,
    @buildCashReceipt_out sampleRuntime fuel sampleOrder wholeLines = Some out
    /\ out = pre ++ [lr (js "TOTALE") (js "11,00" ++ [EURO]); line (js "=")].
Proof.
  apply (@cash_total_whole_euros sampleRuntime sampleOrder wholeLines 30).
  - unfold wholeLines.
    repeat (apply Forall_cons_2); [..|apply Forall_nil_2];
      unfold wholeRow, whole; cbn [unitPrice surcharge default kitchenLine quantity];
      repeat split;
      first [apply Qc_is_canon; by vm_compute | by vm_compute].
  - done.
  - lia.
  - by vm_compute.
Defined.

(* ===================================================================== *)
(** * The retries of the HTTP client *)
(* ===================================================================== *)

Section RetryFacts.

Context {A : Type} (server : nat -> Reply A).

Lemma request_bounded (fuel : nat) : forall (c : Z) (l : Line),
  0 <= c <= MAX_RETRIES ->
  MAX_RETRIES - c <= Z.of_nat fuel ->
  exists reply l',
    request server fuel (retryCountAfter c) l = Some (reply, l')
    /\ (sent l < sent l')%nat
    /\ Z.of_nat (sent l') <= Z.of_nat (sent l) + (MAX_RETRIES + 1 - c)
    /\ waited l' = waited l + 30000 * (Z.of_nat (sent l') - Z.of_nat (sent l) - 1)
    /\ server (sent l' - 1) = reply
    /\ (forall n, (sent l <= n < sent l' - 1)%nat ->
          exists status, server n = Refused true status /\ status <> Some 401)
    /\ (forall hasConfig status, reply = Refused hasConfig status ->
          hasConfig = false \/ status = Some 401
          \/ Z.of_nat (sent l') = Z.of_nat (sent l) + (MAX_RETRIES + 1 - c)).
Proof.
  unfold MAX_RETRIES.
  assert (Hstop : forall l reply,
            server (sent l) = reply ->
            (S (sent l) - 1)%nat = sent l
            /\ forall n, (sent l <= n < S (sent l) - 1)%nat ->
                 exists status,
                   server n = Refused true status /\ status <> Some 401).
  { intros l0 reply _. split; [lia|]. intros n Hn. lia. }
  induction fuel as [|fuel IH]; intros c l Hc Hf; cbn [request].
  - assert (c = 6) as -> by lia. cbn [retryCountAfter Z.eqb negb default].
    destruct (server (sent l)) as [data|hasConfig status] eqn:E.
    + destruct (Hstop l _ E) as [Hl Hprev].
      eexists _, _. split; [done|]. cbn [sent waited]. rewrite Hl.
      repeat (split; [done || lia|]). done.
    + unfold MAX_RETRIES. cbn [andb Z.leb Z.compare Pos.compare Pos.compare_cont].
      rewrite orb_true_r. destruct (Hstop l _ E) as [Hl Hprev].
      eexists _, _. split; [done|]. cbn [sent waited]. rewrite Hl.
      repeat (split; [done || lia|]).
      intros hc s _. right. right. lia.
  - destruct (server (sent l)) as [data|hasConfig status] eqn:E.
    + destruct (Hstop l _ E) as [Hl Hprev].
      eexists _, _. split; [done|]. cbn [sent waited]. rewrite Hl.
      repeat (split; [done || lia|]). done.
    + destruct (Hstop l _ E) as [Hl Hprev].
      set (truthy := match retryCountAfter c with
                     | Some c0 => negb (c0 =? 0)
                     | None => false
                     end).
      assert (Htruthy : truthy = negb (c =? 0)).
      { subst truthy. unfold retryCountAfter.
        destruct (Z.eqb_spec c 0) as [->|Hne]; [done|].
        cbn. by destruct (Z.eqb_spec c 0). }
      assert (Hdef : default 0 (retryCountAfter c) = c).
      { unfold retryCountAfter. destruct (Z.eqb_spec c 0) as [->|Hne]; done. }
      assert (Hcount : (if truthy then default 0 (retryCountAfter c) else 0) + 1 = c + 1).
      { rewrite Htruthy, Hdef. by destruct (Z.eqb_spec c 0) as [->|Hne]. }
      rewrite Hcount, Hdef. unfold MAX_RETRIES.
      destruct (negb hasConfig || truthy && (6 <=? c)) eqn:Estop.
      * eexists _, _. split; [done|]. cbn [sent waited]. rewrite Hl.
        repeat (split; [done || lia|]).
        intros hc s [= <- <-].
        apply orb_true_iff in Estop as [Hn|Hn].
        -- left. by destruct hasConfig.
        -- apply andb_true_iff in Hn as [_ Hn]. apply Z.leb_le in Hn.
           right. right. lia.
      * apply orb_false_iff in Estop as [Hcfg Hlim].
        apply negb_false_iff in Hcfg. subst hasConfig.
        assert (Hlt : c < 6).
        { rewrite Htruthy in Hlim.
          destruct (Z.eqb_spec c 0) as [->|Hne]; [lia|].
          cbn in Hlim. apply Z.leb_gt in Hlim. lia. }
        case_bool_decide as H401.
        -- eexists _, _. split; [done|]. cbn [sent waited]. rewrite Hl.
           repeat (split; [done || lia|]).
           intros hc s [= <- <-]. by right; left.
        -- destruct (IH (c + 1) {| sent := S (sent l);
                                    waited := waited l + 30000 |}
                        ltac:(lia) ltac:(lia))
             as (reply & l' & Hrun & Hs1 & Hs2 & Hw & Hlast & Hbefore & Hrej).
           cbn [sent waited] in *.
           assert (Hcnt : retryCountAfter (c + 1) = Some (c + 1)).
           { unfold retryCountAfter.
             destruct (Z.eqb_spec (c + 1) 0); [lia|done]. }
           rewrite Hcnt in Hrun. exists reply, l'. split; [done|].
           repeat (split; [done || lia|]). split.
           ++ intros n Hn. destruct (decide (n = sent l)) as [->|Hne].
              ** by exists status.
              ** apply Hbefore. lia.
           ++ intros hc s Hr. destruct (Hrej hc s Hr) as [?|[?|?]]; auto.
              right. right. lia.
Qed.

(** What the client that retries gives, with fuel for its 6 retries. *)
Lemma retrying_reply (fuel : nat) :
  (6 <= fuel)%nat ->
  exists reply k,
    fst <$> request server fuel None {| sent := 0; waited := 0 |} = Some reply
    /\ (k <= 6)%nat
    /\ server k = reply
    /\ (forall n, (n < k)%nat ->
          exists status, server n = Refused true status /\ status <> Some 401)
    /\ (forall hasConfig status, reply = Refused hasConfig status ->
          hasConfig = false \/ status = Some 401 \/ k = 6%nat).
Proof.
  intros Hfuel.
  destruct (request_bounded fuel 0 {| sent := 0; waited := 0 |}
              ltac:(unfold MAX_RETRIES; lia) ltac:(unfold MAX_RETRIES; lia))
    as (reply & l' & Hrun & Hs1 & Hs2 & _ & Hlast & Hbefore & Hrej).
  unfold MAX_RETRIES, retryCountAfter in *. cbn [sent waited Z.eqb] in *.
  exists reply, (sent l' - 1)%nat. rewrite Hrun.
  repeat (split; [done || lia|]). split.
  - intros n Hn. apply Hbefore. lia.
  - intros hc s Hr. destruct (Hrej hc s Hr) as [?|[?|?]]; auto.
    right. right. lia.
Qed.

End RetryFacts.

(** X21. The HTTP client with retries gives up. A request is sent at most
    7 times (the first attempt and 6 retries), 30 seconds apart, so that it
    ends after at most 180 seconds of waiting, and 6 units of fuel are
    enough for the model; the reply returned is the last one received; every
    reply before it was a failure other than 401; and a failure is returned
    only when the request could not be set up, when the status is 401 (never
    retried), or after the 7th attempt. *)
Theorem retry_gives_up {A : Type} (server : nat -> Reply A) (l : Line) :
  exists reply l',
    request server 6 None l = Some (reply, l')
    /\ (sent l < sent l' <= sent l + 7)%nat
    /\ waited l' = waited l + 30000 * (Z.of_nat (sent l' - sent l) - 1)
    /\ waited l' <= waited l + 180000
    /\ server (sent l' - 1)%nat = reply
    /\ (forall n, (sent l <= n < sent l' - 1)%nat ->
          exists status, server n = Refused true status /\ status <> Some 401)
    /\ (forall hasConfig status, reply = Refused hasConfig status ->
          hasConfig = false \/ status = Some 401
          \/ (sent l' = sent l + 7)%nat).
Proof.
  destruct (request_bounded server 6 0 l ltac:(unfold MAX_RETRIES; lia)
              ltac:(unfold MAX_RETRIES; lia))
    as (reply & l' & Hrun & Hs1 & Hs2 & Hw & Hlast & Hbefore & Hrej).
  unfold MAX_RETRIES, retryCountAfter in *. cbn [Z.eqb] in Hrun.
  exists reply, l'. split; [exact Hrun|].
  repeat (split; [done || lia|]).
  intros hc s Hr. destruct (Hrej hc s Hr) as [?|[?|?]]; auto.
  right. right. lia.
Qed.

(* ===================================================================== *)
(** * The start of the service *)
(* ===================================================================== *)

Section StartupFacts.

Context `{Runtime} `{Network} `{Assets}.

Lemma startsWith_refl (p : jstring) : startsWith p p = true.
Proof. induction p as [|c p IH]; [done|]. cbn. by rewrite N.eqb_refl. Qed.

Lemma includes_app (t p : jstring) : includes (t ++ p) p = true.
Proof.
  induction t as [|c t IH].
  - cbn [app]. destruct p as [|d p]; [done|]. cbn [includes].
    by rewrite startsWith_refl.
  - cbn [app includes]. rewrite IH. apply orb_true_r.
Qed.

(** A service that has not started answers 500. *)
Lemma serveRequest_notStarted (fuel : nat)
    (fetch : jstring -> option CashRegisterFromApi)
    (inspect : list Segment -> jstring) (order : IncomingOrder)
    (cashRegisterId : option jstring) (st : Server * list KitchenPrint) :
  serveRequest fuel notStarted fetch inspect (Order order cashRegisterId) st
  = Some (Status500 (js "Missing auth token (login not completed)"), st).
Proof. done. Qed.

(** With a token, an answer is the list of printers. *)
Lemma serveRequest_token (fuel : nat) (app : App) (c : N) (token : jstring)
    (fetch : jstring -> option CashRegisterFromApi)
    (inspect : list Segment -> jstring) (order : IncomingOrder)
    (cashRegisterId : option jstring) (st st' : Server * list KitchenPrint)
    (resp : Response) :
  AUTH_TOKEN app = Some (c :: token) ->
  serveRequest fuel app fetch inspect (Order order cashRegisterId) st
  = Some (resp, st') ->
  exists kitchenPrinters cashPrinterId,
    resp = Json kitchenPrinters cashPrinterId.
Proof.
  intros Ht. unfold serveRequest, postPrint. rewrite Ht. cbn [body].
  destruct (cashRegisterPrinter fetch cashRegisterId) as [cashId embedded].
  destruct (printKitchen fuel _ st order) as [[srv history]|]; [|done].
  cbn [mbind option_bind].
  destruct (buildCashReceipt fuel order (cashLines order) None)
    as [receipt|]; [|done].
  cbn [mbind option_bind]. intros [= <- <-]. by eexists _, _.
Qed.

End StartupFacts.

(** X22. A service whose login fails answers no order. With the client
    that retries (6 units of fuel are enough for it), [initialize] ends.
    When the first answer to the login is a 401, or when its first 7 answers
    are all failures, no token is set and no printer is cached, and every
    request with an order is answered 500 with nothing printed, queued or
    counted. When one of the first 7 attempts is answered with a login, and
    the attempts before it failed in a way that is retried, the token is the
    [accessToken] of that answer. *)
Theorem startup_with_retries `{Runtime} `{Network} `{Assets} `{Backend}
    (fuel : nat) (EXTERNAL_BASE_URL : jstring) :
  (6 <= fuel)%nat ->
  exists app,
    initialize (retrying fuel) EXTERNAL_BASE_URL = Some app
    /\ ((exists hasConfig, postLogin 0%nat = Refused hasConfig (Some 401))
        \/ (forall n, (n <= 6)%nat ->
              exists hasConfig status, postLogin n = Refused hasConfig status) ->
        app = notStarted
        /\ forall fuel' fetch inspect order cashRegisterId st,
             serveRequest fuel' app fetch inspect (Order order cashRegisterId) st
             = Some (Status500 (js "Missing auth token (login not completed)"),
                     st))
    /\ (forall k accessToken,
          (k <= 6)%nat ->
          postLogin k = Replied (LoginData accessToken) ->
          (forall n, (n < k)%nat ->
             exists status,
               postLogin n = Refused true status /\ status <> Some 401) ->
          AUTH_TOKEN app = accessToken).
Proof.
  intros Hfuel. unfold initialize, login, fetchPrinters, retrying.
  destruct (retrying_reply postLogin fuel Hfuel)
    as (reply & k & -> & Hk & Hlast & Hbefore & Hrej).
  cbn [mbind option_bind].
  assert (Hfetch : forall token, exists r,
            fst <$> request (getPrinters token) fuel None
                      {| sent := 0; waited := 0 |} = Some r).
  { intros token.
    destruct (retrying_reply (getPrinters token) fuel Hfuel) as (r & _ & -> & _).
    by exists r. }
  assert (Hearly : forall k',
            (k' < k)%nat -> forall data, postLogin k' <> Replied data).
  { intros k' Hk' data Hrep.
    destruct (Hbefore k' Hk') as (s & Hs & _). congruence. }
  assert (Hnotfail :
            (exists hasConfig, postLogin 0%nat = Refused hasConfig (Some 401))
            \/ (forall n, (n <= 6)%nat ->
                  exists hasConfig status,
                    postLogin n = Refused hasConfig status) ->
            forall data, reply <> Replied data).
  { intros [[hc Hfirst]|Hall] data ->.
    - destruct (decide (k = 0%nat)) as [->|Hne]; [congruence|].
      destruct (Hbefore 0%nat ltac:(lia)) as (s & Hs & Hs401). congruence.
    - destruct (Hall k Hk) as (hc & s & Hs). congruence. }
  assert (Hwhere : forall k' data,
            (k' <= 6)%nat -> postLogin k' = Replied data ->
            (forall n, (n < k')%nat ->
               exists status,
                 postLogin n = Refused true status /\ status <> Some 401) ->
            reply = Replied data).
  { intros k' data Hk' Hrep Hbef.
    destruct (lt_eq_lt_dec k k') as [[Hlt|Heq]|Hgt]; [|subst k'|].
    - destruct (Hbef k Hlt) as (s & Hs & Hs401).
      rewrite Hs in Hlast. symmetry in Hlast.
      destruct (Hrej _ _ Hlast) as [?|[?|?]]; [done|done|lia].
    - congruence.
    - by destruct (Hearly k' Hgt data). }
  destruct reply as [data|hc s]; cbn [mbind option_bind].
  - destruct data as [tok|items| |].
    1, 2, 4:
      match goal with
      | |- context [request (getPrinters ?t)] =>
          destruct (Hfetch t) as [r ->]
      end;
      cbn [mbind option_bind]; eexists; (split; [done|]); split;
        [intros Hfail; by destruct (Hnotfail Hfail _ eq_refl)|];
        intros k' tok' Hk' Hrep Hbef;
        specialize (Hwhere k' _ Hk' Hrep Hbef); by simplify_eq.
    eexists; split; [done|]. split.
    + intros _. split; [done|]. intros. apply serveRequest_notStarted.
    + intros k' tok' Hk' Hrep Hbef. by specialize (Hwhere k' _ Hk' Hrep Hbef).
  - eexists; split; [done|]. split.
    + intros _. split; [done|]. intros. apply serveRequest_notStarted.
    + intros k' tok' Hk' Hrep Hbef. by specialize (Hwhere k' _ Hk' Hrep Hbef).
Qed.

Lemma startup_with_retries_witness :
  @initialize refusingBackend (retrying 6) (js "http://localhost:4300")
  = Some notStarted
  /\ AUTH_TOKEN <$> @initialize slowBackend (retrying 6) (js "http://localhost:4300")
     = Some (Some (js "jwt")).
Proof.
  split.
  - destruct (@startup_with_retries sampleRuntime (steadyNetwork 0) noAssets
                refusingBackend 6 (js "http://localhost:4300") ltac:(lia))
      as (app & -> & Hfail & _).
    destruct Hfail as [-> _]; [|done]. left. by exists true.
  - destruct (@startup_with_retries sampleRuntime (steadyNetwork 0) noAssets
                slowBackend 6 (js "http://localhost:4300") ltac:(lia))
      as (app & -> & _ & Htok).
    cbn [fmap option_fmap option_map]. f_equal.
    apply (Htok 2%nat); [lia|done|].
    intros n Hn. exists (Some 503).
    destruct n as [|[|n]]; [done|done|lia].
Defined.

(** X23. With the client that has the fallback, a refused login starts the
    service all the same. When the login is answered with a 401, the
    interceptor turns the refusal into a login with a made-up token,
    whatever the base URL: [initialize] sets that token, and a request with
    an order is not refused for lack of a token (if it is answered, the
    answer is the list of printers). *)
Theorem startup_with_fallback `{Runtime} `{Network} `{Assets} `{Backend}
    (EXTERNAL_BASE_URL : jstring) :
  postLogin 0%nat = Refused true (Some 401) ->
  exists app,
    initialize withFallback EXTERNAL_BASE_URL = Some app
    /\ AUTH_TOKEN app = Some fallbackToken
    /\ forall fuel fetch inspect order cashRegisterId st resp st',
         serveRequest fuel app fetch inspect (Order order cashRegisterId) st
         = Some (resp, st') ->
         exists kitchenPrinters cashPrinterId,
           resp = Json kitchenPrinters cashPrinterId.
Proof.
  intros Hl. unfold initialize, login, fetchPrinters, withFallback.
  cbn [mbind option_bind]. rewrite Hl. cbn [intercept Z.eqb Pos.eqb andb].
  rewrite includes_app. cbn [default]. eexists. split; [done|].
  split; [done|]. intros fuel fetch inspect order cr st resp st' Hs.
  eapply serveRequest_token; [|exact Hs]. reflexivity.
Qed.

Lemma startup_with_fallback_witness :
  AUTH_TOKEN <$> @initialize refusingBackend withFallback
                   (js "http://localhost:4300")
  = Some (Some fallbackToken).
Proof.
  destruct (@startup_with_fallback sampleRuntime (steadyNetwork 0) noAssets
              refusingBackend (js "http://localhost:4300") eq_refl)
    as (app & -> & Htoken & _).
  cbn [fmap option_fmap option_map]. by rewrite Htoken.
Defined.

(* ===================================================================== *)
(** * The timer of the delivery queue *)
(* ===================================================================== *)

Section TimerFacts.

Lemma filter_fresh (n t : nat) (ts : list nat) :
  Forall (fun t' => (t' < n)%nat) ts -> (n <= t)%nat ->
  filter (fun t' => t' <> t) ts = ts.
Proof.
  intros Hts Hn. induction Hts as [|t' ts Ht _ IH]; [done|].
  rewrite filter_cons_True by lia. by rewrite IH.
Qed.

(** What the calls on a manager keep: the timers of the process are the
    ones that were there before it and the one it has recorded, which is
    newer than they are. *)
Lemma call_keeps (timers : Timers) (st : CheckInterval * Timers) (c : Call) :
  Forall (fun t => (t < next timers)%nat) (running timers) ->
  running st.2 = running timers ++ option_list st.1
  /\ (next timers <= next st.2)%nat
  /\ (forall t, st.1 = Some t -> (next timers <= t)%nat) ->
  running (call st c).2 = running timers ++ option_list (call st c).1
  /\ (next timers <= next (call st c).2)%nat
  /\ (forall t, (call st c).1 = Some t -> (next timers <= t)%nat).
Proof.
  intros Hfresh. destruct st as [ci ts]. cbn [fst snd].
  intros (Hrun & Hnext & Hci).
  destruct c, ci as [t|]; cbn [call start stop fst snd running next option_list];
    try done.
  - rewrite Hrun. cbn [option_list]. rewrite app_nil_r.
    split; [done|]. split; [lia|]. intros t [= <-]. done.
  - split; [|done]. rewrite Hrun. cbn [option_list].
    rewrite filter_app, (filter_fresh (next timers) t) by auto.
    change (option_list (Some t)) with [t].
    rewrite filter_cons_False, filter_nil by (intros ?; done). done.
Qed.

End TimerFacts.

(** X24. The delivery queue never runs two timers. Whatever calls of
    [start] and [stop] follow the construction of the manager, the timers
    of the process are the ones that were there before, followed by the
    timer recorded in [checkInterval] if there is one: a second [start] does
    not set a second timer, and [stop] clears the timer that [start] set and
    no other. *)
Theorem one_timer (timers : Timers) (calls : list Call) :
  Forall (fun t => (t < next timers)%nat) (running timers) ->
  running (manager timers calls).2
  = running timers ++ option_list (manager timers calls).1.
Proof.
  intros Hfresh. unfold manager.
  change (start (None, timers)) with (call (None, timers) CallStart).
  pose (st := (None, timers) : CheckInterval * Timers).
  assert (Hst : running st.2 = running timers ++ option_list st.1
                /\ (next timers <= next st.2)%nat
                /\ (forall t, st.1 = Some t -> (next timers <= t)%nat)).
  { cbn. by rewrite app_nil_r. }
  apply (call_keeps timers st CallStart Hfresh) in Hst.
  change (None, timers) with st.
  generalize dependent (call st CallStart). clear st.
  induction calls as [|c calls IH]; intros st Hst; cbn [foldl].
  - apply Hst.
  - apply IH. by apply call_keeps.
Qed.

Lemma one_timer_witness :
  running (manager busyProcess [CallStart; CallStop; CallStart]).2
  = [0; 1; 3]%nat.
Proof.
  rewrite (one_timer busyProcess [CallStart; CallStop; CallStart]).
  - reflexivity.
  - repeat constructor.
Defined.

(** X25. The price column rounds an amount to the nearest cent. For an
    amount [x], not negative and below 10^21 (where [toFixed] prints every
    digit), let [c] be the integer nearest to [100 * x], the larger one when
    two are as near. [eurCol] gives the euros of [c] in decimal digits, a
    comma, exactly two digits of cents and the euro sign, and the digits
    read back as [c]. The amount is the value of the double as it is: for
    the double nearest to 100000000000000.01, which is
    100000000000000.015625, the column shows [,02]. *)
Theorem eurCol_nearest_cent (x : Qc) (c : Z) :
  (0 <= x)%Qc -> (x < Qc_of_Z (10 ^ 21))%Qc ->
  (Qc_of_Z c - Q2Qc (1 # 2) <= Qc_of_Z 100 * x)%Qc ->
  (Qc_of_Z 100 * x < Qc_of_Z c + Q2Qc (1 # 2))%Qc ->
  exists euros cents,
    eurCol x = euros ++ js "," ++ cents ++ [EURO]
    /\ euros <> []
    /\ Forall (fun d => is_digit d = true) euros
    /\ Forall (fun d => is_digit d = true) cents
    /\ len cents = 2
    /\ digitsValue euros * 100 + digitsValue cents = c.
Proof.
  intros Hx _ Hlo Hhi. unfold eurCol, toFixed2.
  rewrite (nearest_cent x c Hx Hlo Hhi), (Qc_ltb_nonneg x Hx). cbn [app].
  assert (Hc : 0 <= c) by (rewrite <- (nearest_cent x c Hx Hlo Hhi);
                           apply cents_nonneg).
  assert (He : 0 <= c / 100) by (apply Z.div_pos; lia).
  assert (Hm : 0 <= c mod 100 < 100) by (apply Z.mod_pos_bound; lia).
  destruct (two_digits (c mod 100) Hm) as (Hd & Hl & Hv).
  exists (ofZ (c / 100)), (padStart0 (ofZ (c mod 100)) 2).
  split.
  - change (js ".") with [46%N]. change (js ",") with [44%N]. cbn [app].
    rewrite replaceFirst_digits by by apply ofZ_digits.
    by rewrite <- !app_assoc.
  - split; [apply ofZ_nonempty|]. split; [by apply ofZ_digits|].
    split; [done|]. split; [done|].
    rewrite digitsValue_ofZ, Hv by done.
    pose proof (Z.div_mod c 100 ltac:(lia)). lia.
Qed.

Lemma eurCol_nearest_cent_witness :
  exists euros cents,
    eurCol (Q2Qc (6400000000000001 # 64))
    = euros ++ js "," ++ cents ++ [EURO]
    /\ euros <> []
    /\ Forall (fun d => is_digit d = true) euros
    /\ Forall (fun d => is_digit d = true) cents
    /\ len cents = 2
    /\ digitsValue euros * 100 + digitsValue cents = 10000000000000002.
Proof.
  apply (eurCol_nearest_cent (Q2Qc (6400000000000001 # 64))
           10000000000000002); by vm_compute.
Defined.
